(** * True Shuffle: a shallow embedding of [true-shuffle.js]

    The extension is one closure over a handful of mutable variables, driven
    by host events (skip buttons, [songchange], timers).  The closure's
    variables become the record [State]; what a handler reads from the host
    while it runs (player data, promise outcomes, [Math.random]) is the record
    [Env]; what it asks of the host (volume changes, play commands, timers) is
    appended to [log] in the order it is asked.

    A handler is a function [Env -> State -> State].  Its awaits are resolved
    by [Env] and it runs to its end without another handler interleaving; a
    timer it arms is logged and fires later as an event of its own.  That is
    the handler taken on its own.  The event loop, in which a handler that
    awaits [PlayerAPI.play] or [PlaylistAPI.getContents] is suspended while
    events, timers and other handlers run, is [exec]: the same handlers cut
    at these awaits, the armed timers and the suspended handlers kept in a
    [Machine].  Of the host calls only [PlayerAPI.play] and
    [PlaylistAPI.getContents] can fail.
    Numbers that are weights or volumes are doubles ([float]); sizes, counts
    and the skip counter are [nat]; the navigation cursor, which starts at -1,
    is in [Z].  The topbar button's icon and label are left out. *)

From Stdlib Require Import ZArith Floats Uint63 String Lia.
From stdpp Require Import base decidable option list strings gmap pretty.

Set Default Proof Using "Type".
Open Scope string_scope.
Open Scope Z_scope.
Open Scope list_scope.

(** ** JavaScript values and array primitives *)

(** A value that is a string, [null] or [undefined]; only its truthiness and
    its string are ever inspected. *)
Definition truthy (o : option string) : bool :=
  match o with
  | Some u => negb (String.eqb u "")
  | None => false
  end.

(** [x || null] on such a value. *)
Definition or_null (o : option string) : option string :=
  if truthy o then o else None.

(** [x || d] on such a value. *)
Definition or_default (o : option string) (d : string) : string :=
  match o with
  | Some u => if String.eqb u "" then d else u
  | None => d
  end.

(** Relative index of [Array.prototype.slice]: negative counts from the end,
    everything is clamped to [0 .. len]. *)
Definition relIndex (len : nat) (i : Z) : nat :=
  if i <? 0 then Z.to_nat (Z.max (Z.of_nat len + i) 0)
  else Z.to_nat (Z.min i (Z.of_nat len)).

(** [l.slice(start, end)]; [None] is an omitted [end]. *)
Definition slice {A} (l : list A) (start : Z) (end_ : option Z) : list A :=
  let len := length l in
  let k := relIndex len start in
  let final := match end_ with Some e => relIndex len e | None => len end in
  take (final - k) (drop k l).

Fixpoint findIndex_from {A} (p : A -> bool) (l : list A) (i : Z) : Z :=
  match l with
  | [] => -1
  | x :: l' => if p x then i else findIndex_from p l' (i + 1)
  end.

(** [l.findIndex(p)]: the first index whose element satisfies [p], or -1. *)
Definition findIndex {A} (p : A -> bool) (l : list A) : Z :=
  findIndex_from p l 0.

(** [l[i]] for a number [i] that may be negative: [undefined] out of range. *)
Definition at_index {A} (l : list A) (i : Z) : option A :=
  if i <? 0 then None else l !! Z.to_nat i.

(** The number [i] as a double (exact below 2^53). *)
Definition number_of_Z (i : Z) : float := PrimFloat.of_uint63 (Uint63.of_Z i).

(** [Math.max(a, b)]: NaN if either is NaN, and +0 is larger than -0. *)
Definition Math_max (a b : float) : float :=
  if (PrimFloat.is_nan a || PrimFloat.is_nan b)%bool then PrimFloat.nan
  else if PrimFloat.ltb a b then b
  else if PrimFloat.ltb b a then a
  else if PrimFloat.get_sign a then b else a.

(** ** Data *)

Record Track := mkTrack {
  uri : string;
  artistUri : option string;
  name : string;
  artistName : string
}.

(** An entry of [playHistory]: [{ uri, artistUri }]. *)
Record HistoryEntry := mkEntry {
  h_uri : string;
  h_artistUri : option string
}.

(** An item of [PlaylistAPI.getContents(...).items]. *)
Record PlaylistItem := mkPlaylistItem {
  p_uri : option string;
  p_type : string;
  p_isPlayable : option bool;
  p_artist0_uri : option string;
  p_name : option string;
  p_artist0_name : option string
}.

(** [Spicetify.Player.data.item], as far as the extension reads it. *)
Record Item := mkItem {
  item_uri : option string;
  item_artist_uri : option string
}.

Record Config := mkConfig {
  HISTORY_SIZE : nat;
  NO_REPEAT_WINDOW : nat;
  MIN_WEIGHT : float;
  RECENCY_DECAY_RATE : float;
  ARTIST_PENALTY : float;
  ARTIST_SPACING : nat;
  TRUE_SHUFFLE_EVERY : nat
}.

(** The [CONFIG] object of the source. *)
Definition default_CONFIG : Config :=
  {| HISTORY_SIZE := 500;
     NO_REPEAT_WINDOW := 100;
     MIN_WEIGHT := 0x1.999999999999ap-5%float;          (* 0.05 *)
     RECENCY_DECAY_RATE := 0x1.3333333333333p-3%float;  (* 0.15 *)
     ARTIST_PENALTY := 0x1.3333333333333p-3%float;      (* 0.15 *)
     ARTIST_SPACING := 2;
     TRUE_SHUFFLE_EVERY := 3 |}.

(** Timers armed with [setTimeout]. *)
Inductive Timer :=
  | NativeSkip      (* () => origSkipToNextFn() *)
  | GuardRelease.   (* () => { isHandlingAction = false; } *)

(** What the extension asks of the host, in the order it asks. *)
Inductive Command :=
  | SetVolume (v : float)
  | Play (contextUri : string) (trackUri : option string) (ok : bool)
  | Seek (position : Z)
  | SetTimeout (t : Timer) (delay : Z)
  | OrigPlayerNext
  | OrigPlayerBack
  | OrigSkipToNext
  | OrigSkipToPrevious
  | ShowNotification (msg : string).

(** What a handler reads from the host while it runs. *)
Record Env := mkEnv {
  data_item : option Item;            (* Spicetify.Player.data?.item *)
  data_context_uri : option string;   (* Spicetify.Player.data?.context?.uri *)
  getShuffle : bool;
  getContents : string -> option (list PlaylistItem);
    (* the items of a context; None when the promise rejects or has no items *)
  playOutcome : nat -> bool;
    (* whether the PlayerAPI.play of the n-th playTrackInContext call of this
       handler run resolves *)
  Math_random : nat -> float
    (* the n-th Math.random() of this handler run *)
}.

(** The closure's variables, the player's volume and the command log. *)
Record State := mkState {
  playHistory : list HistoryEntry;
  navigationHistory : list string;
  navigationIndex : Z;
  currentPlaylistUri : option string;
  currentPlaylistTracks : option (list Track);
  isActive : bool;
  skipCounter : nat;
  isNativePassSkip : bool;
  isHandlingAction : bool;
  lastPlayedByUsUri : option string;
  savedVolume : option float;
  smoothSkipMuted : bool;
  lastProgress : Z;
  lastDuration : Z;
  lastContextUri : option string;
  volume : float;
  log : list Command
}.

Definition initial_state (v : float) : State :=
  {| playHistory := []; navigationHistory := []; navigationIndex := -1;
     currentPlaylistUri := None; currentPlaylistTracks := None;
     isActive := true; skipCounter := 0; isNativePassSkip := false;
     isHandlingAction := false; lastPlayedByUsUri := None;
     savedVolume := None; smoothSkipMuted := false;
     lastProgress := 0; lastDuration := 0; lastContextUri := None;
     volume := v; log := [] |}.

(** Assignment to one variable of the closure. *)
Definition set_playHistory (x : list HistoryEntry) (s : State) : State :=
  mkState x (navigationHistory s) (navigationIndex s) (currentPlaylistUri s)
    (currentPlaylistTracks s) (isActive s) (skipCounter s)
    (isNativePassSkip s) (isHandlingAction s) (lastPlayedByUsUri s)
    (savedVolume s) (smoothSkipMuted s) (lastProgress s) (lastDuration s)
    (lastContextUri s) (volume s) (log s).
Definition set_navigationHistory (x : list string) (s : State) : State :=
  mkState (playHistory s) x (navigationIndex s) (currentPlaylistUri s)
    (currentPlaylistTracks s) (isActive s) (skipCounter s)
    (isNativePassSkip s) (isHandlingAction s) (lastPlayedByUsUri s)
    (savedVolume s) (smoothSkipMuted s) (lastProgress s) (lastDuration s)
    (lastContextUri s) (volume s) (log s).
Definition set_navigationIndex (x : Z) (s : State) : State :=
  mkState (playHistory s) (navigationHistory s) x (currentPlaylistUri s)
    (currentPlaylistTracks s) (isActive s) (skipCounter s)
    (isNativePassSkip s) (isHandlingAction s) (lastPlayedByUsUri s)
    (savedVolume s) (smoothSkipMuted s) (lastProgress s) (lastDuration s)
    (lastContextUri s) (volume s) (log s).
Definition set_currentPlaylistUri (x : option string) (s : State) : State :=
  mkState (playHistory s) (navigationHistory s) (navigationIndex s) x
    (currentPlaylistTracks s) (isActive s) (skipCounter s)
    (isNativePassSkip s) (isHandlingAction s) (lastPlayedByUsUri s)
    (savedVolume s) (smoothSkipMuted s) (lastProgress s) (lastDuration s)
    (lastContextUri s) (volume s) (log s).
Definition set_currentPlaylistTracks (x : option (list Track)) (s : State) : State :=
  mkState (playHistory s) (navigationHistory s) (navigationIndex s)
    (currentPlaylistUri s) x (isActive s) (skipCounter s)
    (isNativePassSkip s) (isHandlingAction s) (lastPlayedByUsUri s)
    (savedVolume s) (smoothSkipMuted s) (lastProgress s) (lastDuration s)
    (lastContextUri s) (volume s) (log s).
Definition set_isActive (x : bool) (s : State) : State :=
  mkState (playHistory s) (navigationHistory s) (navigationIndex s)
    (currentPlaylistUri s) (currentPlaylistTracks s) x (skipCounter s)
    (isNativePassSkip s) (isHandlingAction s) (lastPlayedByUsUri s)
    (savedVolume s) (smoothSkipMuted s) (lastProgress s) (lastDuration s)
    (lastContextUri s) (volume s) (log s).
Definition set_skipCounter (x : nat) (s : State) : State :=
  mkState (playHistory s) (navigationHistory s) (navigationIndex s)
    (currentPlaylistUri s) (currentPlaylistTracks s) (isActive s) x
    (isNativePassSkip s) (isHandlingAction s) (lastPlayedByUsUri s)
    (savedVolume s) (smoothSkipMuted s) (lastProgress s) (lastDuration s)
    (lastContextUri s) (volume s) (log s).
Definition set_isNativePassSkip (x : bool) (s : State) : State :=
  mkState (playHistory s) (navigationHistory s) (navigationIndex s)
    (currentPlaylistUri s) (currentPlaylistTracks s) (isActive s)
    (skipCounter s) x (isHandlingAction s) (lastPlayedByUsUri s)
    (savedVolume s) (smoothSkipMuted s) (lastProgress s) (lastDuration s)
    (lastContextUri s) (volume s) (log s).
Definition set_isHandlingAction (x : bool) (s : State) : State :=
  mkState (playHistory s) (navigationHistory s) (navigationIndex s)
    (currentPlaylistUri s) (currentPlaylistTracks s) (isActive s)
    (skipCounter s) (isNativePassSkip s) x (lastPlayedByUsUri s)
    (savedVolume s) (smoothSkipMuted s) (lastProgress s) (lastDuration s)
    (lastContextUri s) (volume s) (log s).
Definition set_lastPlayedByUsUri (x : option string) (s : State) : State :=
  mkState (playHistory s) (navigationHistory s) (navigationIndex s)
    (currentPlaylistUri s) (currentPlaylistTracks s) (isActive s)
    (skipCounter s) (isNativePassSkip s) (isHandlingAction s) x
    (savedVolume s) (smoothSkipMuted s) (lastProgress s) (lastDuration s)
    (lastContextUri s) (volume s) (log s).
Definition set_savedVolume (x : option float) (s : State) : State :=
  mkState (playHistory s) (navigationHistory s) (navigationIndex s)
    (currentPlaylistUri s) (currentPlaylistTracks s) (isActive s)
    (skipCounter s) (isNativePassSkip s) (isHandlingAction s)
    (lastPlayedByUsUri s) x (smoothSkipMuted s) (lastProgress s)
    (lastDuration s) (lastContextUri s) (volume s) (log s).
Definition set_smoothSkipMuted (x : bool) (s : State) : State :=
  mkState (playHistory s) (navigationHistory s) (navigationIndex s)
    (currentPlaylistUri s) (currentPlaylistTracks s) (isActive s)
    (skipCounter s) (isNativePassSkip s) (isHandlingAction s)
    (lastPlayedByUsUri s) (savedVolume s) x (lastProgress s)
    (lastDuration s) (lastContextUri s) (volume s) (log s).
Definition set_lastProgress (x : Z) (s : State) : State :=
  mkState (playHistory s) (navigationHistory s) (navigationIndex s)
    (currentPlaylistUri s) (currentPlaylistTracks s) (isActive s)
    (skipCounter s) (isNativePassSkip s) (isHandlingAction s)
    (lastPlayedByUsUri s) (savedVolume s) (smoothSkipMuted s) x
    (lastDuration s) (lastContextUri s) (volume s) (log s).
Definition set_lastDuration (x : Z) (s : State) : State :=
  mkState (playHistory s) (navigationHistory s) (navigationIndex s)
    (currentPlaylistUri s) (currentPlaylistTracks s) (isActive s)
    (skipCounter s) (isNativePassSkip s) (isHandlingAction s)
    (lastPlayedByUsUri s) (savedVolume s) (smoothSkipMuted s)
    (lastProgress s) x (lastContextUri s) (volume s) (log s).
Definition set_lastContextUri (x : option string) (s : State) : State :=
  mkState (playHistory s) (navigationHistory s) (navigationIndex s)
    (currentPlaylistUri s) (currentPlaylistTracks s) (isActive s)
    (skipCounter s) (isNativePassSkip s) (isHandlingAction s)
    (lastPlayedByUsUri s) (savedVolume s) (smoothSkipMuted s)
    (lastProgress s) (lastDuration s) x (volume s) (log s).
Definition set_volume (x : float) (s : State) : State :=
  mkState (playHistory s) (navigationHistory s) (navigationIndex s)
    (currentPlaylistUri s) (currentPlaylistTracks s) (isActive s)
    (skipCounter s) (isNativePassSkip s) (isHandlingAction s)
    (lastPlayedByUsUri s) (savedVolume s) (smoothSkipMuted s)
    (lastProgress s) (lastDuration s) (lastContextUri s) x (log s).
Definition set_log (x : list Command) (s : State) : State :=
  mkState (playHistory s) (navigationHistory s) (navigationIndex s)
    (currentPlaylistUri s) (currentPlaylistTracks s) (isActive s)
    (skipCounter s) (isNativePassSkip s) (isHandlingAction s)
    (lastPlayedByUsUri s) (savedVolume s) (smoothSkipMuted s)
    (lastProgress s) (lastDuration s) (lastContextUri s) (volume s) x.

(** [Spicetify.Player.setVolume(v)]. *)
Definition setVolume (v : float) (s : State) : State :=
  set_log (log s ++ [SetVolume v]) (set_volume v s).

(** Any other request to the host. *)
Definition emit (c : Command) (s : State) : State :=
  set_log (log s ++ [c]) s.

(** A handler suspended at a promise of the host, with what it needs to go
    on.  The outcome [ok] of a play command is fixed when the command is
    issued (it is logged with the command) and acted on when the handler
    resumes. *)
Inductive Suspended :=
  | LoadingPlaylist (contextUri : string)
      (* handleSkipForward, inside ensurePlaylistLoaded, at getContents *)
  | ReplayingForward (ok : bool)
      (* handleSkipForward at the play of the next navigation entry *)
  | Picking (left call attempt : nat) (nextTrack : Track) (ok : bool)
      (* the True Shuffle loop at the play of its pick; [left] attempts are
         left, [call] and [attempt] number the next play command and
         Math.random() *)
  | SteppingBack (ok : bool)
      (* handleSkipBack at its play *)
  | Preloading (contextUri : string).
      (* the pre-load of a context change, at getContents *)

(** The running extension: the closure's variables, the timers that are
    armed and the handlers that are suspended. *)
Record Machine := mkMachine {
  vars : State;
  armed : list Timer;
  awaiting : list Suspended
}.

(** Start-up: nothing armed, nothing suspended. *)
Definition boot (v : float) : Machine :=
  {| vars := initial_state v; armed := []; awaiting := [] |}.

(** ** Vocabulary of the properties *)

(** The track identities of the first [window] entries of a history. *)
Definition recentWindow (window : nat) (history : list HistoryEntry)
  : list string :=
  h_uri <$> take window history.

(** The cursor is an index into the navigation history, or -1 when that is
    empty. *)
Definition nav_ok (s : State) : Prop :=
  (navigationHistory s = [] /\ navigationIndex s = -1) \/
  (0 <= navigationIndex s < Z.of_nat (length (navigationHistory s))).

(** Two states with the same navigation history and cursor. *)
Definition same_nav (s s' : State) : Prop :=
  navigationHistory s' = navigationHistory s /\
  navigationIndex s' = navigationIndex s.

(** A muted player has a volume to go back to. *)
Definition mute_inv (s : State) : Prop :=
  smoothSkipMuted s = true -> is_Some (savedVolume s).

(** Two states with the same mute bookkeeping. *)
Definition same_mute (s s' : State) : Prop :=
  smoothSkipMuted s' = smoothSkipMuted s /\ savedVolume s' = savedVolume s.

(** Two states that agree on the playlist cache, the skip counter, the
    toggle, the two guards and what was last sampled or observed. *)
Definition same_rest (s s' : State) : Prop :=
  currentPlaylistUri s' = currentPlaylistUri s /\
  currentPlaylistTracks s' = currentPlaylistTracks s /\
  isActive s' = isActive s /\
  skipCounter s' = skipCounter s /\
  isNativePassSkip s' = isNativePassSkip s /\
  isHandlingAction s' = isHandlingAction s /\
  lastProgress s' = lastProgress s /\
  lastDuration s' = lastDuration s /\
  lastContextUri s' = lastContextUri s.

(** Two states that agree on everything a play command leaves alone: all but
    the volume, the mute bookkeeping, [lastPlayedByUsUri] and the log. *)
Definition same_session (s s' : State) : Prop :=
  playHistory s' = playHistory s /\ same_nav s s' /\ same_rest s s'.

(** What a held guard keeps from [s] to [s']: the guard itself, both
    histories, the skip counter and the pending-native flag, with no play
    command logged in between. *)
Definition held_same (s s' : State) : Prop :=
  isHandlingAction s' = true /\
  playHistory s' = playHistory s /\
  same_nav s s' /\
  skipCounter s' = skipCounter s /\
  isNativePassSkip s' = isNativePassSkip s /\
  exists new,
    log s' = log s ++ new /\
    omap (fun c => match c with Play _ u ok => Some (u, ok) | _ => None end)
      new = [].

(** The track the host reports has an identity, and that identity is among
    the first [window] entries of [history]. *)
Definition repeats_recent (window : nat) (history : list HistoryEntry)
    (env : Env) : Prop :=
  exists item u,
    data_item env = Some item /\ item_uri item = Some u /\
    truthy (Some u) = true /\ u ∈ recentWindow window history.

(** A stretch of log in which the volume changes only right after a play
    command, or to 0 right before a native skip is armed. *)
Inductive quiet : list Command -> Prop :=
  | quiet_nil : quiet []
  | quiet_restore ctx u ok v l :
      quiet l -> quiet (Play ctx u ok :: SetVolume v :: l)
  | quiet_native l :
      quiet l -> quiet (SetVolume 0 :: SetTimeout NativeSkip 50 :: l)
  | quiet_other c l :
      (forall v, c <> SetVolume v) -> quiet l -> quiet (c :: l).

(** The suspended handlers that await a play command of their own. *)
Definition awaits_play (k : Suspended) : bool :=
  match k with
  | ReplayingForward _ | Picking _ _ _ _ _ | SteppingBack _ => true
  | LoadingPlaylist _ | Preloading _ => false
  end.

(** The timers a log arms. *)
Definition timers (l : list Command) : list Timer :=
  omap (fun c => match c with SetTimeout t _ => Some t | _ => None end) l.

(** The play commands of a log: the track asked for and whether it started. *)
Definition plays (l : list Command) : list (option string * bool) :=
  omap (fun c => match c with Play _ u ok => Some (u, ok) | _ => None end) l.

(** The history entry of a failed attempt at a track. *)
Definition failed_entry (t : Track) : HistoryEntry :=
  {| h_uri := uri t; h_artistUri := artistUri t |}.

(** ** Concrete hosts and states

    Inputs at which the handlers are evaluated further down. *)

(** A stand-in for [Math.exp]: (1 + x/1024)^1024. *)
Definition Math_exp_approx (x : float) : float :=
  let sq (y : float) := (y * y)%float in
  sq (sq (sq (sq (sq (sq (sq (sq (sq (sq (1 + x / 1024)%float))))))))).

(** Track number [n] of a playlist; three consecutive tracks share an
    artist. *)
Definition track_of (n : nat) : Track :=
  {| uri := "spotify:track:" ++ pretty n;
     artistUri := Some ("spotify:artist:" ++ pretty (n / 3)%nat)%string;
     name := pretty n;
     artistName := pretty (n / 3)%nat |}.

Definition entry_of (n : nat) : HistoryEntry :=
  {| h_uri := "spotify:track:" ++ pretty n;
     h_artistUri := Some ("spotify:artist:" ++ pretty (n / 3)%nat)%string |}.

(** The host while track [n] of playlist P plays with shuffle on; every
    [Math.random()] answers 0 and play commands resolve as [outcome] says. *)
Definition playing (n : nat) (outcome : nat -> bool) : Env :=
  {| data_item :=
       Some {| item_uri := Some (uri (track_of n));
               item_artist_uri := artistUri (track_of n) |};
     data_context_uri := Some "spotify:playlist:P";
     getShuffle := true;
     getContents := fun _ => None;
     playOutcome := outcome;
     Math_random := fun _ => 0%float |}.

(** The [CONFIG] of the source with a no-repeat window of two tracks. *)
Definition window_2_CONFIG : Config :=
  {| HISTORY_SIZE := 500;
     NO_REPEAT_WINDOW := 2;
     MIN_WEIGHT := MIN_WEIGHT default_CONFIG;
     RECENCY_DECAY_RATE := RECENCY_DECAY_RATE default_CONFIG;
     ARTIST_PENALTY := ARTIST_PENALTY default_CONFIG;
     ARTIST_SPACING := 2;
     TRUE_SHUFFLE_EVERY := 3 |}.

(** Playlist P of [size] tracks is loaded, tracks [0 .. played-1] are the
    play history (0 the most recent), the navigation history is [nav] with the
    cursor at [cursor], two skips have gone to the native player, the volume
    is one half. *)
Definition session (size played : nat) (nav : list string) (cursor : Z)
  : State :=
  {| playHistory := entry_of <$> seq 0 played;
     navigationHistory := nav;
     navigationIndex := cursor;
     currentPlaylistUri := Some "spotify:playlist:P";
     currentPlaylistTracks := Some (track_of <$> seq 0 size);
     isActive := true;
     skipCounter := 2;
     isNativePassSkip := false;
     isHandlingAction := false;
     lastPlayedByUsUri := None;
     savedVolume := None;
     smoothSkipMuted := false;
     lastProgress := 0;
     lastDuration := 0;
     lastContextUri := Some "spotify:playlist:P";
     volume := 0.5%float;
     log := [] |}.

(** Track 0 is the only navigation entry. *)
Definition listening (size played : nat) : State :=
  session size played ["spotify:track:0"] 0.

(** A navigation history of five tracks with the cursor on the third. *)
Definition stepped_back : State :=
  session 6 5
    ["spotify:track:0"; "spotify:track:1"; "spotify:track:2";
     "spotify:track:3"; "spotify:track:4"] 2.

(** The same session, muted by a native pass-through that awaits its
    track-changed event. *)
Definition awaiting_native_pick : State :=
  {| playHistory := entry_of <$> seq 0 3;
     navigationHistory := ["spotify:track:0"];
     navigationIndex := 0;
     currentPlaylistUri := Some "spotify:playlist:P";
     currentPlaylistTracks := Some (track_of <$> seq 0 6);
     isActive := true;
     skipCounter := 1;
     isNativePassSkip := true;
     isHandlingAction := false;
     lastPlayedByUsUri := None;
     savedVolume := Some 0.5%float;
     smoothSkipMuted := true;
     lastProgress := 0;
     lastDuration := 0;
     lastContextUri := Some "spotify:playlist:P";
     volume := 0%float;
     log := [SetVolume 0; SetTimeout NativeSkip 50;
             SetTimeout GuardRelease 1500] |}.

(** The host while track [n] of another playlist, Q, plays with shuffle
    on. *)
Definition playing_in_Q (n : nat) : Env :=
  {| data_item :=
       Some {| item_uri := Some (uri (track_of n));
               item_artist_uri := artistUri (track_of n) |};
     data_context_uri := Some "spotify:playlist:Q";
     getShuffle := true;
     getContents := fun _ => None;
     playOutcome := fun _ => true;
     Math_random := fun _ => 0%float |}.

(** The host while track [n] of playlist P plays with shuffle off. *)
Definition shuffle_off (n : nat) : Env :=
  {| data_item :=
       Some {| item_uri := Some (uri (track_of n));
               item_artist_uri := artistUri (track_of n) |};
     data_context_uri := Some "spotify:playlist:P";
     getShuffle := false;
     getContents := fun _ => None;
     playOutcome := fun _ => true;
     Math_random := fun _ => 0%float |}.

(** Three playlist items: a track, an episode and a track marked
    unplayable. *)
Definition mixed_items : list PlaylistItem :=
  [ {| p_uri := Some "spotify:track:0"; p_type := "track";
       p_isPlayable := None; p_artist0_uri := Some "spotify:artist:0";
       p_name := Some "0"; p_artist0_name := Some "0" |};
    {| p_uri := Some "spotify:episode:1"; p_type := "episode";
       p_isPlayable := Some true; p_artist0_uri := None;
       p_name := Some "1"; p_artist0_name := None |};
    {| p_uri := Some "spotify:track:2"; p_type := "track";
       p_isPlayable := Some false; p_artist0_uri := Some "spotify:artist:0";
       p_name := Some "2"; p_artist0_name := Some "0" |} ].

(** A host whose playlists all hold [items]. *)
Definition delivering (items : list PlaylistItem) : Env :=
  {| data_item := None;
     data_context_uri := Some "spotify:playlist:P";
     getShuffle := true;
     getContents := fun _ => Some items;
     playOutcome := fun _ => true;
     Math_random := fun _ => 0%float |}.

(** The item of a playlist that [track_of n] is loaded from. *)
Definition item_of (n : nat) : PlaylistItem :=
  {| p_uri := Some (uri (track_of n));
     p_type := "track";
     p_isPlayable := Some true;
     p_artist0_uri := artistUri (track_of n);
     p_name := Some (name (track_of n));
     p_artist0_name := Some (artistName (track_of n)) |}.

(** The host while track [n] plays in context [ctx] with shuffle on; every
    playlist holds tracks 0 to 5, every [Math.random()] answers 0 and play
    commands resolve as [outcome] says. *)
Definition hosting (ctx : string) (n : nat) (outcome : nat -> bool) : Env :=
  {| data_item :=
       Some {| item_uri := Some (uri (track_of n));
               item_artist_uri := artistUri (track_of n) |};
     data_context_uri := Some ctx;
     getShuffle := true;
     getContents := fun _ => Some (item_of <$> seq 0 6);
     playOutcome := outcome;
     Math_random := fun _ => 0%float |}.

(** The session of [listening], sampled one second before the end of a track
    of 200 seconds. *)
Definition near_end (size played : nat) : State :=
  {| playHistory := entry_of <$> seq 0 played;
     navigationHistory := ["spotify:track:0"];
     navigationIndex := 0;
     currentPlaylistUri := Some "spotify:playlist:P";
     currentPlaylistTracks := Some (track_of <$> seq 0 size);
     isActive := true;
     skipCounter := 2;
     isNativePassSkip := false;
     isHandlingAction := false;
     lastPlayedByUsUri := None;
     savedVolume := None;
     smoothSkipMuted := false;
     lastProgress := 199000;
     lastDuration := 200000;
     lastContextUri := Some "spotify:playlist:P";
     volume := 0.5%float;
     log := [] |}.

(** ** The program *)

Section TrueShuffle.

Variable CONFIG : Config.

(** [Math.exp], which has no counterpart among the primitive floats. *)
Variable Math_exp : float -> float.

(** *** Helpers *)

Definition getContextUri (env : Env) : option string :=
  or_null (data_context_uri env).

Definition isPlaylistUri (o : option string) : bool :=
  match o with
  | Some c => bool_decide (String.prefix "spotify:playlist:" c = true)
  | None => false
  end.

Definition isInTrueShuffleMode (env : Env) (s : State) : bool :=
  isActive s && getShuffle env && isPlaylistUri (getContextUri env).

(** *** Weighted random algorithm *)

Definition calculateWeight (track : Track) (history : list HistoryEntry)
  : float :=
  let weight := 1%float in
  let recencyIndex :=
    findIndex (fun h => String.eqb (h_uri h) (uri track)) history in
  let weight :=
    if negb (recencyIndex =? -1) then
      let recencyFactor :=
        (1 - Math_exp (- RECENCY_DECAY_RATE CONFIG
                       * number_of_Z recencyIndex))%float in
      (weight * Math_max (MIN_WEIGHT CONFIG) recencyFactor)%float
    else weight in
  let recentArtists :=
    map h_artistUri
      (slice history 0 (Some (Z.of_nat (ARTIST_SPACING CONFIG)))) in
  let weight :=
    if truthy (artistUri track)
       && bool_decide (artistUri track ∈ recentArtists)
    then (weight * ARTIST_PENALTY CONFIG)%float
    else weight in
  Math_max (MIN_WEIGHT CONFIG) weight.

(** The [for ... of weighted] loop: the first track at which the running
    value goes non-positive, if any. *)
Fixpoint draw (weighted : list (Track * float)) (random : float)
  : option Track :=
  match weighted with
  | [] => None
  | (track, weight) :: rest =>
      let random := (random - weight)%float in
      if PrimFloat.leb random 0 then Some track else draw rest random
  end.

(** [pickNextTrack(tracks, history)], with the value [rnd] of its
    [Math.random()].  [None] is [null]. *)
Definition pickNextTrack (tracks : option (list Track))
    (history : list HistoryEntry) (rnd : float) : option Track :=
  match tracks with
  | None => None
  | Some [] => None
  | Some [t] => Some t
  | Some tracks =>
      let recentUris : gset string :=
        list_to_set
          (map h_uri
             (slice history 0 (Some (Z.of_nat (NO_REPEAT_WINDOW CONFIG))))) in
      let candidates := filter (fun t => uri t ∉ recentUris) tracks in
      let candidates :=
        if (length candidates =? 0)%nat then tracks else candidates in
      let weighted :=
        map (fun track => (track, calculateWeight track history)) candidates in
      let totalWeight :=
        foldl (fun sum w => (sum + w.2)%float) 0%float weighted in
      let random := (rnd * totalWeight)%float in
      match draw weighted random with
      | Some track => Some track
      | None => fst <$> last weighted
      end
  end.

(** *** Playlist loading *)

Definition loadPlaylistTracks (env : Env) (contextUri : option string)
  : option (list Track) :=
  match contextUri with
  | None => None
  | Some c =>
      if negb (isPlaylistUri contextUri) then None
      else
        match getContents env c with
        | None => None
        | Some items =>
            Some
              (omap
                 (fun item =>
                    match p_uri item with
                    | Some u =>
                        if negb (truthy (p_uri item))
                           || negb (String.eqb (p_type item) "track") then None
                        else if bool_decide (p_isPlayable item = Some false)
                        then None
                        else
                          Some
                            {| uri := u;
                               artistUri := or_null (p_artist0_uri item);
                               name := or_default (p_name item) "Unknown";
                               artistName :=
                                 or_default (p_artist0_name item) "Unknown" |}
                    | None => None
                    end)
                 items)
        end
  end.

Definition ensurePlaylistLoaded (env : Env) (s : State) : bool * State :=
  let contextUri := getContextUri env in
  if negb (truthy contextUri) then (false, s)
  else
    let s :=
      if negb (bool_decide (contextUri = currentPlaylistUri s))
         || negb (bool_decide (is_Some (currentPlaylistTracks s)))
      then
        set_currentPlaylistTracks (loadPlaylistTracks env contextUri)
          (set_currentPlaylistUri contextUri s)
      else s in
    (match currentPlaylistTracks s with
     | Some tracks => (0 <? length tracks)%nat
     | None => false
     end, s).

(** *** History management *)

Definition recordCurrentTrack (env : Env) (s : State) : State :=
  match data_item env with
  | None => s
  | Some currentTrack =>
      match item_uri currentTrack with
      | None => s
      | Some u =>
          if negb (truthy (Some u)) then s
          else
            let artistUri := or_null (item_artist_uri currentTrack) in
            let s :=
              set_playHistory
                (filter (fun h => h_uri h ≠ u) (playHistory s)) s in
            let s :=
              set_playHistory
                ({| h_uri := u; h_artistUri := artistUri |} :: playHistory s)
                s in
            if (HISTORY_SIZE CONFIG <? length (playHistory s))%nat then
              set_playHistory
                (slice (playHistory s) 0
                   (Some (Z.of_nat (HISTORY_SIZE CONFIG)))) s
            else s
      end
  end.

Definition pushToNavigation (uri : option string) (s : State) : State :=
  match uri with
  | None => s
  | Some u =>
      if negb (truthy uri) then s
      else
        let s :=
          if navigationIndex s <? Z.of_nat (length (navigationHistory s)) - 1
          then
            set_navigationHistory
              (slice (navigationHistory s) 0 (Some (navigationIndex s + 1))) s
          else s in
        let s := set_navigationHistory (navigationHistory s ++ [u]) s in
        let s :=
          set_navigationIndex (Z.of_nat (length (navigationHistory s)) - 1) s in
        if (HISTORY_SIZE CONFIG <? length (navigationHistory s))%nat then
          let s :=
            set_navigationHistory
              (slice (navigationHistory s)
                 (Z.of_nat (length (navigationHistory s))
                  - Z.of_nat (HISTORY_SIZE CONFIG)) None) s in
          set_navigationIndex (Z.of_nat (length (navigationHistory s)) - 1) s
        else s
  end.

(** *** Playing a track, muting and restoring *)

Definition restoreVolume (s : State) : State :=
  match savedVolume s with
  | Some v =>
      if smoothSkipMuted s then
        set_savedVolume None (set_smoothSkipMuted false (setVolume v s))
      else s
  | None => s
  end.

Definition muteForSkip (s : State) : State :=
  let s :=
    if negb (smoothSkipMuted s) then
      set_smoothSkipMuted true (set_savedVolume (Some (volume s)) s)
    else s in
  setVolume 0%float s.

(** [playTrackInContext(trackUri)]; [ok] tells whether the awaited
    [PlayerAPI.play] resolves ([true]) or rejects ([false]). *)
Definition playTrackInContext (env : Env) (trackUri : option string)
    (ok : bool) (s : State) : bool * State :=
  match getContextUri env with
  | None => (false, s)
  | Some contextUri =>
      let s := set_lastPlayedByUsUri trackUri s in
      let s := emit (Play contextUri trackUri ok) s in
      if ok then (true, restoreVolume s)
      else (false, restoreVolume (set_lastPlayedByUsUri None s))
  end.

(** *** Core actions *)

(** The [finally] block of both handlers. *)
Definition release_guard_later (s : State) : State :=
  emit (SetTimeout GuardRelease 1500) s.

(** "If we're in the middle of nav history, go forward": the first [if] of
    [handleSkipForward].  Returns whether the handler returns here, how many
    play commands were issued, and the state. *)
Definition replayForward (env : Env) (s : State) : bool * nat * State :=
  if navigationIndex s <? Z.of_nat (length (navigationHistory s)) - 1 then
    let s := set_navigationIndex (navigationIndex s + 1) s in
    let nextUri := at_index (navigationHistory s) (navigationIndex s) in
    let '(ok, s) := playTrackInContext env nextUri (playOutcome env 0) s in
    if negb ok then (false, 1%nat, set_navigationIndex (navigationIndex s - 1) s)
    else (true, 1%nat, s)
  else (false, 0%nat, s).

(** The native pass-through branch. *)
Definition nativePassThrough (s : State) : State :=
  let s := set_isNativePassSkip true s in
  let s := set_isHandlingAction false s in
  let s := muteForSkip s in
  emit (SetTimeout NativeSkip 50) s.

(** The True Shuffle loop with [n] attempts left; [call] numbers the next
    play command and [attempt] the next [Math.random()]. *)
Fixpoint trueShufflePick (n : nat) (call attempt : nat) (env : Env)
    (s : State) : State :=
  match n with
  | O => s
  | S n' =>
      match
        pickNextTrack (currentPlaylistTracks s) (playHistory s)
          (Math_random env attempt)
      with
      | None => s
      | Some nextTrack =>
          let '(ok, s) :=
            playTrackInContext env (Some (uri nextTrack))
              (playOutcome env call) s in
          if ok then pushToNavigation (Some (uri nextTrack)) s
          else
            let s :=
              set_playHistory
                ({| h_uri := uri nextTrack;
                    h_artistUri := artistUri nextTrack |} :: playHistory s)
                s in
            trueShufflePick n' (S call) (S attempt) env s
      end
  end.

(** The [try] block of [handleSkipForward]. *)
Definition skipForward_body (env : Env) (s : State) : State :=
  let '(loaded, s) := ensurePlaylistLoaded env s in
  if negb loaded then s
  else
    let s := recordCurrentTrack env s in
    let '(done, calls, s) := replayForward env s in
    if done then s
    else
      let s := set_skipCounter (S (skipCounter s)) s in
      if negb (skipCounter s mod TRUE_SHUFFLE_EVERY CONFIG =? 0)%nat then
        nativePassThrough s
      else trueShufflePick 3 calls 0 env s.

Definition handleSkipForward (env : Env) (s : State) : State :=
  if isHandlingAction s then s
  else
    let s := set_isHandlingAction true s in
    release_guard_later (skipForward_body env s).

Definition handleSkipBack (env : Env) (s : State) : State :=
  if isHandlingAction s then s
  else
    let s := set_isHandlingAction true s in
    let s :=
      if 0 <? navigationIndex s then
        let s := set_navigationIndex (navigationIndex s - 1) s in
        let prevUri := at_index (navigationHistory s) (navigationIndex s) in
        (playTrackInContext env prevUri (playOutcome env 0) s).2
      else emit (Seek 0) s in
    release_guard_later s.

(** *** The patched skip entry points *)

Definition Player_next (env : Env) (s : State) : State :=
  if isInTrueShuffleMode env s then handleSkipForward env (muteForSkip s)
  else emit OrigPlayerNext s.

Definition Player_back (env : Env) (s : State) : State :=
  if isInTrueShuffleMode env s then handleSkipBack env s
  else emit OrigPlayerBack s.

Definition PlayerAPI_skipToNext (env : Env) (s : State) : State :=
  if isHandlingAction s then s
  else if isInTrueShuffleMode env s then handleSkipForward env (muteForSkip s)
  else emit OrigSkipToNext s.

Definition PlayerAPI_skipToPrevious (env : Env) (s : State) : State :=
  if isHandlingAction s then s
  else if isInTrueShuffleMode env s then handleSkipBack env s
  else emit OrigSkipToPrevious s.

(** *** The songchange listener *)

(** The [if (isNativePassSkip)] block. *)
Definition validateNativePick (env : Env) (currentUri : option string)
    (s : State) : State :=
  let s := set_isNativePassSkip false s in
  match currentUri with
  | None => s
  | Some u =>
      if negb (truthy currentUri) then s
      else
        let recentUris : gset string :=
          list_to_set
            (map h_uri
               (slice (playHistory s) 0
                  (Some (Z.of_nat (NO_REPEAT_WINDOW CONFIG))))) in
        if bool_decide (u ∈ recentUris) then
          let s := set_isNativePassSkip true s in
          let s := muteForSkip s in
          emit (SetTimeout NativeSkip 50) s
        else
          let s := pushToNavigation currentUri s in
          let s := recordCurrentTrack env s in
          restoreVolume s
  end.

(** The "context change" block.  The pre-load it starts resolves later, as
    the event [PreloadResolved] below. *)
Definition contextChanged (contextUri currentUri : option string)
    (s : State) : State :=
  let s := set_lastContextUri contextUri s in
  let s := set_currentPlaylistUri None s in
  let s := set_currentPlaylistTracks None s in
  let s := set_skipCounter 0%nat s in
  let s := set_playHistory [] s in
  let s := set_navigationHistory [] s in
  let s := set_navigationIndex (-1) s in
  if truthy currentUri then pushToNavigation currentUri s else s.

Definition songchange (env : Env) (s : State) : State :=
  let currentUri := data_item env ≫= item_uri in
  let contextUri := getContextUri env in
  if isHandlingAction s then s
  else if isNativePassSkip s then validateNativePick env currentUri s
  else if truthy currentUri
          && bool_decide (currentUri = lastPlayedByUsUri s)
  then set_lastPlayedByUsUri None s
  else if negb (bool_decide (contextUri = lastContextUri s))
  then contextChanged contextUri currentUri s
  else if negb (isInTrueShuffleMode env s) then s
  else
    let wasNearEnd :=
      (0 <? lastDuration s) && (lastDuration s - lastProgress s <? 5000) in
    if wasNearEnd then handleSkipForward env s else s.

(** *** Events *)

Inductive Event :=
  | NextPressed                 (* Spicetify.Player.next() *)
  | BackPressed                 (* Spicetify.Player.back() *)
  | SkipToNextCalled            (* Spicetify.Platform.PlayerAPI.skipToNext() *)
  | SkipToPreviousCalled        (* ...PlayerAPI.skipToPrevious() *)
  | SongChange                  (* the "songchange" event *)
  | GuardReleaseFired           (* a GuardRelease timer fires *)
  | NativeSkipFired             (* a NativeSkip timer fires *)
  | ProgressSampled (progress duration : Z)   (* the setInterval callback *)
  | PreloadResolved (contextUri : option string)
                                (* the pre-load promise of a context change *)
  | TopbarClicked.

Definition step (env : Env) (ev : Event) (s : State) : State :=
  match ev with
  | NextPressed => Player_next env s
  | BackPressed => Player_back env s
  | SkipToNextCalled => PlayerAPI_skipToNext env s
  | SkipToPreviousCalled => PlayerAPI_skipToPrevious env s
  | SongChange => songchange env s
  | GuardReleaseFired => set_isHandlingAction false s
  | NativeSkipFired => emit OrigSkipToNext s
  | ProgressSampled progress duration =>
      set_lastDuration duration (set_lastProgress progress s)
  | PreloadResolved contextUri =>
      match loadPlaylistTracks env contextUri with
      | Some tracks =>
          set_currentPlaylistTracks (Some tracks)
            (set_currentPlaylistUri contextUri s)
      | None => s
      end
  | TopbarClicked =>
      let s := set_isActive (negb (isActive s)) s in
      emit
        (ShowNotification
           (if isActive s then "True Shuffle enabled"
            else "True Shuffle disabled")) s
  end.

(** A sequential run of the extension: each event with what the host answers
    during it.  Every handler runs to its end before the next event, its
    awaits settled at once; [exec], below, is the event loop in which they
    are not. *)
Definition run (trace : list (Env * Event)) (s : State) : State :=
  foldl (fun s '(env, ev) => step env ev s) s trace.

(** *** Interleaved execution

    [PlayerAPI.play] and [PlaylistAPI.getContents] return promises that the
    host settles in a later task.  Until then the handler that awaits one is
    suspended, and events, timers and other resumptions run in between.  The
    handlers are given once more below, cut at these two awaits.  An await on
    a value that is already there (a cache hit, a play refused for want of a
    context) only yields to the microtask queue, where nothing else waits,
    and is no cut. *)

(** [playTrackInContext] up to its await: [None] when it returns false
    without a play command. *)
Definition play_issue (env : Env) (trackUri : option string) (ok : bool)
    (s : State) : option State :=
  match getContextUri env with
  | None => None
  | Some contextUri =>
      let s := set_lastPlayedByUsUri trackUri s in
      Some (emit (Play contextUri trackUri ok) s)
  end.

(** [playTrackInContext] after its await. *)
Definition play_settled (ok : bool) (s : State) : State :=
  if ok then restoreVolume s
  else restoreVolume (set_lastPlayedByUsUri None s).

(** A handler ends: its [finally] block runs and nothing is awaited. *)
Definition finish (s : State) : State * option Suspended :=
  (release_guard_later s, None).

(** The True Shuffle loop up to its next await. *)
Fixpoint pick_from (n : nat) (call attempt : nat) (env : Env) (s : State)
  : State * option Suspended :=
  match n with
  | O => finish s
  | S n' =>
      match
        pickNextTrack (currentPlaylistTracks s) (playHistory s)
          (Math_random env attempt)
      with
      | None => finish s
      | Some nextTrack =>
          match
            play_issue env (Some (uri nextTrack)) (playOutcome env call) s
          with
          | Some s =>
              (s, Some (Picking n' (S call) (S attempt) nextTrack
                          (playOutcome env call)))
          | None =>
              let s :=
                set_playHistory
                  ({| h_uri := uri nextTrack;
                      h_artistUri := artistUri nextTrack |} :: playHistory s)
                  s in
              pick_from n' (S call) (S attempt) env s
          end
      end
  end.

(** [handleSkipForward] from "skipCounter++" to its next await. *)
Definition cadence_from (calls : nat) (env : Env) (s : State)
  : State * option Suspended :=
  let s := set_skipCounter (S (skipCounter s)) s in
  if negb (skipCounter s mod TRUE_SHUFFLE_EVERY CONFIG =? 0)%nat then
    finish (nativePassThrough s)
  else pick_from 3 calls 0 env s.

(** [handleSkipForward] from the return of [ensurePlaylistLoaded] to its
    next await. *)
Definition after_load (env : Env) (s : State) : State * option Suspended :=
  let loaded :=
    match currentPlaylistTracks s with
    | Some tracks => (0 <? length tracks)%nat
    | None => false
    end in
  if negb loaded then finish s
  else
    let s := recordCurrentTrack env s in
    if navigationIndex s <? Z.of_nat (length (navigationHistory s)) - 1 then
      let s := set_navigationIndex (navigationIndex s + 1) s in
      let nextUri := at_index (navigationHistory s) (navigationIndex s) in
      match play_issue env nextUri (playOutcome env 0) s with
      | Some s => (s, Some (ReplayingForward (playOutcome env 0)))
      | None => cadence_from 1 env (set_navigationIndex (navigationIndex s - 1) s)
      end
    else cadence_from 0 env s.

(** [handleSkipForward] up to its first await. *)
Definition handleSkipForward_start (env : Env) (s : State)
  : State * option Suspended :=
  if isHandlingAction s then (s, None)
  else
    let s := set_isHandlingAction true s in
    let contextUri := getContextUri env in
    if negb (truthy contextUri) then finish s
    else if negb (bool_decide (contextUri = currentPlaylistUri s))
            || negb (bool_decide (is_Some (currentPlaylistTracks s)))
    then
      let s := set_currentPlaylistUri contextUri s in
      match contextUri with
      | Some c =>
          if isPlaylistUri contextUri then (s, Some (LoadingPlaylist c))
          else after_load env (set_currentPlaylistTracks None s)
      | None => after_load env (set_currentPlaylistTracks None s)
      end
    else after_load env s.

(** [handleSkipBack] up to its await. *)
Definition handleSkipBack_start (env : Env) (s : State)
  : State * option Suspended :=
  if isHandlingAction s then (s, None)
  else
    let s := set_isHandlingAction true s in
    if 0 <? navigationIndex s then
      let s := set_navigationIndex (navigationIndex s - 1) s in
      let prevUri := at_index (navigationHistory s) (navigationIndex s) in
      match play_issue env prevUri (playOutcome env 0) s with
      | Some s => (s, Some (SteppingBack (playOutcome env 0)))
      | None => finish s
      end
    else finish (emit (Seek 0) s).

(** The songchange listener: it awaits nothing itself, but may leave a
    pre-load or a forward skip suspended. *)
Definition songchange_start (env : Env) (s : State)
  : State * option Suspended :=
  let currentUri := data_item env ≫= item_uri in
  let contextUri := getContextUri env in
  if isHandlingAction s then (s, None)
  else if isNativePassSkip s then (validateNativePick env currentUri s, None)
  else if truthy currentUri
          && bool_decide (currentUri = lastPlayedByUsUri s)
  then (set_lastPlayedByUsUri None s, None)
  else if negb (bool_decide (contextUri = lastContextUri s))
  then
    (contextChanged contextUri currentUri s,
     match contextUri with
     | Some c => if isPlaylistUri contextUri then Some (Preloading c) else None
     | None => None
     end)
  else if negb (isInTrueShuffleMode env s) then (s, None)
  else
    let wasNearEnd :=
      (0 <? lastDuration s) && (lastDuration s - lastProgress s <? 5000) in
    if wasNearEnd then handleSkipForward_start env s else (s, None).

(** An event of the host, up to the first await of what it starts. *)
Definition begin (env : Env) (ev : Event) (s : State)
  : State * option Suspended :=
  match ev with
  | NextPressed =>
      if isInTrueShuffleMode env s
      then handleSkipForward_start env (muteForSkip s)
      else (emit OrigPlayerNext s, None)
  | BackPressed =>
      if isInTrueShuffleMode env s then handleSkipBack_start env s
      else (emit OrigPlayerBack s, None)
  | SkipToNextCalled =>
      if isHandlingAction s then (s, None)
      else if isInTrueShuffleMode env s
      then handleSkipForward_start env (muteForSkip s)
      else (emit OrigSkipToNext s, None)
  | SkipToPreviousCalled =>
      if isHandlingAction s then (s, None)
      else if isInTrueShuffleMode env s then handleSkipBack_start env s
      else (emit OrigSkipToPrevious s, None)
  | SongChange => songchange_start env s
  | _ => (step env ev s, None)
  end.

(** A suspended handler goes on, under the host as it is by then, up to its
    next await. *)
Definition resume (env : Env) (k : Suspended) (s : State)
  : State * option Suspended :=
  match k with
  | LoadingPlaylist c =>
      after_load env
        (set_currentPlaylistTracks (loadPlaylistTracks env (Some c)) s)
  | ReplayingForward ok =>
      let s := play_settled ok s in
      if negb ok then
        cadence_from 1 env (set_navigationIndex (navigationIndex s - 1) s)
      else finish s
  | Picking n call attempt nextTrack ok =>
      let s := play_settled ok s in
      if ok then finish (pushToNavigation (Some (uri nextTrack)) s)
      else
        let s :=
          set_playHistory
            ({| h_uri := uri nextTrack;
                h_artistUri := artistUri nextTrack |} :: playHistory s) s in
        pick_from n call attempt env s
  | SteppingBack ok => finish (play_settled ok s)
  | Preloading c => (step env (PreloadResolved (Some c)) s, None)
  end.

(** What happens next: the host dispatches an event or calls a patched entry
    point, the [i]-th armed timer fires, or the promise that the [i]-th
    suspended handler awaits is settled. *)
Inductive Turn :=
  | Dispatch (ev : Event)
  | Fire (i : nat)
  | Settle (i : nat).

(** The machine after a stretch of code that left the variables and perhaps
    a suspended handler [r]: the timers the stretch logged are armed. *)
Definition absorb (m : Machine) (pending : list Timer)
    (waiting : list Suspended) (r : State * option Suspended) : Machine :=
  {| vars := r.1;
     armed := pending ++ timers (drop (length (log (vars m))) (log r.1));
     awaiting := waiting ++ option_list r.2 |}.

(** One turn of the event loop; [None] when the turn cannot happen (the
    timer is not armed, no such handler is suspended, or the event is not
    the host's to dispatch). *)
Definition exec_step (env : Env) (t : Turn) (m : Machine) : option Machine :=
  match t with
  | Dispatch GuardReleaseFired => None
  | Dispatch NativeSkipFired => None
  | Dispatch (PreloadResolved _) => None
  | Dispatch ev => Some (absorb m (armed m) (awaiting m) (begin env ev (vars m)))
  | Fire i =>
      match armed m !! i with
      | Some GuardRelease =>
          Some (absorb m (delete i (armed m)) (awaiting m)
                  (step env GuardReleaseFired (vars m), None))
      | Some NativeSkip =>
          Some (absorb m (delete i (armed m)) (awaiting m)
                  (step env NativeSkipFired (vars m), None))
      | None => None
      end
  | Settle i =>
      match awaiting m !! i with
      | Some k =>
          Some (absorb m (armed m) (delete i (awaiting m))
                  (resume env k (vars m)))
      | None => None
      end
  end.

(** An execution: the turns taken, each with the host as it is at that
    turn. *)
Fixpoint exec (schedule : list (Env * Turn)) (m : Machine) : option Machine :=
  match schedule with
  | [] => Some m
  | (env, t) :: schedule =>
      match exec_step env t m with
      | Some m => exec schedule m
      | None => None
      end
  end.

(** A handler none of whose awaits is interleaved: every promise it awaits
    is settled at once, under the same host. *)
Fixpoint settle_at_once (fuel : nat) (env : Env)
    (r : State * option Suspended) : State :=
  match r.2, fuel with
  | Some k, S fuel => settle_at_once fuel env (resume env k r.1)
  | _, _ => r.1
  end.

(** The events the host dispatches of its own accord: all but the firing of
    a timer and the settling of a pre-load, which the extension has to have
    started. *)
Definition external (ev : Event) : bool :=
  match ev with
  | GuardReleaseFired | NativeSkipFired | PreloadResolved _ => false
  | _ => true
  end.

(** What the event loop keeps whatever the interleaving: the navigation
    history within HISTORY_SIZE, and a saved volume while the player is
    muted. *)
Definition steady (s : State) : Prop :=
  (length (navigationHistory s) <= HISTORY_SIZE CONFIG)%nat /\ mute_inv s.

(** *** A guard released by the timer of an earlier handler

    From start-up, in playlist P.  The first forward skip is a native
    pass-through: it frees the guard at once and still arms its guard
    release, 1500 ms ahead.  Within that time the native pick is accepted
    and a back skip runs to its end, arming a guard release of its own.  The
    first timer then frees the guard that the back skip holds, so that the
    next forward skip is let in; it steps the cursor forward and awaits its
    play command.  While it waits the back skip's timer frees the guard once
    more, the user moves to playlist Q, and the track-changed event resets
    the navigation history.  Then the play command is rejected and the
    handler goes on. *)
Definition stale_guard_release : list (Env * Turn) :=
  let P := "spotify:playlist:P" in
  let Q := "spotify:playlist:Q" in
  [ (hosting P 0 (fun _ => true), Dispatch SongChange);
      (* track 0 starts in P: context change, pre-load *)
    (hosting P 0 (fun _ => true), Settle 0);
      (* the pre-load delivers P *)
    (hosting P 0 (fun _ => true), Dispatch NextPressed);
      (* skip 1: native pass-through *)
    (hosting P 0 (fun _ => true), Fire 0);
      (* the native skip, 50 ms later *)
    (hosting P 1 (fun _ => true), Dispatch SongChange);
      (* the native pick, track 1, is accepted *)
    (hosting P 1 (fun _ => true), Dispatch BackPressed);
      (* back to track 0 *)
    (hosting P 0 (fun _ => true), Settle 0);
      (* its play command resolves; the handler ends *)
    (hosting P 0 (fun _ => true), Fire 0);
      (* the guard release of skip 1 *)
    (hosting P 0 (fun _ => false), Dispatch NextPressed);
      (* forward: the cursor steps to track 1, play awaited *)
    (hosting P 0 (fun _ => true), Fire 0);
      (* the guard release of the back skip *)
    (hosting Q 5 (fun _ => true), Dispatch SongChange);
      (* track 5 starts in Q: context change *)
    (hosting Q 5 (fun _ => true), Settle 0) ].
      (* the play command of the forward skip is rejected *)

(** ** Properties *)

Arguments slice : simpl never.
Arguments pickNextTrack : simpl never.
Arguments recordCurrentTrack : simpl never.
Arguments pushToNavigation : simpl never.
Arguments restoreVolume : simpl never.
Arguments muteForSkip : simpl never.
Arguments playTrackInContext : simpl never.
Arguments loadPlaylistTracks : simpl never.
Arguments ensurePlaylistLoaded : simpl never.
Arguments replayForward : simpl never.
Arguments nativePassThrough : simpl never.
Arguments handleSkipForward : simpl never.
Arguments handleSkipBack : simpl never.
Arguments songchange : simpl never.

(** *** Array primitives *)

Lemma slice_prefix {A} (l : list A) (e : Z) :
  0 <= e -> slice l 0 (Some e) = take (Z.to_nat e) l.
Proof.
  intros He. unfold slice, relIndex.
  replace (0 <? 0) with false by reflexivity.
  destruct (e <? 0) eqn:E; [apply Z.ltb_lt in E; lia|].
  rewrite (Z.min_l 0) by lia. simpl. rewrite drop_0, Nat.sub_0_r.
  destruct (Z.min_spec e (Z.of_nat (length l))) as [[? ->]|[? ->]]; [done|].
  rewrite Nat2Z.id, !take_ge; [done|lia..].
Qed.

Lemma slice_prefix_nat {A} (l : list A) (n : nat) :
  slice l 0 (Some (Z.of_nat n)) = take n l.
Proof. rewrite slice_prefix by lia. by rewrite Nat2Z.id. Qed.

Lemma slice_suffix {A} (l : list A) (k : Z) :
  0 <= k <= Z.of_nat (length l) -> slice l k None = drop (Z.to_nat k) l.
Proof.
  intros Hk. unfold slice, relIndex.
  destruct (k <? 0) eqn:E; [apply Z.ltb_lt in E; lia|].
  rewrite Z.min_l by lia. apply take_ge. rewrite length_drop. lia.
Qed.

(** *** The weighted selector *)

Lemma draw_member (weighted : list (Track * float)) (r : float) (t : Track) :
  draw weighted r = Some t -> t ∈ weighted.*1.
Proof.
  revert r. induction weighted as [|[t' w] rest IH]; intros r; simpl; [done|].
  destruct (PrimFloat.leb _ _).
  - intros [= ->]. left.
  - intros H. right. by eapply IH.
Qed.

Lemma last_member {A} (l : list A) (x : A) : last l = Some x -> x ∈ l.
Proof.
  intros H. apply list_elem_of_lookup. exists (pred (length l)).
  by rewrite <- last_lookup.
Qed.

(** Over a non-empty candidate list, the draw and its fallback return one of
    the candidates. *)
Lemma draw_or_last (candidates : list Track) (w : Track -> float) (r : float) :
  candidates <> [] ->
  exists t,
    match draw (map (fun track => (track, w track)) candidates) r with
    | Some track => Some track
    | None => fst <$> last (map (fun track => (track, w track)) candidates)
    end = Some t /\ t ∈ candidates.
Proof.
  intros Hne.
  assert (Hfst : (map (fun track => (track, w track)) candidates).*1
                 = candidates).
  { rewrite <- list_fmap_compose. apply list_fmap_id. }
  destruct (draw _ r) as [t|] eqn:Hd.
  - exists t. split; [done|]. rewrite <- Hfst. by eapply draw_member.
  - destruct (last _) as [[t w']|] eqn:Hl.
    + exists t. split; [done|]. rewrite <- Hfst.
      apply last_member in Hl. by apply (list_elem_of_fmap_2 fst) in Hl.
    + apply last_None in Hl. by destruct candidates.
Qed.

(** Membership in the [Set] the code builds is membership in the window. *)
Lemma recentUris_window (history : list HistoryEntry) (u : string) :
  u ∈ (list_to_set
         (map h_uri
            (slice history 0 (Some (Z.of_nat (NO_REPEAT_WINDOW CONFIG)))))
       : gset string)
  <-> u ∈ recentWindow (NO_REPEAT_WINDOW CONFIG) history.
Proof. by rewrite elem_of_list_to_set, slice_prefix_nat. Qed.

(** The list the draw runs over once two or more tracks are given. *)
Lemma pickNextTrack_effective (tracks : list Track)
    (history : list HistoryEntry) (rnd : float) :
  (2 <= length tracks)%nat ->
  exists t,
    pickNextTrack (Some tracks) history rnd = Some t /\
    t ∈ tracks /\
    ((exists c, c ∈ tracks /\
                uri c ∉ recentWindow (NO_REPEAT_WINDOW CONFIG) history) ->
     uri t ∉ recentWindow (NO_REPEAT_WINDOW CONFIG) history).
Proof.
  intros Hlen. destruct tracks as [|a [|b l]]; simpl in Hlen; [lia..|].
  unfold pickNextTrack.
  set (tracks := a :: b :: l).
  set (recent := list_to_set _ : gset string).
  set (kept := filter (fun t => uri t ∉ recent) tracks).
  destruct (length kept =? 0)%nat eqn:Hk.
  - apply Nat.eqb_eq, nil_length_inv in Hk.
    edestruct (draw_or_last tracks (fun t => calculateWeight t history))
      as (t & Ht & Hin); [done|].
    exists t. split; [exact Ht|]. split; [done|].
    intros (c & Hc & Hnot). exfalso.
    assert (c ∈ kept) as Hck.
    { apply list_elem_of_filter. split; [|done].
      unfold recent. by rewrite recentUris_window. }
    rewrite Hk in Hck. by apply not_elem_of_nil in Hck.
  - apply Nat.eqb_neq in Hk.
    edestruct (draw_or_last kept (fun t => calculateWeight t history))
      as (t & Ht & Hin); [by destruct kept|].
    exists t. split; [exact Ht|].
    apply list_elem_of_filter in Hin as [Hnot Hin]. split; [done|].
    intros _. unfold recent in Hnot. by rewrite recentUris_window in Hnot.
Qed.

(** C3. The weighted selector returns null exactly when the candidate list is
    empty, returns the sole element of a singleton list, and for every
    non-empty candidate list returns a member of that list. *)
Theorem pickNextTrack_null_iff_empty_else_member (tracks : list Track)
    (history : list HistoryEntry) (rnd : float) :
  (pickNextTrack (Some tracks) history rnd = None <-> tracks = []) /\
  (forall t, pickNextTrack (Some [t]) history rnd = Some t) /\
  (tracks <> [] ->
   exists t, pickNextTrack (Some tracks) history rnd = Some t /\ t ∈ tracks).
Proof.
  split; [|split].
  - destruct tracks as [|a [|b l]]; [done..|].
    destruct (pickNextTrack_effective (a :: b :: l) history rnd)
      as (t & -> & _); [simpl; lia|]. done.
  - done.
  - intros Hne. destruct tracks as [|a [|b l]]; [done|..].
    + exists a. split; [done|]. left.
    + destruct (pickNextTrack_effective (a :: b :: l) history rnd)
        as (t & Ht & Hin & _); [simpl; lia|]. by exists t.
Qed.

(** C4. Given two or more candidates, the selector returns a candidate, and
    one whose identity is outside the first NO_REPEAT_WINDOW entries of the
    play history whenever some candidate is outside; when all candidates are
    inside, the pick is from the unfiltered list.  With history [A,B,C,...],
    candidates [A,B,C,D] and a window of 2, the pick is C or D. *)
Theorem pickNextTrack_respects_window (tracks : list Track)
    (history : list HistoryEntry) (rnd : float) :
  (2 <= length tracks)%nat ->
  (exists t,
     pickNextTrack (Some tracks) history rnd = Some t /\
     t ∈ tracks /\
     ((exists c, c ∈ tracks /\
                 uri c ∉ recentWindow (NO_REPEAT_WINDOW CONFIG) history) ->
      uri t ∉ recentWindow (NO_REPEAT_WINDOW CONFIG) history)) /\
  (forall (A B C D : Track) (eA eB eC : HistoryEntry)
          (older : list HistoryEntry),
     NO_REPEAT_WINDOW CONFIG = 2%nat ->
     tracks = [A; B; C; D] ->
     history = eA :: eB :: eC :: older ->
     h_uri eA = uri A -> h_uri eB = uri B -> h_uri eC = uri C ->
     uri C <> uri A -> uri C <> uri B -> uri D <> uri A -> uri D <> uri B ->
     pickNextTrack (Some tracks) history rnd = Some C \/
     pickNextTrack (Some tracks) history rnd = Some D).
Proof.
  intros Hlen.
  destruct (pickNextTrack_effective tracks history rnd Hlen)
    as (t & Ht & Hin & Hout).
  split; [by exists t|].
  intros A B C D eA eB eC older Hw -> -> HA HB HC HCA HCB HDA HDB.
  rewrite Ht. rewrite Hw in Hout. unfold recentWindow in Hout.
  simpl in Hout. rewrite HA, HB in Hout.
  assert (uri t ∉ [uri A; uri B]) as Hnot.
  { apply Hout. exists D. split; [rewrite !elem_of_cons; auto|].
    rewrite !not_elem_of_cons. split_and!; [done..|apply not_elem_of_nil]. }
  rewrite !not_elem_of_cons in Hnot. destruct Hnot as (HtA & HtB & _).
  rewrite !elem_of_cons in Hin.
  destruct Hin as [->|[->|[->|[->|Hin]]]]; [done| done |by left|by right|].
  by apply not_elem_of_nil in Hin.
Qed.

(** *** Navigation history *)

Lemma same_nav_refl (s : State) : same_nav s s.
Proof. by split. Qed.

Lemma same_nav_trans (s1 s2 s3 : State) :
  same_nav s1 s2 -> same_nav s2 s3 -> same_nav s1 s3.
Proof. intros [H1 H2] [H3 H4]. split; congruence. Qed.

Lemma nav_ok_same (s s' : State) : same_nav s s' -> nav_ok s -> nav_ok s'.
Proof. intros [H1 H2]. unfold nav_ok. by rewrite H1, H2. Qed.

Lemma restoreVolume_nav (s : State) : same_nav s (restoreVolume s).
Proof. unfold restoreVolume. repeat case_match; by split. Qed.

Lemma muteForSkip_nav (s : State) : same_nav s (muteForSkip s).
Proof. unfold muteForSkip. case_match; by split. Qed.

Lemma playTrackInContext_nav (env : Env) (u : option string) (ok : bool)
    (s : State) :
  same_nav s (playTrackInContext env u ok s).2.
Proof.
  unfold playTrackInContext. repeat case_match; simpl; [| |apply same_nav_refl].
  all: eapply same_nav_trans; [|apply restoreVolume_nav]; by split.
Qed.

Lemma recordCurrentTrack_nav (env : Env) (s : State) :
  same_nav s (recordCurrentTrack env s).
Proof. unfold recordCurrentTrack. repeat case_match; by split. Qed.

Lemma ensurePlaylistLoaded_nav (env : Env) (s : State) :
  same_nav s (ensurePlaylistLoaded env s).2.
Proof. unfold ensurePlaylistLoaded. repeat case_match; by split. Qed.

Lemma nativePassThrough_nav (s : State) : same_nav s (nativePassThrough s).
Proof.
  destruct (muteForSkip_nav
              (set_isHandlingAction false (set_isNativePassSkip true s)))
    as [H1 H2].
  unfold nativePassThrough. split; cbn; [rewrite H1|rewrite H2]; done.
Qed.

(** What a push of a truthy identity leaves in the navigation history. *)
Lemma pushToNavigation_nav (u : string) (s : State) :
  truthy (Some u) = true ->
  let kept :=
    if navigationIndex s <? Z.of_nat (length (navigationHistory s)) - 1
    then slice (navigationHistory s) 0 (Some (navigationIndex s + 1))
    else navigationHistory s in
  navigationHistory (pushToNavigation (Some u) s)
  = drop (length (kept ++ [u]) - HISTORY_SIZE CONFIG) (kept ++ [u]) /\
  navigationIndex (pushToNavigation (Some u) s)
  = Z.of_nat (length (navigationHistory (pushToNavigation (Some u) s))) - 1.
Proof.
  intros Hu kept. unfold pushToNavigation. rewrite Hu. simpl.
  fold kept.
  assert (navigationHistory
            (if navigationIndex s <? Z.of_nat (length (navigationHistory s)) - 1
             then set_navigationHistory
                    (slice (navigationHistory s) 0
                       (Some (navigationIndex s + 1))) s
             else s) = kept) as ->.
  { unfold kept. by case_match. }
  destruct (HISTORY_SIZE CONFIG <? length (kept ++ [u]))%nat eqn:Hlt; simpl.
  - apply Nat.ltb_lt in Hlt. split; [|done].
    rewrite slice_suffix by lia. f_equal. lia.
  - apply Nat.ltb_ge in Hlt. split; [|done].
    by replace (length (kept ++ [u]) - HISTORY_SIZE CONFIG)%nat with 0%nat
      by lia.
Qed.

Lemma pushToNavigation_nav_ok (u : option string) (s : State) :
  nav_ok s -> nav_ok (pushToNavigation u s).
Proof.
  intros Hs. destruct u as [u|]; [|done].
  destruct (truthy (Some u)) eqn:Hu.
  - destruct (pushToNavigation_nav u s Hu) as [_ Hidx].
    unfold nav_ok. rewrite Hidx.
    destruct (navigationHistory (pushToNavigation (Some u) s)); simpl.
    + by left.
    + right. lia.
  - unfold pushToNavigation. by rewrite Hu.
Qed.

Lemma replayForward_nav_ok (env : Env) (s : State) :
  nav_ok s -> nav_ok (replayForward env s).2.
Proof.
  intros Hs. unfold replayForward.
  destruct (navigationIndex s <? _) eqn:Hlt; [|done].
  apply Z.ltb_lt in Hlt.
  destruct (playTrackInContext _ _ _ _) as [ok s1] eqn:Hp.
  pose proof (playTrackInContext_nav env
    (at_index (navigationHistory s) (navigationIndex s + 1))
    (playOutcome env 0) (set_navigationIndex (navigationIndex s + 1) s))
    as [Hh Hi].
  simpl in Hp. rewrite Hp in Hh, Hi. simpl in Hh, Hi.
  destruct Hs as [[Hnil ?]|Hs]; [rewrite Hnil in Hlt; simpl in Hlt; lia|].
  destruct ok; simpl; unfold nav_ok; simpl; rewrite Hh, ?Hi; right; lia.
Qed.

Lemma trueShufflePick_nav_ok (n call attempt : nat) (env : Env) (s : State) :
  nav_ok s -> nav_ok (trueShufflePick n call attempt env s).
Proof.
  revert call attempt s.
  induction n as [|n IH]; intros call attempt s Hs; simpl; [done|].
  destruct (pickNextTrack _ _ _) as [t|]; [|done].
  destruct (playTrackInContext _ _ _ _) as [ok s1] eqn:Hp.
  assert (nav_ok s1) as Hs1.
  { eapply nav_ok_same; [|exact Hs].
    pose proof (playTrackInContext_nav env (Some (uri t))
                  (playOutcome env call) s) as H.
    by rewrite Hp in H. }
  destruct ok; [by apply pushToNavigation_nav_ok|].
  apply IH. eapply nav_ok_same; [|exact Hs1]. by split.
Qed.

Lemma handleSkipForward_nav_ok (env : Env) (s : State) :
  nav_ok s -> nav_ok (handleSkipForward env s).
Proof.
  intros Hs. unfold handleSkipForward. destruct (isHandlingAction s); [done|].
  apply (nav_ok_same (skipForward_body env (set_isHandlingAction true s)));
    [by split|].
  unfold skipForward_body.
  destruct (ensurePlaylistLoaded _ _) as [loaded s1] eqn:He.
  assert (nav_ok s1) as Hs1.
  { pose proof (ensurePlaylistLoaded_nav env (set_isHandlingAction true s))
      as H. rewrite He in H. eapply nav_ok_same; [exact H|done]. }
  destruct loaded; cbn [negb]; [|done].
  pose proof (replayForward_nav_ok env (recordCurrentTrack env s1)) as Hr.
  destruct (replayForward _ _) as [[done_ calls] s2]. simpl in Hr.
  assert (nav_ok s2) as Hs2.
  { apply Hr. eapply nav_ok_same; [apply recordCurrentTrack_nav|done]. }
  destruct done_; [done|].
  case_match.
  - apply (nav_ok_same (set_skipCounter (S (skipCounter s2)) s2));
      [apply nativePassThrough_nav|exact Hs2].
  - apply trueShufflePick_nav_ok. exact Hs2.
Qed.

Lemma handleSkipBack_nav_ok (env : Env) (s : State) :
  nav_ok s -> nav_ok (handleSkipBack env s).
Proof.
  intros Hs. unfold handleSkipBack. destruct (isHandlingAction s); [done|].
  unfold release_guard_later.
  match goal with
  | |- nav_ok (emit ?c ?x) => apply (nav_ok_same x); [by split|]
  end.
  destruct (0 <? navigationIndex _) eqn:Hpos; [|done].
  cbn in Hpos. apply Z.ltb_lt in Hpos.
  eapply nav_ok_same; [apply playTrackInContext_nav|].
  destruct Hs as [[_ ?]|Hs]; [lia|]. right. cbn. lia.
Qed.

Lemma songchange_nav_ok (env : Env) (s : State) :
  nav_ok s -> nav_ok (songchange env s).
Proof.
  intros Hs. unfold songchange.
  destruct (isHandlingAction s); [done|].
  destruct (isNativePassSkip s).
  { unfold validateNativePick. repeat case_match; try done.
    - eapply nav_ok_same; [|exact Hs].
      destruct (muteForSkip_nav
                  (set_isNativePassSkip true (set_isNativePassSkip false s)))
        as [Hh Hi].
      split; cbn; [rewrite Hh|rewrite Hi]; done.
    - eapply nav_ok_same; [apply restoreVolume_nav|].
      eapply nav_ok_same; [apply recordCurrentTrack_nav|].
      by apply pushToNavigation_nav_ok. }
  case_match; [done|].
  case_match.
  { unfold contextChanged. case_match.
    - apply pushToNavigation_nav_ok. by left.
    - by left. }
  case_match; [done|].
  case_match; [|done].
  by apply handleSkipForward_nav_ok.
Qed.

Lemma step_nav_ok (env : Env) (ev : Event) (s : State) :
  nav_ok s -> nav_ok (step env ev s).
Proof.
  intros Hs. destruct ev; simpl; try done.
  - unfold Player_next. case_match; [|done].
    apply handleSkipForward_nav_ok.
    eapply nav_ok_same; [apply muteForSkip_nav|done].
  - unfold Player_back. case_match; [|done]. by apply handleSkipBack_nav_ok.
  - unfold PlayerAPI_skipToNext. repeat case_match; try done.
    apply handleSkipForward_nav_ok.
    eapply nav_ok_same; [apply muteForSkip_nav|done].
  - unfold PlayerAPI_skipToPrevious. repeat case_match; try done.
    by apply handleSkipBack_nav_ok.
  - by apply songchange_nav_ok.
  - by case_match.
Qed.

Lemma run_nav_ok (trace : list (Env * Event)) (s : State) :
  nav_ok s -> nav_ok (run trace s).
Proof.
  revert s. induction trace as [|[env ev] trace IH]; intros s Hs; [done|].
  apply IH. by apply step_nav_ok.
Qed.


(** Taken on their own, the operations keep the cursor a valid index into
    the navigation history, or -1 exactly when the history is empty: this
    holds at start-up, is kept by a push, by the forward step and the whole
    forward-skip handler, by the back step, is re-established by the reset
    of a context change, and so holds after every sequential run, in which
    no handler is interrupted at an await. *)
Lemma uninterrupted_handlers_keep_cursor_valid :
  (forall v, nav_ok (initial_state v)) /\
  (forall s : State,
     nav_ok s ->
     (forall u, nav_ok (pushToNavigation u s)) /\
     (forall env, nav_ok (replayForward env s).2) /\
     (forall env, nav_ok (handleSkipForward env s)) /\
     (forall env, nav_ok (handleSkipBack env s)) /\
     (forall env ev, nav_ok (step env ev s))) /\
  (forall (s : State) contextUri currentUri,
     nav_ok (contextChanged contextUri currentUri s)) /\
  (forall v trace, nav_ok (run trace (initial_state v))).
Proof.
  split; [by left|]. split; [|split].
  - intros s Hs. split_and!; intros.
    + by apply pushToNavigation_nav_ok.
    + by apply replayForward_nav_ok.
    + by apply handleSkipForward_nav_ok.
    + by apply handleSkipBack_nav_ok.
    + by apply step_nav_ok.
  - intros s c u. unfold contextChanged. case_match.
    + apply pushToNavigation_nav_ok. by left.
    + by left.
  - intros v trace. apply run_nav_ok. by left.
Qed.

(** *** Play commands, muting and the log *)

Lemma plays_app (l1 l2 : list Command) : plays (l1 ++ l2) = plays l1 ++ plays l2.
Proof. apply omap_app. Qed.

Lemma timers_app (l1 l2 : list Command) :
  timers (l1 ++ l2) = timers l1 ++ timers l2.
Proof. apply omap_app. Qed.

Lemma plays_Play (ctx : string) (u : option string) (ok : bool)
    (l : list Command) :
  plays (Play ctx u ok :: l) = (u, ok) :: plays l.
Proof. done. Qed.

Lemma timers_Play (ctx : string) (u : option string) (ok : bool)
    (l : list Command) :
  timers (Play ctx u ok :: l) = timers l.
Proof. done. Qed.

Lemma mute_inv_same (s s' : State) : same_mute s s' -> mute_inv s -> mute_inv s'.
Proof. intros [H1 H2]. unfold mute_inv. by rewrite H1, H2. Qed.

(** What [restoreVolume] does to a state that satisfies [mute_inv]: it leaves
    it unmuted, at the saved volume if it was muted. *)
Lemma restoreVolume_spec (s : State) :
  mute_inv s ->
  smoothSkipMuted (restoreVolume s) = false /\
  savedVolume (restoreVolume s) = (if smoothSkipMuted s then None else savedVolume s) /\
  (smoothSkipMuted s = true -> Some (volume (restoreVolume s)) = savedVolume s) /\
  (smoothSkipMuted s = false -> restoreVolume s = s).
Proof.
  intros Hinv. unfold restoreVolume, mute_inv in *.
  destruct (savedVolume s) as [v|] eqn:Hv, (smoothSkipMuted s) eqn:Hm;
    cbn; rewrite ?Hv, ?Hm; try done.
  by destruct Hinv as [? [=]].
Qed.

Lemma restoreVolume_log (s : State) :
  exists vols, log (restoreVolume s) = log s ++ vols /\
               plays vols = [] /\ timers vols = [].
Proof.
  unfold restoreVolume. repeat case_match.
  - by eexists [_].
  - exists []. by rewrite app_nil_r.
  - exists []. by rewrite app_nil_r.
Qed.

Lemma restoreVolume_session (s : State) : same_session s (restoreVolume s).
Proof. unfold restoreVolume. repeat case_match; by repeat split. Qed.

Lemma muteForSkip_spec (s : State) :
  smoothSkipMuted (muteForSkip s) = true /\
  volume (muteForSkip s) = 0%float /\
  log (muteForSkip s) = log s ++ [SetVolume 0] /\
  savedVolume (muteForSkip s)
  = (if smoothSkipMuted s then savedVolume s else Some (volume s)) /\
  same_session s (muteForSkip s).
Proof.
  unfold muteForSkip. destruct (smoothSkipMuted s) eqn:Hm; cbn;
    by repeat split.
Qed.

Lemma muteForSkip_mute_inv (s : State) : mute_inv s -> mute_inv (muteForSkip s).
Proof.
  intros Hinv _. destruct (muteForSkip_spec s) as (_ & _ & _ & -> & _).
  unfold mute_inv in Hinv. destruct (smoothSkipMuted s); [by apply Hinv|done].
Qed.

(** A play command in a context: the command is logged with its outcome,
    the volume is restored whatever the outcome, and nothing of the session
    changes. *)
Lemma playTrackInContext_spec (env : Env) (ctx : string) (u : option string)
    (ok : bool) (s : State) :
  getContextUri env = Some ctx ->
  exists s' vols,
    playTrackInContext env u ok s = (ok, s') /\
    same_session s s' /\
    log s' = log s ++ Play ctx u ok :: vols /\
    plays vols = [] /\ timers vols = [] /\
    lastPlayedByUsUri s' = (if ok then u else None) /\
    (mute_inv s ->
     smoothSkipMuted s' = false /\ mute_inv s' /\
     (smoothSkipMuted s = true -> Some (volume s') = savedVolume s) /\
     (smoothSkipMuted s = false -> volume s' = volume s)).
Proof.
  intros Hctx. unfold playTrackInContext. rewrite Hctx.
  set (s1 := emit (Play ctx u ok) (set_lastPlayedByUsUri u s)).
  assert (forall s2, same_session s s2 -> same_mute s s2 ->
                     volume s2 = volume s ->
                     log s2 = log s ++ [Play ctx u ok] ->
            exists vols,
              same_session s (restoreVolume s2) /\
              log (restoreVolume s2) = log s ++ Play ctx u ok :: vols /\
              plays vols = [] /\ timers vols = [] /\
              lastPlayedByUsUri (restoreVolume s2) = lastPlayedByUsUri s2 /\
              (mute_inv s ->
               smoothSkipMuted (restoreVolume s2) = false /\
               mute_inv (restoreVolume s2) /\
               (smoothSkipMuted s = true ->
                Some (volume (restoreVolume s2)) = savedVolume s) /\
               (smoothSkipMuted s = false ->
                volume (restoreVolume s2) = volume s))) as Hrestore.
  { intros s2 Hsess Hmute Hvol Hlog.
    destruct (restoreVolume_log s2) as (vols & Hl & Hp & Ht).
    exists vols. split.
    { pose proof (restoreVolume_session s2) as Hr.
      unfold same_session, same_nav, same_rest in *. destruct_and!.
      repeat split; congruence. }
    split; [rewrite Hl, Hlog, <- app_assoc; done|].
    split; [done|]. split; [done|]. split.
    { unfold restoreVolume. by repeat case_match. }
    intros Hinv. apply (mute_inv_same _ _ Hmute) in Hinv as Hinv2.
    destruct (restoreVolume_spec s2 Hinv2) as (Hm & Hsv & Hv & Hid).
    destruct Hmute as [Hm2 Hs2]. rewrite Hm2, Hs2 in *.
    split; [done|]. split; [by intros ?; congruence|]. split; [done|].
    intros Hf. by rewrite (Hid Hf). }
  destruct ok.
  - destruct (Hrestore s1) as (vols & ? & ? & ? & ? & ? & ?);
      [by repeat split..|].
    by exists (restoreVolume s1), vols.
  - destruct (Hrestore (set_lastPlayedByUsUri None s1))
      as (vols & ? & ? & ? & ? & ? & ?); [by repeat split..|].
    by exists (restoreVolume (set_lastPlayedByUsUri None s1)), vols.
Qed.

Lemma same_rest_trans (s1 s2 s3 : State) :
  same_rest s1 s2 -> same_rest s2 s3 -> same_rest s1 s3.
Proof. unfold same_rest. intros ? ?. destruct_and!. split_and!; congruence. Qed.

Lemma pushToNavigation_frame (u : option string) (s : State) :
  playHistory (pushToNavigation u s) = playHistory s /\
  log (pushToNavigation u s) = log s /\
  same_mute s (pushToNavigation u s) /\
  volume (pushToNavigation u s) = volume s /\
  same_rest s (pushToNavigation u s).
Proof. unfold pushToNavigation. repeat case_match; by repeat split. Qed.

Lemma pushToNavigation_same_nav (u : option string) (s1 s2 : State) :
  same_nav s1 s2 ->
  same_nav (pushToNavigation u s1) (pushToNavigation u s2).
Proof.
  intros [Hh Hi]. destruct u as [u|]; [|by split].
  destruct (truthy (Some u)) eqn:Hu.
  - destruct (pushToNavigation_nav u s1 Hu) as [H1 H1'].
    destruct (pushToNavigation_nav u s2 Hu) as [H2 H2'].
    rewrite Hh, Hi in H2. rewrite <- H1 in H2.
    split; [done|]. by rewrite H2', H1', H2.
  - unfold pushToNavigation. rewrite Hu. by split.
Qed.

Lemma pickNextTrack_some (ts : list Track) (history : list HistoryEntry)
    (rnd : float) :
  ts <> [] ->
  exists t, pickNextTrack (Some ts) history rnd = Some t /\ t ∈ ts.
Proof.
  intros Hne. destruct ts as [|a [|b l]]; [done|..].
  - exists a. split; [done|]. left.
  - destruct (pickNextTrack_effective (a :: b :: l) history rnd)
      as (t & Ht & Hin & _); [simpl; lia|]. by exists t.
Qed.

(** The True Shuffle loop with [n] attempts, in a context and over a
    non-empty playlist: the tracks it failed to play, the one it played if
    any, and the state it leaves. *)
Lemma trueShufflePick_spec (env : Env) (ctx : string) (ts : list Track)
    (n : nat) :
  getContextUri env = Some ctx ->
  ts <> [] ->
  forall (call attempt : nat) (s : State),
    currentPlaylistTracks s = Some ts ->
    exists (failed succ : list Track) (new : list Command),
      let s' := trueShufflePick n call attempt env s in
      log s' = log s ++ new /\
      plays new
      = ((fun t => (Some (uri t), false)) <$> failed)
        ++ ((fun t => (Some (uri t), true)) <$> succ) /\
      timers new = [] /\
      playHistory s' = rev (failed_entry <$> failed) ++ playHistory s /\
      (forall (i : nat) (t : Track),
         (failed ++ succ) !! i = Some t ->
         t ∈ ts /\
         pickNextTrack (Some ts)
           (rev (failed_entry <$> take i failed) ++ playHistory s)
           (Math_random env (attempt + i)) = Some t) /\
      same_rest s s' /\
      (mute_inv s -> mute_inv s') /\
      ((exists t, succ = [t] /\ (length failed < n)%nat /\
                  same_nav (pushToNavigation (Some (uri t)) s) s' /\
                  (mute_inv s -> smoothSkipMuted s' = false))
       \/ (succ = [] /\ length failed = n /\ same_nav s s')).
Proof.
  intros Hctx Hne. induction n as [|n IH]; intros call attempt s Hts.
  { exists [], [], []. cbn. rewrite app_nil_r.
    split_and!; try done. right. split_and!; done. }
  cbn [trueShufflePick]. rewrite Hts.
  destruct (pickNextTrack_some ts (playHistory s) (Math_random env attempt) Hne)
    as (t & Hpick & Hin).
  rewrite Hpick.
  destruct (playTrackInContext_spec env ctx (Some (uri t))
              (playOutcome env call) s Hctx)
    as (s1 & vols & Hplay & Hsess & Hlog & Hpv & Htv & _ & Hmute).
  rewrite Hplay.
  destruct Hsess as (Hph & Hnav & Hrest).
  destruct (playOutcome env call).
  - destruct (pushToNavigation_frame (Some (uri t)) s1)
      as (Fph & Flog & Fmute & _ & Frest).
    exists [], [t], (Play ctx (Some (uri t)) true :: vols).
    cbn zeta. split_and!.
    + by rewrite Flog.
    + by rewrite plays_Play, Hpv.
    + by rewrite timers_Play, Htv.
    + by rewrite Fph.
    + intros [|i] t' Hi; [|done]. cbn in Hi. injection Hi as <-.
      cbn. by rewrite Nat.add_0_r.
    + by eapply same_rest_trans.
    + intros Hinv. eapply mute_inv_same; [exact Fmute|]. by apply Hmute.
    + left. exists t. split_and!; [done|cbn; lia| |].
      * by apply pushToNavigation_same_nav.
      * intros Hinv. destruct Fmute as [-> _]. by apply Hmute.
  - set (s2 := set_playHistory _ s1).
    assert (same_rest s1 s2) as Hrest2 by (by repeat split).
    destruct (IH (S call) (S attempt) s2)
      as (failed & succ & new & Hl & Hp & Ht & Hh & Hsel & Hr & Hmi & Hcase).
    { destruct Hrest as (_ & Htr & _). subst s2. cbn. by rewrite Htr. }
    cbn zeta in *.
    exists (t :: failed), succ, ((Play ctx (Some (uri t)) false :: vols) ++ new).
    split_and!.
    + rewrite Hl. cbn [log s2 set_playHistory]. rewrite Hlog.
      by rewrite <- app_assoc.
    + by rewrite plays_app, Hp, plays_Play, Hpv.
    + by rewrite timers_app, Ht, timers_Play, Htv.
    + rewrite Hh. cbn. rewrite Hph, <- app_assoc. done.
    + intros [|i] t' Hi.
      * cbn in Hi. injection Hi as <-. cbn. by rewrite Nat.add_0_r.
      * cbn in Hi. destruct (Hsel i t' Hi) as [Hin' Hpk]. split; [done|].
        cbn in Hpk |- *. rewrite Hph in Hpk.
        rewrite <- app_assoc. cbn.
        by replace (attempt + S i)%nat with (S (attempt + i)) by lia.
    + eapply same_rest_trans; [exact Hrest|].
      eapply same_rest_trans; [exact Hrest2|exact Hr].
    + intros Hinv. apply Hmi.
      destruct (Hmute Hinv) as (_ & Hinv1 & _). exact Hinv1.
    + destruct Hcase as [(t' & -> & Hlen & Hsn & Hm)|(-> & Hlen & Hsn)].
      * left. exists t'. split_and!; [done|cbn; lia| |].
        -- eapply same_nav_trans; [|exact Hsn].
           apply pushToNavigation_same_nav. exact Hnav.
        -- intros Hinv. apply Hm.
           destruct (Hmute Hinv) as (_ & Hinv1 & _). exact Hinv1.
      * right. split_and!; [done|cbn; lia|].
        eapply same_nav_trans; [|exact Hsn]. exact Hnav.
Qed.

(** A push of a truthy identity, spelled out for a state that has the
    navigation history and cursor of the push: the entries up to the cursor
    (all of them when the cursor is at the tail) with the identity appended,
    less what the HISTORY_SIZE bound drops from the front; the cursor is on
    the last entry, which is the identity pushed. *)
Lemma pushToNavigation_pushed (u : string) (s s' : State) :
  truthy (Some u) = true ->
  same_nav (pushToNavigation (Some u) s) s' ->
  let kept :=
    if navigationIndex s <? Z.of_nat (length (navigationHistory s)) - 1
    then slice (navigationHistory s) 0 (Some (navigationIndex s + 1))
    else navigationHistory s in
  navigationHistory s'
  = drop (length (kept ++ [u]) - HISTORY_SIZE CONFIG) (kept ++ [u]) /\
  navigationIndex s' = Z.of_nat (length (navigationHistory s')) - 1 /\
  ((0 < HISTORY_SIZE CONFIG)%nat -> last (navigationHistory s') = Some u).
Proof.
  intros Hu [Hh Hi] kept.
  destruct (pushToNavigation_nav u s Hu) as [Ph Pi]. fold kept in Ph.
  rewrite Hh, Hi, Pi, Ph. split_and!; [done..|].
  intros Hsize. rewrite last_lookup, length_drop, lookup_drop.
  rewrite length_app. cbn [length].
  replace (_ + _)%nat with (length kept) by lia.
  by rewrite list_lookup_middle.
Qed.

(** C9. A True Shuffle pick issues at most three play commands.  Each track
    it fails to play was the selector's choice over the history as it stood,
    and is prepended to the play history before the next selection; a play
    that succeeds is the last command, its track is pushed onto the
    navigation history - it becomes the last entry, after the entries up to
    the cursor, with the cursor on it - and the loop stops; after three
    failures the loop ends with the navigation history, the skip counter,
    the playlist cache and the guards as they were. *)
Theorem trueShufflePick_at_most_three_attempts (env : Env) (ctx : string)
    (ts : list Track) (call : nat) (s : State) :
  getContextUri env = Some ctx ->
  currentPlaylistTracks s = Some ts ->
  ts <> [] ->
  let s' := trueShufflePick 3 call 0 env s in
  exists (failed succ : list Track) (new : list Command),
    log s' = log s ++ new /\
    plays new
    = ((fun t => (Some (uri t), false)) <$> failed)
      ++ ((fun t => (Some (uri t), true)) <$> succ) /\
    (length (plays new) <= 3)%nat /\
    playHistory s' = rev (failed_entry <$> failed) ++ playHistory s /\
    (forall (i : nat) (t : Track),
       (failed ++ succ) !! i = Some t ->
       t ∈ ts /\
       pickNextTrack (Some ts)
         (rev (failed_entry <$> take i failed) ++ playHistory s)
         (Math_random env i) = Some t) /\
    same_rest s s' /\
    ((exists t, succ = [t] /\ (length failed <= 2)%nat /\
                same_nav (pushToNavigation (Some (uri t)) s) s' /\
                (truthy (Some (uri t)) = true ->
                 let kept :=
                   if navigationIndex s
                      <? Z.of_nat (length (navigationHistory s)) - 1
                   then slice (navigationHistory s) 0
                          (Some (navigationIndex s + 1))
                   else navigationHistory s in
                 navigationHistory s'
                 = drop (length (kept ++ [uri t]) - HISTORY_SIZE CONFIG)
                     (kept ++ [uri t]) /\
                 navigationIndex s'
                 = Z.of_nat (length (navigationHistory s')) - 1 /\
                 ((0 < HISTORY_SIZE CONFIG)%nat ->
                  last (navigationHistory s') = Some (uri t))))
     \/ (succ = [] /\ length failed = 3%nat /\ same_nav s s')).
Proof.
  intros Hctx Hts Hne s'.
  destruct (trueShufflePick_spec env ctx ts 3 Hctx Hne call 0%nat s Hts)
    as (failed & succ & new & Hl & Hp & _ & Hh & Hsel & Hr & _ & Hcase).
  exists failed, succ, new. fold s' in Hl, Hh, Hr, Hcase.
  split_and!; try done.
  - rewrite Hp, length_app, !length_fmap.
    destruct Hcase as [(t & -> & Hlen & _)|(-> & Hlen & _)]; cbn; lia.
  - destruct Hcase as [(t & -> & Hlen & Hn & _)|(-> & Hlen & Hn)].
    + left. exists t. split_and!; [done|lia|done|].
      intros Hu. by apply pushToNavigation_pushed.
    + by right.
Qed.

(** C10. A back skip with the cursor above its floor leaves the cursor one
    lower even when its play command fails, whereas the forward replay of
    [handleSkipForward] puts the cursor back where it was when its play
    command fails. *)
Theorem back_skip_keeps_cursor_on_failure (env : Env) (ctx : string)
    (s : State) :
  getContextUri env = Some ctx ->
  playOutcome env 0 = false ->
  (isHandlingAction s = false ->
   0 < navigationIndex s ->
   let s' := handleSkipBack env s in
   navigationIndex s' = navigationIndex s - 1 /\
   navigationHistory s' = navigationHistory s /\
   exists vols,
     log s'
     = log s
       ++ Play ctx (at_index (navigationHistory s) (navigationIndex s - 1))
            false :: vols ++ [SetTimeout GuardRelease 1500] /\
     plays vols = []) /\
  (navigationIndex s < Z.of_nat (length (navigationHistory s)) - 1 ->
   let r := replayForward env s in
   r.1.1 = false /\ r.1.2 = 1%nat /\
   navigationIndex r.2 = navigationIndex s /\
   navigationHistory r.2 = navigationHistory s /\
   exists vols,
     log r.2
     = log s
       ++ Play ctx (at_index (navigationHistory s) (navigationIndex s + 1))
            false :: vols /\
     plays vols = []).
Proof.
  intros Hctx Hfail. split.
  - intros Hguard Hpos s'. subst s'. unfold handleSkipBack.
    rewrite Hguard. cbn. apply Z.ltb_lt in Hpos as ->.
    destruct (playTrackInContext_spec env ctx
                (at_index (navigationHistory s) (navigationIndex s - 1))
                (playOutcome env 0)
                (set_navigationIndex (navigationIndex s - 1)
                   (set_isHandlingAction true s)) Hctx)
      as (s1 & vols & Hplay & (_ & [Hh Hi] & _) & Hlog & Hpv & _).
    cbn in Hplay. rewrite Hplay. cbn. rewrite Hh, Hi, Hlog, Hfail. cbn.
    split_and!; [done..|]. exists vols. split; [|done].
    by rewrite <- app_assoc.
  - intros Hmid r. subst r. unfold replayForward.
    apply Z.ltb_lt in Hmid as ->.
    destruct (playTrackInContext_spec env ctx
                (at_index (navigationHistory s) (navigationIndex s + 1))
                (playOutcome env 0)
                (set_navigationIndex (navigationIndex s + 1) s) Hctx)
      as (s1 & vols & Hplay & (_ & [Hh Hi] & _) & Hlog & Hpv & _).
    cbn in Hplay. cbn. rewrite Hplay. rewrite Hfail. cbn.
    rewrite Hh, Hi, Hlog, Hfail. cbn.
    split_and!; [done|done|lia|done|]. by exists vols.
Qed.

(** *** Play history *)

(** Recording the playing track: its old entry goes, a new one is put in
    front, and the list is cut to HISTORY_SIZE. *)
Lemma recordCurrentTrack_spec (env : Env) (item : Item) (u : string)
    (s : State) :
  data_item env = Some item ->
  item_uri item = Some u ->
  truthy (Some u) = true ->
  playHistory (recordCurrentTrack env s)
  = take (HISTORY_SIZE CONFIG)
      ({| h_uri := u; h_artistUri := or_null (item_artist_uri item) |}
       :: filter (fun h => h_uri h <> u) (playHistory s)) /\
  log (recordCurrentTrack env s) = log s /\
  volume (recordCurrentTrack env s) = volume s /\
  same_mute s (recordCurrentTrack env s) /\
  same_nav s (recordCurrentTrack env s) /\
  same_rest s (recordCurrentTrack env s).
Proof.
  intros Hitem Huri Hu. unfold recordCurrentTrack.
  rewrite Hitem, Huri, Hu. cbn.
  destruct (_ <=? _)%nat eqn:Hlt; cbn.
  - split; [|by repeat split]. by rewrite slice_prefix_nat.
  - split; [|by repeat split]. apply Nat.leb_gt in Hlt.
    rewrite take_ge; [done|]. cbn. lia.
Qed.

Lemma recordCurrentTrack_frame (env : Env) (s : State) :
  log (recordCurrentTrack env s) = log s /\
  volume (recordCurrentTrack env s) = volume s /\
  same_mute s (recordCurrentTrack env s) /\
  same_rest s (recordCurrentTrack env s).
Proof. unfold recordCurrentTrack. repeat case_match; by repeat split. Qed.

(** The truncating path: a recorded play never leaves more than
    HISTORY_SIZE entries behind. *)
Lemma recordCurrentTrack_bounded (env : Env) (s : State) :
  (length (playHistory s) <= HISTORY_SIZE CONFIG)%nat ->
  (length (playHistory (recordCurrentTrack env s)) <= HISTORY_SIZE CONFIG)%nat.
Proof.
  intros Hs.
  destruct (data_item env) as [item|] eqn:Hitem;
    [|by unfold recordCurrentTrack; rewrite Hitem].
  destruct (item_uri item) as [u|] eqn:Huri;
    [|by unfold recordCurrentTrack; rewrite Hitem, Huri].
  destruct (truthy (Some u)) eqn:Hu;
    [|by unfold recordCurrentTrack; rewrite Hitem, Huri, Hu].
  destruct (recordCurrentTrack_spec env item u s Hitem Huri Hu) as [-> _].
  rewrite length_take. lia.
Qed.

(** *** Native picks *)

(** With the guard free and the flag set the listener runs its native-pick
    block. *)
Lemma songchange_native (env : Env) (s : State) :
  isHandlingAction s = false ->
  isNativePassSkip s = true ->
  songchange env s = validateNativePick env (data_item env ≫= item_uri) s.
Proof. intros Hguard Hflag. unfold songchange. by rewrite Hguard, Hflag. Qed.

(** The native-pick block for a playing track that has an identity. *)
Lemma validateNativePick_spec (env : Env) (item : Item)
    (u : string) (s : State) :
  data_item env = Some item ->
  item_uri item = Some u ->
  truthy (Some u) = true ->
  let s' := validateNativePick env (Some u) s in
  (u ∈ recentWindow (NO_REPEAT_WINDOW CONFIG) (playHistory s) ->
   log s' = log s ++ [SetVolume 0; SetTimeout NativeSkip 50] /\
   isNativePassSkip s' = true /\
   smoothSkipMuted s' = true /\
   volume s' = 0%float /\
   playHistory s' = playHistory s /\
   same_nav s s') /\
  (u ∉ recentWindow (NO_REPEAT_WINDOW CONFIG) (playHistory s) ->
   s' = restoreVolume
          (recordCurrentTrack env
             (pushToNavigation (Some u) (set_isNativePassSkip false s))) /\
   isNativePassSkip s' = false /\
   same_nav (pushToNavigation (Some u) s) s' /\
   playHistory s'
   = take (HISTORY_SIZE CONFIG)
       ({| h_uri := u; h_artistUri := or_null (item_artist_uri item) |}
        :: filter (fun h => h_uri h <> u) (playHistory s)) /\
   timers (drop (length (log s)) (log s')) = [] /\
   (mute_inv s ->
    smoothSkipMuted s' = false /\
    (smoothSkipMuted s = true -> Some (volume s') = savedVolume s))).
Proof.
  intros Hitem Huri Hu s'. subst s'.
  unfold validateNativePick. rewrite Hu. cbn [negb].
  split.
  - intros Hin. rewrite bool_decide_eq_true_2
      by (cbn; by rewrite recentUris_window).
    destruct (muteForSkip_spec
                (set_isNativePassSkip true (set_isNativePassSkip false s)))
      as (Hm & Hv & Hl & _ & Hph & Hnav & Hrest).
    cbn. rewrite Hm, Hv, Hl, Hph. destruct Hrest as (_ & _ & _ & _ & -> & _).
    split_and!; try done. by rewrite <- app_assoc.
  - intros Hout. rewrite bool_decide_eq_false_2
      by (cbn; by rewrite recentUris_window).
    set (s1 := pushToNavigation (Some u) (set_isNativePassSkip false s)).
    set (s2 := recordCurrentTrack env s1).
    destruct (pushToNavigation_frame (Some u) (set_isNativePassSkip false s))
      as (Pph & Plog & Pmute & Pvol & Prest).
    destruct (recordCurrentTrack_spec env item u s1 Hitem Huri Hu)
      as (Rph & Rlog & Rvol & Rmute & Rnav & Rrest).
    fold s1 in Pph, Plog, Pmute, Pvol, Prest. fold s2 in Rph, Rlog, Rvol, Rmute, Rnav, Rrest.
    destruct (restoreVolume_session s2) as (Vph & Vnav & Vrest).
    split; [done|]. split.
    { destruct Vrest as (_ & _ & _ & _ & -> & _).
      destruct Rrest as (_ & _ & _ & _ & -> & _).
      by destruct Prest as (_ & _ & _ & _ & -> & _). }
    split.
    { eapply same_nav_trans; [|exact Vnav].
      eapply same_nav_trans; [|exact Rnav].
      apply pushToNavigation_same_nav. by split. }
    split; [by rewrite Vph, Rph, Pph|].
    split.
    { destruct (restoreVolume_log s2) as (vols & -> & _ & Ht).
      rewrite Rlog, Plog. cbn. by rewrite drop_app_length. }
    intros Hinv.
    assert (same_mute s s2) as [Hm Hs].
    { destruct Pmute as [P1 P2], Rmute as [R1 R2]. cbn in P1, P2.
      split; congruence. }
    assert (mute_inv s2) as Hinv2 by (by apply (mute_inv_same s); [split|]).
    destruct (restoreVolume_spec s2 Hinv2) as (Hrm & _ & Hrv & _).
    split; [done|]. rewrite <- Hm, <- Hs. exact Hrv.
Qed.

(** *** The forward-skip handler *)

Lemma ensurePlaylistLoaded_spec (env : Env) (s : State) :
  let s1 := (ensurePlaylistLoaded env s).2 in
  log s1 = log s /\
  playHistory s1 = playHistory s /\
  same_nav s s1 /\
  same_mute s s1 /\
  volume s1 = volume s /\
  skipCounter s1 = skipCounter s /\
  isNativePassSkip s1 = isNativePassSkip s /\
  isHandlingAction s1 = isHandlingAction s /\
  ((ensurePlaylistLoaded env s).1 = true ->
   exists ctx ts,
     getContextUri env = Some ctx /\
     currentPlaylistTracks s1 = Some ts /\ ts <> []).
Proof.
  unfold ensurePlaylistLoaded.
  destruct (getContextUri env) as [ctx|] eqn:Hctx; [|by repeat split].
  destruct (truthy (Some ctx)); cbn [negb]; [|by repeat split].
  match goal with
  | |- context [ if ?c then _ else _ ] => destruct c
  end; cbn.
  - destruct (loadPlaylistTracks env (Some ctx)) as [[|t ts]|]; cbn;
      split_and!; try done; intros _; by exists ctx, (t :: ts).
  - destruct (currentPlaylistTracks s) as [[|t ts]|] eqn:Hl; cbn;
      split_and!; try done; intros _; by exists ctx, (t :: ts).
Qed.

Lemma ensurePlaylistLoaded_guard (env : Env) (b : bool) (s : State) :
  ensurePlaylistLoaded env (set_isHandlingAction b s)
  = ((ensurePlaylistLoaded env s).1,
     set_isHandlingAction b (ensurePlaylistLoaded env s).2).
Proof.
  unfold ensurePlaylistLoaded. cbn.
  destruct (truthy (getContextUri env)); cbn; [|done].
  match goal with
  | |- context [ if ?c then _ else _ ] => destruct c
  end; done.
Qed.

(** The first attempt of a True Shuffle pick, in a context and over a
    non-empty playlist: the selector's choice over the play history as it
    stands is asked of the player before anything else is; if that play
    command succeeds it is the only one. *)
Lemma trueShufflePick_first (env : Env) (ctx : string) (ts : list Track)
    (n call attempt : nat) (s : State) :
  getContextUri env = Some ctx ->
  currentPlaylistTracks s = Some ts ->
  ts <> [] ->
  let s' := trueShufflePick (S n) call attempt env s in
  exists t more,
    pickNextTrack (currentPlaylistTracks s) (playHistory s)
      (Math_random env attempt) = Some t /\
    t ∈ ts /\
    log s'
    = log s ++ Play ctx (Some (uri t)) (playOutcome env call) :: more /\
    (playOutcome env call = true ->
     plays more = [] /\ lastPlayedByUsUri s' = Some (uri t)).
Proof.
  intros Hctx Hts Hne s'. subst s'. cbn [trueShufflePick]. rewrite Hts.
  destruct (pickNextTrack_some ts (playHistory s) (Math_random env attempt) Hne)
    as (t & Hpick & Hin).
  rewrite Hpick.
  destruct (playTrackInContext_spec env ctx (Some (uri t))
              (playOutcome env call) s Hctx)
    as (s1 & vols & Hplay & (_ & _ & Hrest) & Hlog & Hpv & _ & Hlast & _).
  rewrite Hplay. exists t.
  destruct (playOutcome env call).
  - exists vols. split_and!; [done|done| |intros _; split; [done|]].
    + destruct (pushToNavigation_frame (Some (uri t)) s1) as (_ & -> & _).
      exact Hlog.
    + rewrite <- Hlast. unfold pushToNavigation. by repeat case_match.
  - set (s2 := set_playHistory _ s1).
    destruct (trueShufflePick_spec env ctx ts n Hctx Hne (S call) (S attempt)
                s2) as (failed & succ & new & Hl & _).
    { subst s2. cbn. by destruct Hrest as (_ & -> & _). }
    cbn zeta in Hl. exists (vols ++ new).
    split_and!; [done|done| |done].
    rewrite Hl. subst s2. cbn [log set_playHistory]. rewrite Hlog.
    by rewrite <- app_assoc.
Qed.

(** C5. A forward skip that gets past the guard and the playlist load with
    the cursor at the tail increments the skip counter, and is a native
    pass-through (flag set, guard released, player muted, native skip armed)
    exactly when the incremented counter is not a multiple of
    TRUE_SHUFFLE_EVERY; otherwise it runs the True Shuffle pick and arms no
    native skip: the first thing it asks of the player is to play the track
    the weighted selector returns for the loaded playlist and the play
    history as it stands once the playing track is recorded.  A context
    change resets the counter to 0, and with TRUE_SHUFFLE_EVERY = 3 the
    skips at counter 0 and 1 are native and the skip at counter 2 runs the
    selector. *)
Theorem handleSkipForward_cadence (env : Env) (s : State) :
  isHandlingAction s = false ->
  (ensurePlaylistLoaded env s).1 = true ->
  ~ navigationIndex s < Z.of_nat (length (navigationHistory s)) - 1 ->
  let s' := handleSkipForward env s in
  let counter := S (skipCounter s) in
  let s1 :=
    set_skipCounter counter
      (recordCurrentTrack env
         (set_isHandlingAction true (ensurePlaylistLoaded env s).2)) in
  let native := NativeSkip ∈ timers (drop (length (log s)) (log s')) in
  skipCounter s' = counter /\
  (native <-> (counter mod TRUE_SHUFFLE_EVERY CONFIG)%nat <> 0%nat) /\
  (native ->
   s' = release_guard_later (nativePassThrough s1) /\
   log s'
   = log s ++ [SetVolume 0; SetTimeout NativeSkip 50;
               SetTimeout GuardRelease 1500] /\
   isNativePassSkip s' = true /\ isHandlingAction s' = false) /\
  (~ native ->
   s' = release_guard_later (trueShufflePick 3 0 0 env s1) /\
   isHandlingAction s' = true /\
   exists ctx t more,
     getContextUri env = Some ctx /\
     pickNextTrack (currentPlaylistTracks s1) (playHistory s1)
       (Math_random env 0) = Some t /\
     drop (length (log s)) (log s')
     = Play ctx (Some (uri t)) (playOutcome env 0) :: more /\
     (playOutcome env 0 = true ->
      plays more = [] /\ lastPlayedByUsUri s' = Some (uri t))) /\
  (forall contextUri currentUri s0,
     skipCounter (contextChanged contextUri currentUri s0) = 0%nat) /\
  (TRUE_SHUFFLE_EVERY CONFIG = 3%nat ->
   (skipCounter s = 0%nat -> native) /\
   (skipCounter s = 1%nat -> native) /\
   (skipCounter s = 2%nat -> ~ native)).
Proof.
  intros Hguard Hloaded Htail s' counter s1 native.
  destruct (ensurePlaylistLoaded_spec env s)
    as (Elog & Eph & [Eh Ei] & Emute & Evol & Esc & Enp & Eha & Etracks).
  destruct (Etracks Hloaded) as (ctx & ts & Hctx & Hts & Hne).
  set (s0 := (ensurePlaylistLoaded env s).2) in *.
  destruct (recordCurrentTrack_frame env (set_isHandlingAction true s0))
    as (Rlog & Rvol & Rmute & Rrest).
  destruct (recordCurrentTrack_nav env (set_isHandlingAction true s0))
    as [Rh Ri].
  set (r := recordCurrentTrack env (set_isHandlingAction true s0)) in *.
  assert (skipCounter r = skipCounter s) as Hsc.
  { destruct Rrest as (_ & _ & _ & -> & _). cbn. done. }
  assert (replayForward env r = (false, 0%nat, r)) as Hreplay.
  { unfold replayForward. rewrite Rh, Ri. cbn. rewrite Eh, Ei.
    by apply Z.ltb_nlt in Htail as ->. }
  assert (s' = release_guard_later
                 (if negb (counter mod TRUE_SHUFFLE_EVERY CONFIG =? 0)%nat
                  then nativePassThrough s1
                  else trueShufflePick 3 0 0 env s1)) as Hs'.
  { subst s'. unfold handleSkipForward. rewrite Hguard.
    unfold skipForward_body. rewrite ensurePlaylistLoaded_guard, Hloaded.
    cbn [negb]. fold s0. fold r. rewrite Hreplay.
    cbn [set_skipCounter skipCounter]. rewrite Hsc. done. }
  assert (log s1 = log s) as Hlog1.
  { subst s1. cbn. rewrite Rlog. cbn. done. }
  assert (currentPlaylistTracks s1 = Some ts) as Hts1.
  { subst s1. cbn. destruct Rrest as (_ & -> & _). cbn. done. }
  assert (skipCounter s1 = counter /\ isHandlingAction s1 = true)
    as [Hsc1 Hha1].
  { subst s1. cbn. by destruct Rrest as (_ & _ & _ & _ & _ & -> & _). }
  clearbody s1 s'.
  assert ((counter mod TRUE_SHUFFLE_EVERY CONFIG)%nat <> 0%nat ->
          s' = release_guard_later (nativePassThrough s1) /\
          log s' = log s ++ [SetVolume 0; SetTimeout NativeSkip 50;
                             SetTimeout GuardRelease 1500] /\
          isNativePassSkip s' = true /\ isHandlingAction s' = false /\
          skipCounter s' = counter)
    as Hnative.
  { intros Hmod. apply Nat.eqb_neq in Hmod. rewrite Hmod in Hs'.
    cbn [negb] in Hs'. split; [done|]. rewrite Hs'.
    unfold nativePassThrough, release_guard_later.
    destruct (muteForSkip_spec
                (set_isHandlingAction false (set_isNativePassSkip true s1)))
      as (_ & _ & Ml & _ & _ & _ & Mrest).
    destruct Mrest as (_ & _ & _ & Msc & Mnp & Mha & _).
    cbn. rewrite Ml, Mnp, Mha, Msc. cbn. rewrite Hlog1, Hsc1.
    by rewrite <- !app_assoc. }
  assert ((counter mod TRUE_SHUFFLE_EVERY CONFIG)%nat = 0%nat ->
          s' = release_guard_later (trueShufflePick 3 0 0 env s1) /\
          isHandlingAction s' = true /\ skipCounter s' = counter /\
          timers (drop (length (log s)) (log s')) = [GuardRelease] /\
          exists t more,
            pickNextTrack (currentPlaylistTracks s1) (playHistory s1)
              (Math_random env 0) = Some t /\
            drop (length (log s)) (log s')
            = Play ctx (Some (uri t)) (playOutcome env 0) :: more /\
            (playOutcome env 0 = true ->
             plays more = [] /\ lastPlayedByUsUri s' = Some (uri t)))
    as Hselect.
  { intros Hmod. apply Nat.eqb_eq in Hmod. rewrite Hmod in Hs'.
    cbn [negb] in Hs'. split; [done|]. rewrite Hs'.
    destruct (trueShufflePick_spec env ctx ts 3 Hctx Hne 0%nat 0%nat s1 Hts1)
      as (failed & succ & new & Hl & _ & Ht & _ & _ & Hrest & _).
    destruct (trueShufflePick_first env ctx ts 2 0 0 s1 Hctx Hts1 Hne)
      as (t & more & Hpick & _ & Hfirst & Hok).
    cbn zeta in Hl, Hrest, Hfirst, Hok.
    destruct Hrest as (_ & _ & _ & Tsc & _ & Tha & _).
    unfold release_guard_later, emit.
    cbn [isHandlingAction skipCounter log set_log lastPlayedByUsUri].
    rewrite Tha, Tsc, Hha1, Hsc1.
    split_and!; [done..| |].
    - rewrite Hl, Hlog1, <- app_assoc, drop_app_length, timers_app, Ht. done.
    - exists t, (more ++ [SetTimeout GuardRelease 1500]).
      split_and!; [done| |].
      + rewrite Hfirst, Hlog1, <- app_assoc, drop_app_length. done.
      + intros Hplay. destruct (Hok Hplay) as [Hnone Hlast].
        split; [|done]. rewrite plays_app, Hnone. done. }
  assert (native <-> (counter mod TRUE_SHUFFLE_EVERY CONFIG)%nat <> 0%nat)
    as Hiff.
  { unfold native. split.
    - intros Hin Hmod. destruct (Hselect Hmod) as (_ & _ & _ & Ht & _).
      rewrite Ht in Hin. apply list_elem_of_singleton in Hin. done.
    - intros Hmod. destruct (Hnative Hmod) as (_ & -> & _).
      rewrite drop_app_length. cbn. left. }
  split.
  { destruct (decide ((counter mod TRUE_SHUFFLE_EVERY CONFIG)%nat = 0%nat))
      as [Hmod|Hmod].
    - by destruct (Hselect Hmod) as (_ & _ & ? & _).
    - by destruct (Hnative Hmod) as (_ & _ & _ & _ & ?). }
  split; [exact Hiff|]. split.
  { intros Hn. apply Hiff in Hn. destruct (Hnative Hn) as (? & ? & ? & ? & _).
    done. }
  split.
  { intros Hn.
    destruct (decide ((counter mod TRUE_SHUFFLE_EVERY CONFIG)%nat = 0%nat))
      as [Hmod|Hmod]; [|exfalso; apply Hn, Hiff, Hmod].
    destruct (Hselect Hmod) as (Heq & Hheld & _ & _ & t & more & Hfirst).
    split; [exact Heq|]. split; [exact Hheld|]. by exists ctx, t, more. }
  split.
  { intros c u s2. unfold contextChanged.
    destruct (truthy u); [|reflexivity].
    match goal with
    | |- skipCounter (pushToNavigation u ?x) = _ =>
        destruct (pushToNavigation_frame u x)
          as (_ & _ & _ & _ & _ & _ & _ & -> & _)
    end. reflexivity. }
  intros HE. rewrite !Hiff. subst counter. rewrite HE.
  split_and!; intros ->; cbn; lia.
Qed.

Lemma replayForward_spec (env : Env) (ctx : string) (s : State) :
  getContextUri env = Some ctx ->
  mute_inv s ->
  exists new,
    log (replayForward env s).2 = log s ++ new /\
    timers new = [] /\
    mute_inv (replayForward env s).2 /\
    same_rest s (replayForward env s).2 /\
    playHistory (replayForward env s).2 = playHistory s /\
    ((replayForward env s).1.1 = true ->
     smoothSkipMuted (replayForward env s).2 = false) /\
    ((replayForward env s).1.1 = false -> forall u, (u, true) ∉ plays new).
Proof.
  intros Hctx Hinv. unfold replayForward.
  destruct (navigationIndex s <? _).
  - destruct (playTrackInContext_spec env ctx
                (at_index (navigationHistory s) (navigationIndex s + 1))
                (playOutcome env 0)
                (set_navigationIndex (navigationIndex s + 1) s) Hctx)
      as (s1 & vols & Hplay & (Hph & _ & Hrest) & Hlog & Hpv & Htv & _ & Hm).
    cbn in Hplay |- *. rewrite Hplay.
    destruct (Hm Hinv) as (Hum & Hinv1 & _).
    exists (Play ctx (at_index (navigationHistory s) (navigationIndex s + 1))
              (playOutcome env 0) :: vols).
    destruct (playOutcome env 0); cbn [fst snd].
    + split_and!; rewrite ?timers_Play; done.
    + split_and!; rewrite ?timers_Play; try done.
      intros _ u. rewrite plays_Play, Hpv.
      intros [[=]|?%not_elem_of_nil]%elem_of_cons; done.
  - exists []. cbn. rewrite app_nil_r. split_and!; try done.
    intros _ u. apply not_elem_of_nil.
Qed.

(** The forward-skip handler from a state that satisfies [mute_inv]: it only
    adds to the log, it keeps [mute_inv], and if one of the play commands it
    added started a track it leaves the player unmuted. *)
Lemma handleSkipForward_spec (env : Env) (s : State) :
  mute_inv s ->
  exists new,
    log (handleSkipForward env s) = log s ++ new /\
    mute_inv (handleSkipForward env s) /\
    ((exists u, (u, true) ∈ plays new) ->
     smoothSkipMuted (handleSkipForward env s) = false).
Proof.
  intros Hinv. unfold handleSkipForward.
  destruct (isHandlingAction s).
  { exists []. rewrite app_nil_r. split_and!; [done..|].
    intros [u Hu]. by apply not_elem_of_nil in Hu. }
  unfold release_guard_later, emit.
  enough (exists new,
             log (skipForward_body env (set_isHandlingAction true s))
             = log s ++ new /\
             mute_inv (skipForward_body env (set_isHandlingAction true s)) /\
             ((exists u, (u, true) ∈ plays new) ->
              smoothSkipMuted
                (skipForward_body env (set_isHandlingAction true s)) = false))
    as (new & Hl & Hi & Hm).
  { exists (new ++ [SetTimeout GuardRelease 1500]).
    cbn [log set_log smoothSkipMuted].
    rewrite Hl, <- app_assoc. split_and!; [done|exact Hi|].
    rewrite plays_app. cbn. by rewrite app_nil_r. }
  unfold skipForward_body. rewrite ensurePlaylistLoaded_guard.
  destruct (ensurePlaylistLoaded_spec env s)
    as (Elog & Eph & _ & Emute & Evol & _ & _ & _ & Etracks).
  assert (mute_inv (set_isHandlingAction true (ensurePlaylistLoaded env s).2))
    as Hinv0.
  { apply (mute_inv_same s); [|done]. destruct Emute. by split. }
  destruct (ensurePlaylistLoaded env s).1 eqn:Hloaded; cbn [negb].
  2:{ exists []. cbn [log set_isHandlingAction].
      rewrite Elog, app_nil_r. split_and!; [done..|].
      intros [u Hu]. by apply not_elem_of_nil in Hu. }
  destruct (Etracks eq_refl) as (ctx & ts & Hctx & Hts & Hne).
  set (s0 := set_isHandlingAction true (ensurePlaylistLoaded env s).2) in *.
  destruct (recordCurrentTrack_frame env s0) as (Rlog & _ & Rmute & Rrest).
  set (r := recordCurrentTrack env s0) in *.
  assert (mute_inv r) as Hinvr by (by apply (mute_inv_same s0)).
  assert (log r = log s) as Hlogr by (by rewrite Rlog; cbn).
  assert (currentPlaylistTracks r = Some ts) as Htsr.
  { destruct Rrest as (_ & -> & _). by cbn. }
  destruct (replayForward_spec env ctx r Hctx Hinvr)
    as (new1 & Hl1 & Ht1 & Hinv1 & Hrest1 & _ & Hok1 & Hfail1).
  destruct (replayForward env r) as [[done_ calls] s1]. cbn [fst snd] in *.
  destruct done_.
  { exists new1. split_and!; [by rewrite Hl1, Hlogr|done|].
    intros _. by apply Hok1. }
  specialize (Hfail1 eq_refl).
  case_match.
  - exists (new1 ++ [SetVolume 0; SetTimeout NativeSkip 50]).
    unfold nativePassThrough, emit.
    assert (mute_inv
              (muteForSkip
                 (set_isHandlingAction false
                    (set_isNativePassSkip true
                       (set_skipCounter (S (skipCounter s1)) s1))))) as Hmi.
    { apply muteForSkip_mute_inv. by apply (mute_inv_same s1); [split|]. }
    destruct (muteForSkip_spec
                (set_isHandlingAction false
                   (set_isNativePassSkip true
                      (set_skipCounter (S (skipCounter s1)) s1))))
      as (_ & _ & Hml & _).
    cbn [log set_log]. rewrite Hml.
    cbn. rewrite Hl1, Hlogr, <- !app_assoc. split_and!; [done|exact Hmi|].
    rewrite plays_app. cbn. rewrite app_nil_r. intros [u Hu].
    by apply Hfail1 in Hu.
  - set (s2 := set_skipCounter (S (skipCounter s1)) s1).
    assert (mute_inv s2) as Hinv2 by (by apply (mute_inv_same s1); [split|]).
    destruct (trueShufflePick_spec env ctx ts 3 Hctx Hne calls 0%nat s2)
      as (failed & succ & new2 & Hl2 & Hp2 & _ & _ & _ & _ & Hmi & Hcase).
    { subst s2. cbn. destruct Hrest1 as (_ & -> & _). done. }
    cbn zeta in *. exists (new1 ++ new2).
    split; [rewrite Hl2; subst s2; cbn; by rewrite Hl1, Hlogr, <- app_assoc|].
    split; [by apply Hmi|].
    intros [u Hu].
    destruct Hcase as [(t & -> & _ & _ & Hm)|(-> & _ & _)].
    + by apply Hm.
    + exfalso. rewrite plays_app, Hp2, app_nil_r in Hu.
      apply elem_of_app in Hu as [Hu|Hu]; [by apply Hfail1 in Hu|].
      apply list_elem_of_fmap in Hu as (? & [=] & _).
Qed.

(** *** The mute invariant along a run *)

Lemma restoreVolume_mute_inv (s : State) : mute_inv s -> mute_inv (restoreVolume s).
Proof.
  intros Hinv Hm. destruct (restoreVolume_spec s Hinv) as (Hf & _).
  congruence.
Qed.

Lemma playTrackInContext_mute_inv (env : Env) (u : option string) (ok : bool)
    (s : State) :
  mute_inv s -> mute_inv (playTrackInContext env u ok s).2.
Proof.
  intros Hinv. destruct (getContextUri env) as [ctx|] eqn:Hctx.
  - destruct (playTrackInContext_spec env ctx u ok s Hctx)
      as (s1 & vols & -> & _ & _ & _ & _ & _ & Hm).
    by destruct (Hm Hinv) as (_ & ? & _).
  - unfold playTrackInContext. by rewrite Hctx.
Qed.

Lemma handleSkipBack_mute_inv (env : Env) (s : State) :
  mute_inv s -> mute_inv (handleSkipBack env s).
Proof.
  intros Hinv. unfold handleSkipBack. destruct (isHandlingAction s); [done|].
  apply (mute_inv_same
           (if 0 <? navigationIndex (set_isHandlingAction true s)
            then (playTrackInContext env
                    (at_index
                       (navigationHistory
                          (set_navigationIndex
                             (navigationIndex (set_isHandlingAction true s) - 1)
                             (set_isHandlingAction true s)))
                       (navigationIndex
                          (set_navigationIndex
                             (navigationIndex (set_isHandlingAction true s) - 1)
                             (set_isHandlingAction true s))))
                    (playOutcome env 0)
                    (set_navigationIndex
                       (navigationIndex (set_isHandlingAction true s) - 1)
                       (set_isHandlingAction true s))).2
            else emit (Seek 0) (set_isHandlingAction true s))); [by split|].
  destruct (0 <? _).
  - apply playTrackInContext_mute_inv. by apply (mute_inv_same s); [split|].
  - by apply (mute_inv_same s); [split|].
Qed.

Lemma songchange_mute_inv (env : Env) (s : State) :
  mute_inv s -> mute_inv (songchange env s).
Proof.
  intros Hinv. unfold songchange.
  destruct (isHandlingAction s); [done|].
  destruct (isNativePassSkip s).
  { unfold validateNativePick.
    destruct (data_item env ≫= item_uri) as [u|]; [|done].
    destruct (truthy (Some u)); cbn [negb]; [|done].
    destruct (bool_decide _).
    - apply (mute_inv_same
               (muteForSkip
                  (set_isNativePassSkip true (set_isNativePassSkip false s))));
        [by split|].
      apply muteForSkip_mute_inv. by apply (mute_inv_same s); [split|].
    - apply restoreVolume_mute_inv.
      destruct (recordCurrentTrack_frame env
                  (pushToNavigation (Some u) (set_isNativePassSkip false s)))
        as (_ & _ & Rmute & _).
      apply (mute_inv_same _ _ Rmute).
      destruct (pushToNavigation_frame (Some u) (set_isNativePassSkip false s))
        as (_ & _ & Pmute & _).
      apply (mute_inv_same _ _ Pmute). by apply (mute_inv_same s); [split|]. }
  destruct (_ && _); [done|].
  destruct (negb (bool_decide _)).
  { unfold contextChanged.
    destruct (truthy _); [|by apply (mute_inv_same s); [split|]].
    match goal with
    | |- mute_inv (pushToNavigation ?u ?x) =>
        destruct (pushToNavigation_frame u x) as (_ & _ & Pmute & _)
    end.
    apply (mute_inv_same _ _ Pmute). by apply (mute_inv_same s); [split|]. }
  destruct (negb _); [done|].
  destruct (_ && _); [|done].
  by destruct (handleSkipForward_spec env s Hinv) as (_ & _ & ? & _).
Qed.

Lemma step_mute_inv (env : Env) (ev : Event) (s : State) :
  mute_inv s -> mute_inv (step env ev s).
Proof.
  intros Hinv.
  assert (mute_inv (handleSkipForward env (muteForSkip s))) as Hnext.
  { apply muteForSkip_mute_inv in Hinv.
    by destruct (handleSkipForward_spec env _ Hinv) as (_ & _ & ? & _). }
  destruct ev; cbn [step].
  - unfold Player_next. by destruct (isInTrueShuffleMode env s).
  - unfold Player_back. destruct (isInTrueShuffleMode env s); [|done].
    by apply handleSkipBack_mute_inv.
  - unfold PlayerAPI_skipToNext.
    destruct (isHandlingAction s); [done|].
    by destruct (isInTrueShuffleMode env s).
  - unfold PlayerAPI_skipToPrevious.
    destruct (isHandlingAction s); [done|].
    destruct (isInTrueShuffleMode env s); [|done].
    by apply handleSkipBack_mute_inv.
  - by apply songchange_mute_inv.
  - done.
  - done.
  - done.
  - by destruct (loadPlaylistTracks env contextUri).
  - done.
Qed.

Lemma run_mute_inv (trace : list (Env * Event)) (s : State) :
  mute_inv s -> mute_inv (run trace s).
Proof.
  revert s. induction trace as [|[env ev] trace IH]; intros s Hs; [done|].
  apply IH. by apply step_mute_inv.
Qed.

(** Every state a run reaches from start-up satisfies [mute_inv]. *)
Lemma reachable_mute_inv (v : float) (trace : list (Env * Event)) :
  mute_inv (run trace (initial_state v)).
Proof. apply run_mute_inv. intros [=]. Qed.

(** C6. A track-changed event that finds the pending-native flag set (and
    the re-entrancy guard free) checks the new track against the first
    NO_REPEAT_WINDOW entries of the play history.  Inside the window: the flag
    is set again, the player is muted and another native skip is armed, with
    no volume restored and no history touched.  Outside: the track is pushed
    onto the navigation history - it becomes the last entry, after the
    entries up to the cursor, with the cursor on it - recorded in front of
    the play history, and the volume is restored. *)
Theorem songchange_validates_native_pick (env : Env) (item : Item)
    (u : string) (s : State) :
  isHandlingAction s = false ->
  isNativePassSkip s = true ->
  data_item env = Some item ->
  item_uri item = Some u ->
  truthy (Some u) = true ->
  let s' := songchange env s in
  (u ∈ recentWindow (NO_REPEAT_WINDOW CONFIG) (playHistory s) ->
   log s' = log s ++ [SetVolume 0; SetTimeout NativeSkip 50] /\
   isNativePassSkip s' = true /\
   smoothSkipMuted s' = true /\
   volume s' = 0%float /\
   playHistory s' = playHistory s /\
   same_nav s s') /\
  (u ∉ recentWindow (NO_REPEAT_WINDOW CONFIG) (playHistory s) ->
   s' = restoreVolume
          (recordCurrentTrack env
             (pushToNavigation (Some u) (set_isNativePassSkip false s))) /\
   isNativePassSkip s' = false /\
   same_nav (pushToNavigation (Some u) s) s' /\
   (let kept :=
      if navigationIndex s <? Z.of_nat (length (navigationHistory s)) - 1
      then slice (navigationHistory s) 0 (Some (navigationIndex s + 1))
      else navigationHistory s in
    navigationHistory s'
    = drop (length (kept ++ [u]) - HISTORY_SIZE CONFIG) (kept ++ [u]) /\
    navigationIndex s' = Z.of_nat (length (navigationHistory s')) - 1 /\
    ((0 < HISTORY_SIZE CONFIG)%nat ->
     last (navigationHistory s') = Some u)) /\
   playHistory s'
   = take (HISTORY_SIZE CONFIG)
       ({| h_uri := u; h_artistUri := or_null (item_artist_uri item) |}
        :: filter (fun h => h_uri h <> u) (playHistory s)) /\
   timers (drop (length (log s)) (log s')) = [] /\
   (mute_inv s ->
    smoothSkipMuted s' = false /\
    (smoothSkipMuted s = true -> Some (volume s') = savedVolume s))).
Proof.
  intros Hguard Hflag Hitem Huri Hu s'. subst s'.
  rewrite (songchange_native env s Hguard Hflag), Hitem. cbn. rewrite Huri.
  destruct (validateNativePick_spec env item u s Hitem Huri Hu)
    as [Hreject Haccept].
  split; [exact Hreject|]. intros Hout.
  destruct (Haccept Hout) as (Hs' & Hflag' & Hnav & Hph & Htimers & Hmute).
  refine (conj Hs' (conj Hflag' (conj Hnav
            (conj _ (conj Hph (conj Htimers Hmute)))))).
  by apply pushToNavigation_pushed.
Qed.

(** *** Where the volume changes *)

Lemma quiet_app (l1 l2 : list Command) : quiet l1 -> quiet l2 -> quiet (l1 ++ l2).
Proof.
  intros H1 H2. induction H1; cbn; [done|..].
  - by apply quiet_restore.
  - by apply quiet_native.
  - by apply quiet_other.
Qed.

Lemma quiet_timer (t : Timer) (d : Z) : quiet [SetTimeout t d].
Proof. apply quiet_other; [done|apply quiet_nil]. Qed.

(** A play command with what [restoreVolume] logs after it. *)
Lemma quiet_play_restored (ctx : string) (u : option string) (ok : bool)
    (s : State) :
  exists vols,
    log (restoreVolume s) = log s ++ vols /\
    quiet (Play ctx u ok :: vols).
Proof.
  unfold restoreVolume. repeat case_match.
  - eexists [_]. split; [done|]. apply quiet_restore, quiet_nil.
  - exists []. rewrite app_nil_r. split; [done|].
    apply quiet_other; [done|apply quiet_nil].
  - exists []. rewrite app_nil_r. split; [done|].
    apply quiet_other; [done|apply quiet_nil].
Qed.

Lemma playTrackInContext_quiet (env : Env) (u : option string) (ok : bool)
    (s : State) :
  exists new,
    log (playTrackInContext env u ok s).2 = log s ++ new /\ quiet new.
Proof.
  unfold playTrackInContext.
  destruct (getContextUri env) as [ctx|].
  2:{ exists []. rewrite app_nil_r. split; [done|apply quiet_nil]. }
  destruct ok; cbn [snd].
  - destruct (quiet_play_restored ctx u true
                (emit (Play ctx u true) (set_lastPlayedByUsUri u s)))
      as (vols & -> & Hq).
    exists (Play ctx u true :: vols). split; [|done].
    cbn. by rewrite <- app_assoc.
  - destruct (quiet_play_restored ctx u false
                (set_lastPlayedByUsUri None
                   (emit (Play ctx u false) (set_lastPlayedByUsUri u s))))
      as (vols & -> & Hq).
    exists (Play ctx u false :: vols). split; [|done].
    cbn. by rewrite <- app_assoc.
Qed.

Lemma replayForward_quiet (env : Env) (s : State) :
  exists new, log (replayForward env s).2 = log s ++ new /\ quiet new.
Proof.
  unfold replayForward. destruct (navigationIndex s <? _).
  - destruct (playTrackInContext_quiet env
                (at_index (navigationHistory s) (navigationIndex s + 1))
                (playOutcome env 0)
                (set_navigationIndex (navigationIndex s + 1) s))
      as (new & Hl & Hq).
    cbn in Hl |- *. destruct (playTrackInContext _ _ _ _) as [ok s1].
    exists new. by destruct ok.
  - exists []. rewrite app_nil_r. split; [done|apply quiet_nil].
Qed.

Lemma trueShufflePick_quiet (n call attempt : nat) (env : Env) (s : State) :
  exists new,
    log (trueShufflePick n call attempt env s) = log s ++ new /\ quiet new.
Proof.
  revert call attempt s. induction n as [|n IH]; intros call attempt s;
    cbn [trueShufflePick].
  { exists []. rewrite app_nil_r. split; [done|apply quiet_nil]. }
  destruct (pickNextTrack _ _ _) as [t|].
  2:{ exists []. rewrite app_nil_r. split; [done|apply quiet_nil]. }
  destruct (playTrackInContext_quiet env (Some (uri t)) (playOutcome env call) s)
    as (new & Hl & Hq).
  destruct (playTrackInContext _ _ _ _) as [ok s1]. cbn [snd] in Hl.
  destruct ok.
  - exists new. split; [|done].
    by destruct (pushToNavigation_frame (Some (uri t)) s1) as (_ & -> & _).
  - match goal with
    | |- context [trueShufflePick n ?c ?a env ?x] =>
        destruct (IH c a x) as (new2 & Hl2 & Hq2)
    end.
    exists (new ++ new2). split; [|by apply quiet_app].
    rewrite Hl2. cbn [log set_playHistory]. by rewrite Hl, <- app_assoc.
Qed.

Lemma nativePassThrough_log (s : State) :
  log (nativePassThrough s) = log s ++ [SetVolume 0; SetTimeout NativeSkip 50].
Proof.
  unfold nativePassThrough, emit.
  destruct (muteForSkip_spec
              (set_isHandlingAction false (set_isNativePassSkip true s)))
    as (_ & _ & Hl & _).
  cbn [log set_log]. rewrite Hl. cbn. by rewrite <- app_assoc.
Qed.

(** The forward-skip handler changes the volume only right after a play
    command of its own, or to mute for a native pass-through. *)
Lemma handleSkipForward_quiet (env : Env) (s : State) :
  exists new, log (handleSkipForward env s) = log s ++ new /\ quiet new.
Proof.
  unfold handleSkipForward. destruct (isHandlingAction s).
  { exists []. rewrite app_nil_r. split; [done|apply quiet_nil]. }
  enough (exists new,
             log (skipForward_body env (set_isHandlingAction true s))
             = log s ++ new /\ quiet new) as (new & Hl & Hq).
  { exists (new ++ [SetTimeout GuardRelease 1500]).
    unfold release_guard_later, emit. cbn [log set_log].
    rewrite Hl, <- app_assoc. split; [done|].
    apply quiet_app; [done|apply quiet_timer]. }
  unfold skipForward_body. rewrite ensurePlaylistLoaded_guard.
  destruct (ensurePlaylistLoaded_spec env s) as (Elog & _).
  destruct (ensurePlaylistLoaded env s).1; cbn [negb].
  2:{ exists []. cbn [log set_isHandlingAction].
      rewrite Elog, app_nil_r. split; [done|apply quiet_nil]. }
  set (s0 := set_isHandlingAction true (ensurePlaylistLoaded env s).2).
  destruct (recordCurrentTrack_frame env s0) as (Rlog & _).
  set (r := recordCurrentTrack env s0) in *.
  assert (log r = log s) as Hlogr by (by rewrite Rlog; cbn).
  destruct (replayForward_quiet env r) as (new1 & Hl1 & Hq1).
  destruct (replayForward env r) as [[done_ calls] s1]. cbn [snd] in Hl1.
  destruct done_.
  { exists new1. by rewrite Hl1, Hlogr. }
  case_match.
  - exists (new1 ++ [SetVolume 0; SetTimeout NativeSkip 50]).
    rewrite nativePassThrough_log. cbn [log set_skipCounter].
    rewrite Hl1, Hlogr, <- app_assoc. split; [done|].
    apply quiet_app; [done|]. apply quiet_native, quiet_nil.
  - destruct (trueShufflePick_quiet 3 calls 0 env
                (set_skipCounter (S (skipCounter s1)) s1))
      as (new2 & Hl2 & Hq2).
    exists (new1 ++ new2). rewrite Hl2. cbn [log set_skipCounter].
    rewrite Hl1, Hlogr, <- app_assoc. split; [done|]. by apply quiet_app.
Qed.

(** What a forward skip that gets past the guard logs first: a play
    command, unless it issues none at all. *)
Lemma handleSkipForward_first (env : Env) (s : State) :
  isHandlingAction s = false ->
  let new := drop (length (log s)) (log (handleSkipForward env s)) in
  plays new = [] \/ exists ctx u ok post, new = Play ctx u ok :: post.
Proof.
  intros Hguard new. subst new. unfold handleSkipForward. rewrite Hguard.
  unfold release_guard_later, emit. cbn [log set_log].
  unfold skipForward_body. rewrite ensurePlaylistLoaded_guard.
  destruct (ensurePlaylistLoaded_spec env s) as (Elog & _ & _ & _ & _ & _ & _ & _ & Etracks).
  destruct (ensurePlaylistLoaded env s).1; cbn [negb].
  2:{ left. cbn [log set_isHandlingAction]. rewrite Elog, drop_app_length.
      done. }
  destruct (Etracks eq_refl) as (ctx & ts & Hctx & Hts & Hne).
  set (s0 := set_isHandlingAction true (ensurePlaylistLoaded env s).2) in *.
  destruct (recordCurrentTrack_frame env s0) as (Rlog & _ & _ & Rrest).
  set (r := recordCurrentTrack env s0) in *.
  assert (log r = log s) as Hlogr by (by rewrite Rlog; cbn).
  assert (currentPlaylistTracks r = Some ts) as Htsr.
  { destruct Rrest as (_ & -> & _). by cbn. }
  unfold replayForward.
  destruct (navigationIndex r <? _).
  - right.
    destruct (playTrackInContext_spec env ctx
                (at_index (navigationHistory r) (navigationIndex r + 1))
                (playOutcome env 0)
                (set_navigationIndex (navigationIndex r + 1) r) Hctx)
      as (s1 & vols & Hplay & _ & Hlog & _).
    remember (trueShufflePick 3) as pick eqn:Hpick.
    cbn in Hplay, Hlog |- *. rewrite Hplay. subst pick.
    destruct (playOutcome env 0) eqn:Hok; cbn [negb].
    + eexists ctx, _, _, _.
      rewrite Hlog, Hlogr, <- !app_assoc, drop_app_length. cbn. done.
    + case_match.
      * eexists ctx, _, _, _. rewrite nativePassThrough_log.
        cbn [log set_skipCounter set_navigationIndex].
        rewrite Hlog, Hlogr, <- !app_assoc, drop_app_length. cbn. done.
      * match goal with
        | |- context [trueShufflePick 3 ?c ?a env ?x] =>
            destruct (trueShufflePick_quiet 3 c a env x) as (new2 & Hl2 & _)
        end.
        eexists ctx, _, _, _. rewrite Hl2.
        cbn [log set_skipCounter set_navigationIndex].
        rewrite Hlog, Hlogr, <- !app_assoc, drop_app_length. cbn. done.
  - case_match.
    + left. rewrite nativePassThrough_log. cbn [log set_skipCounter].
      rewrite Hlogr, <- !app_assoc, drop_app_length. done.
    + right.
      destruct (trueShufflePick_first env ctx ts 2 0 0
                  (set_skipCounter (S (skipCounter r)) r) Hctx Htsr Hne)
        as (t & more & _ & _ & Hfirst & _).
      cbn zeta in Hfirst. eexists ctx, _, _, _. rewrite Hfirst.
      cbn [log set_skipCounter].
      rewrite Hlogr, <- !app_assoc, drop_app_length. cbn. done.
Qed.

(** *** Where the player is unmuted

    Nothing but [restoreVolume] clears the mute, and the code before the
    await of a play command, or after any other await, does not reach it. *)

Lemma play_issue_muted (env : Env) (u : option string) (ok : bool)
    (s s1 : State) :
  play_issue env u ok s = Some s1 -> smoothSkipMuted s1 = smoothSkipMuted s.
Proof.
  unfold play_issue. destruct (getContextUri env); [|done]. by intros [= <-].
Qed.

Lemma nativePassThrough_muted (s : State) :
  smoothSkipMuted (nativePassThrough s) = true.
Proof.
  unfold nativePassThrough, emit. cbn [smoothSkipMuted set_log].
  by destruct (muteForSkip_spec
                 (set_isHandlingAction false (set_isNativePassSkip true s)))
    as (-> & _).
Qed.

Lemma pick_from_muted (n call attempt : nat) (env : Env) (s : State) :
  smoothSkipMuted s = true ->
  smoothSkipMuted (pick_from n call attempt env s).1 = true.
Proof.
  revert call attempt s. induction n as [|n IH]; intros call attempt s Hm;
    cbn [pick_from]; [done|].
  destruct (pickNextTrack _ _ _) as [t|]; [|done].
  destruct (play_issue _ _ _ _) as [s1|] eqn:Hp.
  - cbn [fst]. by rewrite (play_issue_muted _ _ _ _ _ Hp).
  - by apply IH.
Qed.

Lemma cadence_from_muted (calls : nat) (env : Env) (s : State) :
  smoothSkipMuted s = true ->
  smoothSkipMuted (cadence_from calls env s).1 = true.
Proof.
  intros Hm. unfold cadence_from. cbv zeta. destruct (negb _).
  - cbn [finish fst]. unfold release_guard_later, emit.
    cbn [smoothSkipMuted set_log]. apply nativePassThrough_muted.
  - by apply pick_from_muted.
Qed.

Lemma after_load_muted (env : Env) (s : State) :
  smoothSkipMuted s = true ->
  smoothSkipMuted (after_load env s).1 = true.
Proof.
  intros Hm. unfold after_load. cbv zeta. destruct (negb _); [done|].
  destruct (recordCurrentTrack_frame env s) as (_ & _ & [Rm _] & _).
  rewrite <- Rm in Hm.
  destruct (navigationIndex _ <? _).
  - destruct (play_issue _ _ _ _) as [s1|] eqn:Hp.
    + cbn [fst]. by rewrite (play_issue_muted _ _ _ _ _ Hp).
    + by apply cadence_from_muted.
  - by apply cadence_from_muted.
Qed.

Lemma handleSkipForward_start_muted (env : Env) (s : State) :
  smoothSkipMuted s = true ->
  smoothSkipMuted (handleSkipForward_start env s).1 = true.
Proof.
  intros Hm. unfold handleSkipForward_start.
  destruct (isHandlingAction s); [done|]. cbv zeta.
  destruct (negb (truthy _)); [done|].
  destruct (_ || _); [|by apply after_load_muted].
  destruct (getContextUri env) as [c|]; [|by apply after_load_muted].
  destruct (isPlaylistUri _); [done|]. by apply after_load_muted.
Qed.

Lemma handleSkipBack_start_muted (env : Env) (s : State) :
  smoothSkipMuted s = true ->
  smoothSkipMuted (handleSkipBack_start env s).1 = true.
Proof.
  intros Hm. unfold handleSkipBack_start.
  destruct (isHandlingAction s); [done|]. cbv zeta.
  destruct (0 <? _); [|done].
  destruct (play_issue _ _ _ _) as [s1|] eqn:Hp; [|done].
  cbn [fst]. by rewrite (play_issue_muted _ _ _ _ _ Hp).
Qed.

Lemma contextChanged_mute (contextUri currentUri : option string)
    (s : State) :
  same_mute s (contextChanged contextUri currentUri s).
Proof.
  unfold contextChanged. destruct (truthy currentUri); [|by split].
  match goal with
  | |- same_mute s (pushToNavigation ?u ?x) =>
      destruct (pushToNavigation_frame u x) as (_ & _ & [P1 P2] & _)
  end.
  split; [by rewrite P1|by rewrite P2].
Qed.

(** One turn of the event loop unmutes a muted player only if it settles a
    play command of the extension's own, or is a track-changed event that
    finds the guard free, the pending-native flag set and the playing track
    outside the no-repeat window. *)
Lemma exec_step_unmutes (env : Env) (t : Turn) (m m' : Machine) :
  exec_step env t m = Some m' ->
  smoothSkipMuted (vars m) = true ->
  smoothSkipMuted (vars m') = false ->
  (exists i k,
     t = Settle i /\ awaiting m !! i = Some k /\ awaits_play k = true) \/
  (t = Dispatch SongChange /\
   isHandlingAction (vars m) = false /\
   isNativePassSkip (vars m) = true /\
   exists u,
     data_item env ≫= item_uri = Some u /\
     truthy (Some u) = true /\
     u ∉ recentWindow (NO_REPEAT_WINDOW CONFIG) (playHistory (vars m))).
Proof.
  intros Hstep Hm Hm'.
  pose proof (handleSkipForward_start_muted env) as Hforward.
  pose proof (handleSkipBack_start_muted env) as Hback.
  destruct (muteForSkip_spec (vars m)) as (Hmuted & _).
  destruct t as [ev|i|i]; cbn [exec_step] in Hstep.
  - destruct ev; try done; injection Hstep as <-;
      cbn [absorb vars begin step] in Hm'.
    + destruct (isInTrueShuffleMode env (vars m)).
      * rewrite Hforward in Hm'; done.
      * cbn in Hm'. congruence.
    + destruct (isInTrueShuffleMode env (vars m)).
      * rewrite Hback in Hm'; done.
      * cbn in Hm'. congruence.
    + destruct (isHandlingAction (vars m)); [cbn in Hm'; congruence|].
      destruct (isInTrueShuffleMode env (vars m)).
      * rewrite Hforward in Hm'; done.
      * cbn in Hm'. congruence.
    + destruct (isHandlingAction (vars m)); [cbn in Hm'; congruence|].
      destruct (isInTrueShuffleMode env (vars m)).
      * rewrite Hback in Hm'; done.
      * cbn in Hm'. congruence.
    + unfold songchange_start in Hm'.
      destruct (isHandlingAction (vars m)) eqn:Hguard;
        [cbn in Hm'; congruence|].
      destruct (isNativePassSkip (vars m)) eqn:Hflag.
      { cbn [fst] in Hm'. right. split_and!; [done..|].
        unfold validateNativePick in Hm'.
        destruct (data_item env ≫= item_uri) as [u|];
          [|cbn in Hm'; congruence].
        destruct (truthy (Some u)) eqn:Hu; cbn [negb] in Hm';
          [|cbn in Hm'; congruence].
        exists u. split_and!; [done..|].
        intros Hin. rewrite bool_decide_eq_true_2 in Hm'
          by (by rewrite recentUris_window).
        unfold emit in Hm'. cbn [smoothSkipMuted set_log] in Hm'.
        destruct (muteForSkip_spec
                    (set_isNativePassSkip true
                       (set_isNativePassSkip false (vars m))))
          as (Hmu & _).
        congruence. }
      destruct (_ && _); [cbn in Hm'; congruence|].
      destruct (negb (bool_decide _)).
      { cbn [fst] in Hm'.
        destruct (contextChanged_mute (getContextUri env)
                    (data_item env ≫= item_uri) (vars m)) as [Hc _].
        congruence. }
      destruct (negb _); [cbn in Hm'; congruence|].
      destruct (_ && _); [|cbn in Hm'; congruence].
      rewrite Hforward in Hm'; done.
    + cbn in Hm'. congruence.
    + cbn in Hm'. congruence.
  - destruct (armed m !! i) as [[]|]; [| |done]; injection Hstep as <-;
      cbn in Hm'; congruence.
  - destruct (awaiting m !! i) as [k|] eqn:Hk; [|done].
    injection Hstep as <-. cbn [absorb vars] in Hm'.
    destruct k;
      try (left; eexists i, _; split_and!; [done|exact Hk|done]).
    + cbn [resume] in Hm'. rewrite after_load_muted in Hm'; done.
    + cbn [resume step fst] in Hm'.
      destruct (loadPlaylistTracks _ _); cbn in Hm'; congruence.
Qed.

(** C2, amended. A forward skip requested through [Player.next] or
    [PlayerAPI.skipToNext] mutes before anything else it does; one that the
    track-changed listener starts at the end of a track does not: if it
    plays anything itself, a play command is the first thing it asks of the
    player.  After the mute the volume changes only right after a play
    command of the skip's own - the restore, whether the track started or
    the command failed - or to 0 again for a native pass-through; and in the
    event loop no turn unmutes a muted player but one that settles a play
    command of the extension's own or accepts a native pick.  A native pick
    that is rejected leaves the player muted.  So the player is never left
    muted once a pick is accepted: not after a skip one of whose play
    commands started a track, and not after an accepted native pick. *)
Theorem volume_restored_when_play_completes (env : Env) (s : State) :
  mute_inv s ->
  (isInTrueShuffleMode env s = true ->
   (exists rest,
      log (Player_next env s) = log s ++ SetVolume 0 :: rest /\
      quiet rest /\
      ((exists u, (u, true) ∈ plays rest) ->
       smoothSkipMuted (Player_next env s) = false)) /\
   (isHandlingAction s = false ->
    exists rest,
      log (PlayerAPI_skipToNext env s) = log s ++ SetVolume 0 :: rest /\
      quiet rest /\
      ((exists u, (u, true) ∈ plays rest) ->
       smoothSkipMuted (PlayerAPI_skipToNext env s) = false))) /\
  (isHandlingAction s = false ->
   isNativePassSkip s = false ->
   truthy (data_item env ≫= item_uri)
   && bool_decide (data_item env ≫= item_uri = lastPlayedByUsUri s) = false ->
   getContextUri env = lastContextUri s ->
   isInTrueShuffleMode env s = true ->
   0 < lastDuration s ->
   lastDuration s - lastProgress s < 5000 ->
   let new := drop (length (log s)) (log (songchange env s)) in
   songchange env s = handleSkipForward env s /\
   (plays new = [] \/ exists ctx u ok post, new = Play ctx u ok :: post) /\
   quiet new /\
   ((exists u, (u, true) ∈ plays new) ->
    smoothSkipMuted (songchange env s) = false)) /\
  (forall ctx u ok,
     getContextUri env = Some ctx ->
     let s' := (playTrackInContext env u ok s).2 in
     smoothSkipMuted s' = false /\
     (smoothSkipMuted s = true -> Some (volume s') = savedVolume s) /\
     (smoothSkipMuted s = false -> volume s' = volume s)) /\
  (forall item u,
     isHandlingAction s = false ->
     isNativePassSkip s = true ->
     data_item env = Some item ->
     item_uri item = Some u ->
     truthy (Some u) = true ->
     let s' := songchange env s in
     (u ∉ recentWindow (NO_REPEAT_WINDOW CONFIG) (playHistory s) ->
      smoothSkipMuted s' = false /\
      (smoothSkipMuted s = true -> Some (volume s') = savedVolume s)) /\
     (u ∈ recentWindow (NO_REPEAT_WINDOW CONFIG) (playHistory s) ->
      smoothSkipMuted s' = true /\ volume s' = 0%float)) /\
  (forall (t : Turn) (m m' : Machine),
     vars m = s ->
     exec_step env t m = Some m' ->
     smoothSkipMuted s = true ->
     smoothSkipMuted (vars m') = false ->
     (exists i k,
        t = Settle i /\ awaiting m !! i = Some k /\ awaits_play k = true) \/
     (t = Dispatch SongChange /\
      isHandlingAction s = false /\
      isNativePassSkip s = true /\
      exists u,
        data_item env ≫= item_uri = Some u /\
        truthy (Some u) = true /\
        u ∉ recentWindow (NO_REPEAT_WINDOW CONFIG) (playHistory s))).
Proof.
  intros Hinv.
  assert (forall s0, mute_inv s0 ->
            exists rest,
              log (handleSkipForward env (muteForSkip s0))
              = log s0 ++ SetVolume 0 :: rest /\
              quiet rest /\
              ((exists u, (u, true) ∈ plays rest) ->
               smoothSkipMuted (handleSkipForward env (muteForSkip s0))
               = false)) as Hrequested.
  { intros s0 Hinv0.
    destruct (muteForSkip_spec s0) as (_ & _ & Hl & _).
    destruct (handleSkipForward_spec env (muteForSkip s0)
                (muteForSkip_mute_inv s0 Hinv0)) as (new & Hlog & _ & Hm).
    destruct (handleSkipForward_quiet env (muteForSkip s0))
      as (new' & Hlog' & Hq).
    rewrite Hlog in Hlog'. apply app_inv_head in Hlog' as <-.
    exists new. split_and!; [|exact Hq|exact Hm].
    by rewrite Hlog, Hl, <- app_assoc. }
  split_and!.
  - intros Hmode. split.
    + unfold Player_next. rewrite Hmode. by apply Hrequested.
    + intros Hguard. unfold PlayerAPI_skipToNext. rewrite Hguard, Hmode.
      by apply Hrequested.
  - intros Hguard Hflag Hecho Hctx Hmode Hpos Hend new. subst new.
    assert (songchange env s = handleSkipForward env s) as ->.
    { unfold songchange. rewrite Hguard, Hflag, Hecho, Hmode.
      rewrite bool_decide_eq_true_2 by done. cbn [negb].
      apply Z.ltb_lt in Hpos as ->. by apply Z.ltb_lt in Hend as ->. }
    destruct (handleSkipForward_spec env s Hinv) as (new & Hlog & _ & Hm).
    destruct (handleSkipForward_quiet env s) as (new' & Hlog' & Hq).
    rewrite Hlog in Hlog'. apply app_inv_head in Hlog' as <-.
    pose proof (handleSkipForward_first env s Hguard) as Hfirst.
    cbv zeta in Hfirst. rewrite Hlog, drop_app_length in Hfirst |- *.
    by split_and!.
  - intros ctx u ok Hctx s'. subst s'.
    destruct (playTrackInContext_spec env ctx u ok s Hctx)
      as (s1 & vols & -> & _ & _ & _ & _ & _ & Hm).
    by destruct (Hm Hinv) as (? & _ & ? & ?).
  - intros item u Hguard Hflag Hitem Huri Hu s'. subst s'.
    rewrite (songchange_native env s Hguard Hflag), Hitem. cbn. rewrite Huri.
    destruct (validateNativePick_spec env item u s Hitem Huri Hu)
      as [Hin Hout].
    split.
    + intros Hnot. destruct (Hout Hnot) as (_ & _ & _ & _ & _ & Hm).
      by apply Hm.
    + intros Hw. by destruct (Hin Hw) as (_ & _ & ? & ? & _).
  - intros t m m' <- Hstep Hm Hm'.
    by apply (exec_step_unmutes env t m m').
Qed.

(** ** Further properties of the code *)

(** *** Recorded plays *)

Lemma NoDup_uris_filter (P : HistoryEntry -> Prop)
    `{!forall h, Decision (P h)} (l : list HistoryEntry) :
  NoDup (h_uri <$> l) -> NoDup (h_uri <$> filter P l).
Proof.
  induction l as [|h l IH]; [done|].
  rewrite fmap_cons, NoDup_cons. intros [Hh Hl].
  rewrite filter_cons. destruct (decide (P h)); [|by apply IH].
  rewrite fmap_cons, NoDup_cons. split; [|by apply IH].
  intros (e & He & Hin)%list_elem_of_fmap.
  apply list_elem_of_filter in Hin as [_ Hin].
  apply Hh. rewrite He. by apply list_elem_of_fmap_2.
Qed.

(** X1. Recording a playing track that has an identity puts its entry at the
    front of the play history and nowhere else, keeps the identities of the
    history free of duplicates, adds no other entry, leaves at most
    HISTORY_SIZE entries, and does not lengthen the history when the track
    was already in it. *)
Theorem recordCurrentTrack_moves_to_front (env : Env) (item : Item)
    (u : string) (s : State) :
  data_item env = Some item ->
  item_uri item = Some u ->
  truthy (Some u) = true ->
  (0 < HISTORY_SIZE CONFIG)%nat ->
  let s' := recordCurrentTrack env s in
  head (playHistory s')
  = Some {| h_uri := u; h_artistUri := or_null (item_artist_uri item) |} /\
  (forall (i : nat) (e : HistoryEntry),
     playHistory s' !! i = Some e -> h_uri e = u -> i = 0%nat) /\
  (forall e, e ∈ playHistory s' -> h_uri e <> u -> e ∈ playHistory s) /\
  (NoDup (h_uri <$> playHistory s) -> NoDup (h_uri <$> playHistory s')) /\
  (length (playHistory s') <= HISTORY_SIZE CONFIG)%nat /\
  (u ∈ h_uri <$> playHistory s ->
   (length (playHistory s') <= length (playHistory s))%nat).
Proof.
  intros Hitem Huri Hu Hsize s'. subst s'.
  destruct (recordCurrentTrack_spec env item u s Hitem Huri Hu) as [-> _].
  set (e0 := {| h_uri := u; h_artistUri := or_null (item_artist_uri item) |}).
  set (rest := filter (fun h => h_uri h <> u) (playHistory s)).
  split_and!.
  - destruct (HISTORY_SIZE CONFIG); [lia|done].
  - intros i e Hi He. apply lookup_take_Some in Hi as [Hi _].
    destruct i as [|i]; [done|]. cbn in Hi.
    apply list_elem_of_lookup_2, list_elem_of_filter in Hi as [Hne _]. done.
  - intros e Hin Hne. apply elem_of_take in Hin as (i & Hi & _).
    destruct i as [|i]; cbn in Hi.
    + injection Hi as <-. done.
    + by apply list_elem_of_lookup_2, list_elem_of_filter in Hi as [_ ?].
  - intros Hnd. rewrite fmap_take.
    eapply sublist_NoDup; [|apply sublist_take].
    rewrite fmap_cons, NoDup_cons. split; [|by apply NoDup_uris_filter].
    intros (e & He & Hin)%list_elem_of_fmap.
    by apply list_elem_of_filter in Hin as [Hne _].
  - rewrite length_take. lia.
  - intros (e & He & Hin)%list_elem_of_fmap.
    rewrite length_take. cbn [length].
    assert (length rest < length (playHistory s))%nat; [|lia].
    apply (length_filter_lt _ _ e); [done|]. intros Hne. by apply Hne.
Qed.

Lemma playTrackInContext_playHistory (env : Env) (u : option string)
    (ok : bool) (s : State) :
  playHistory (playTrackInContext env u ok s).2 = playHistory s.
Proof.
  destruct (getContextUri env) as [ctx|] eqn:Hctx.
  - by destruct (playTrackInContext_spec env ctx u ok s Hctx)
      as (s1 & vols & -> & (Hph & _) & _).
  - unfold playTrackInContext. by rewrite Hctx.
Qed.

Lemma recordCurrentTrack_truncates (env : Env) (s : State) :
  truthy (data_item env ≫= item_uri) = true ->
  (length (playHistory (recordCurrentTrack env s)) <= HISTORY_SIZE CONFIG)%nat.
Proof.
  intros Hid. destruct (data_item env) as [item|] eqn:Hitem; [|done].
  cbn in Hid. destruct (item_uri item) as [u|] eqn:Huri; [|done].
  destruct (recordCurrentTrack_spec env item u s Hitem Huri Hid) as [-> _].
  rewrite length_take. lia.
Qed.

Lemma replayForward_playHistory (env : Env) (s : State) :
  playHistory (replayForward env s).2 = playHistory s.
Proof.
  unfold replayForward. destruct (_ <? _); [|done].
  pose proof (playTrackInContext_playHistory env
                (at_index (navigationHistory s) (navigationIndex s + 1))
                (playOutcome env 0)
                (set_navigationIndex (navigationIndex s + 1) s)) as Hph.
  cbn in Hph |- *. destruct (playTrackInContext _ _ _ _) as [[] s1]; done.
Qed.

Lemma nativePassThrough_session (s : State) :
  playHistory (nativePassThrough s) = playHistory s /\
  same_nav s (nativePassThrough s).
Proof.
  unfold nativePassThrough, emit.
  destruct (muteForSkip_spec
              (set_isHandlingAction false (set_isNativePassSkip true s)))
    as (_ & _ & _ & _ & Hph & Hnav & _).
  split; [exact Hph|exact Hnav].
Qed.

(** X2. One forward skip overshoots HISTORY_SIZE by at most three.  Taken
    on its own, a forward skip that gets past the guard and the playlist
    load while a track with an identity plays leaves at most
    HISTORY_SIZE + 3 entries in the play history, whatever its length
    before: the playing track is recorded and the history cut to
    HISTORY_SIZE first, and then only failed True Shuffle attempts are
    prepended.  If none of the skip's play commands fails, at most
    HISTORY_SIZE entries are left. *)
Theorem forward_skip_overflow_at_most_three (env : Env) (s : State) :
  isHandlingAction s = false ->
  (ensurePlaylistLoaded env s).1 = true ->
  truthy (data_item env ≫= item_uri) = true ->
  let s' := handleSkipForward env s in
  let new := drop (length (log s)) (log s') in
  (length (playHistory s') <= HISTORY_SIZE CONFIG + 3)%nat /\
  ((forall u, (u, false) ∉ plays new) ->
   (length (playHistory s') <= HISTORY_SIZE CONFIG)%nat).
Proof.
  intros Hguard Hloaded Hid s' new. subst new s'.
  unfold handleSkipForward. rewrite Hguard.
  unfold release_guard_later, emit. cbn [playHistory log set_log].
  unfold skipForward_body. rewrite ensurePlaylistLoaded_guard, Hloaded.
  cbn [negb].
  destruct (ensurePlaylistLoaded_spec env s)
    as (Elog & _ & _ & _ & _ & _ & _ & _ & Etracks).
  destruct (Etracks Hloaded) as (ctx & ts & Hctx & Hts & Hne).
  set (s0 := set_isHandlingAction true (ensurePlaylistLoaded env s).2) in *.
  pose proof (recordCurrentTrack_truncates env s0 Hid) as Hr.
  destruct (recordCurrentTrack_frame env s0) as (Rlog & _ & _ & Rrest).
  set (r := recordCurrentTrack env s0) in *.
  assert (log r = log s) as Hlogr by (by rewrite Rlog; cbn).
  assert (currentPlaylistTracks r = Some ts) as Htsr.
  { destruct Rrest as (_ & -> & _). by cbn. }
  pose proof (replayForward_playHistory env r) as Hf.
  destruct (replayForward_quiet env r) as (new1 & Hl1 & _).
  assert (same_rest r (replayForward env r).2) as Hrest1.
  { unfold replayForward. destruct (_ <? _); [|by repeat split].
    destruct (playTrackInContext_spec env ctx
                (at_index (navigationHistory r) (navigationIndex r + 1))
                (playOutcome env 0)
                (set_navigationIndex (navigationIndex r + 1) r) Hctx)
      as (s1 & vols & Hplay & (_ & _ & Hrest) & _).
    cbn in Hplay |- *. rewrite Hplay.
    by destruct (playOutcome env 0). }
  destruct (replayForward env r) as [[done_ calls] s1].
  cbn [snd] in Hf, Hl1, Hrest1.
  destruct done_; [rewrite Hf; split; [lia|done]|].
  destruct (negb _).
  - destruct (nativePassThrough_session
                (set_skipCounter (S (skipCounter s1)) s1)) as (-> & _).
    cbn [playHistory set_skipCounter]. rewrite Hf. split; [lia|done].
  - destruct (trueShufflePick_spec env ctx ts 3 Hctx Hne calls 0%nat
                (set_skipCounter (S (skipCounter s1)) s1))
      as (failed & succ & new2 & Hl2 & Hp2 & _ & Hh & _ & _ & _ & Hcase).
    { cbn. by destruct Hrest1 as (_ & -> & _). }
    cbn zeta in Hl2, Hh, Hcase. rewrite Hh, Hl2.
    cbn [playHistory log set_skipCounter].
    rewrite length_app, length_rev, length_fmap, Hf.
    split.
    + destruct Hcase as [(_ & _ & ? & _)|(_ & ? & _)]; lia.
    + intros Hnone. destruct failed as [|t failed]; [cbn; lia|].
      exfalso. apply (Hnone (Some (uri t))).
      rewrite Hl1, Hlogr, <- !app_assoc, drop_app_length, !plays_app, Hp2.
      apply elem_of_app. right. apply elem_of_app. left.
      apply elem_of_app. left. cbn. left.
Qed.

(** *** The navigation history *)

Lemma pushToNavigation_length (u : option string) (s : State) :
  (length (navigationHistory s) <= HISTORY_SIZE CONFIG)%nat ->
  (length (navigationHistory (pushToNavigation u s)) <= HISTORY_SIZE CONFIG)%nat.
Proof.
  intros Hs. destruct u as [u|]; [|done].
  destruct (truthy (Some u)) eqn:Hu.
  - destruct (pushToNavigation_nav u s Hu) as [-> _].
    rewrite length_drop. lia.
  - unfold pushToNavigation. by rewrite Hu.
Qed.

Lemma replayForward_navigationHistory (env : Env) (s : State) :
  navigationHistory (replayForward env s).2 = navigationHistory s.
Proof.
  unfold replayForward. destruct (_ <? _); [|done].
  destruct (playTrackInContext_nav env
              (at_index (navigationHistory s) (navigationIndex s + 1))
              (playOutcome env 0)
              (set_navigationIndex (navigationIndex s + 1) s)) as [Hh _].
  cbn in Hh |- *. destruct (playTrackInContext _ _ _ _) as [[] s1]; done.
Qed.

Lemma trueShufflePick_nav_length (n call attempt : nat) (env : Env)
    (s : State) :
  (length (navigationHistory s) <= HISTORY_SIZE CONFIG)%nat ->
  (length (navigationHistory (trueShufflePick n call attempt env s))
   <= HISTORY_SIZE CONFIG)%nat.
Proof.
  revert call attempt s.
  induction n as [|n IH]; intros call attempt s Hs; cbn [trueShufflePick];
    [done|].
  destruct (pickNextTrack _ _ _) as [t|]; [|done].
  destruct (playTrackInContext_nav env (Some (uri t)) (playOutcome env call) s)
    as [Hh _].
  destruct (playTrackInContext _ _ _ _) as [ok s1]. cbn [snd] in Hh.
  destruct ok.
  - apply pushToNavigation_length. by rewrite Hh.
  - apply IH. cbn. by rewrite Hh.
Qed.

Lemma handleSkipForward_nav_length (env : Env) (s : State) :
  (length (navigationHistory s) <= HISTORY_SIZE CONFIG)%nat ->
  (length (navigationHistory (handleSkipForward env s))
   <= HISTORY_SIZE CONFIG)%nat.
Proof.
  intros Hs. unfold handleSkipForward.
  destruct (isHandlingAction s); [done|].
  unfold release_guard_later, emit. cbn [navigationHistory set_log].
  unfold skipForward_body. rewrite ensurePlaylistLoaded_guard.
  destruct (ensurePlaylistLoaded_spec env s) as (_ & _ & [Eh _] & _).
  destruct (ensurePlaylistLoaded env s).1; cbn [negb];
    [|by cbn; rewrite Eh].
  destruct (recordCurrentTrack_nav env
              (set_isHandlingAction true (ensurePlaylistLoaded env s).2))
    as [Rh _].
  pose proof (replayForward_navigationHistory env
                (recordCurrentTrack env
                   (set_isHandlingAction true (ensurePlaylistLoaded env s).2)))
    as Hf.
  destruct (replayForward _ _) as [[done_ calls] s1]. cbn [snd] in Hf.
  assert (navigationHistory s1 = navigationHistory s) as Hs1.
  { by rewrite Hf, Rh. }
  destruct done_; [by rewrite Hs1|].
  destruct (negb _).
  - destruct (nativePassThrough_session (set_skipCounter (S (skipCounter s1)) s1))
      as (_ & -> & _). cbn. by rewrite Hs1.
  - apply trueShufflePick_nav_length. cbn. by rewrite Hs1.
Qed.

Lemma handleSkipBack_navigationHistory (env : Env) (s : State) :
  navigationHistory (handleSkipBack env s) = navigationHistory s.
Proof.
  unfold handleSkipBack. destruct (isHandlingAction s); [done|].
  unfold release_guard_later, emit. cbn [navigationHistory set_log].
  destruct (0 <? _); [|done].
  by destruct (playTrackInContext_nav env
                 (at_index
                    (navigationHistory
                       (set_navigationIndex
                          (navigationIndex (set_isHandlingAction true s) - 1)
                          (set_isHandlingAction true s)))
                    (navigationIndex
                       (set_navigationIndex
                          (navigationIndex (set_isHandlingAction true s) - 1)
                          (set_isHandlingAction true s))))
                 (playOutcome env 0)
                 (set_navigationIndex
                    (navigationIndex (set_isHandlingAction true s) - 1)
                    (set_isHandlingAction true s))) as [-> _].
Qed.

Lemma songchange_nav_length (env : Env) (s : State) :
  (length (navigationHistory s) <= HISTORY_SIZE CONFIG)%nat ->
  (length (navigationHistory (songchange env s)) <= HISTORY_SIZE CONFIG)%nat.
Proof.
  intros Hs. unfold songchange.
  destruct (isHandlingAction s); [done|].
  destruct (isNativePassSkip s).
  { unfold validateNativePick.
    destruct (data_item env ≫= item_uri) as [u|]; [|done].
    destruct (truthy (Some u)); cbn [negb]; [|done].
    destruct (bool_decide _).
    - unfold emit. cbn [navigationHistory set_log].
      by destruct (muteForSkip_spec
                     (set_isNativePassSkip true (set_isNativePassSkip false s)))
        as (_ & _ & _ & _ & _ & [-> _] & _).
    - destruct (restoreVolume_nav
                  (recordCurrentTrack env
                     (pushToNavigation (Some u) (set_isNativePassSkip false s))))
        as [-> _].
      destruct (recordCurrentTrack_nav env
                  (pushToNavigation (Some u) (set_isNativePassSkip false s)))
        as [-> _].
      by apply pushToNavigation_length. }
  destruct (_ && _); [done|].
  destruct (negb (bool_decide _)).
  { unfold contextChanged.
    destruct (truthy _); [|cbn; lia].
    apply pushToNavigation_length. cbn. lia. }
  destruct (negb _); [done|].
  destruct (_ && _); [|done].
  by apply handleSkipForward_nav_length.
Qed.

(** X3. The navigation history never holds more than HISTORY_SIZE entries:
    every event keeps that bound, and it holds after every run from
    start-up, whatever the host answers. *)
Theorem navigation_history_bounded :
  (forall env ev s,
     (length (navigationHistory s) <= HISTORY_SIZE CONFIG)%nat ->
     (length (navigationHistory (step env ev s)) <= HISTORY_SIZE CONFIG)%nat) /\
  (forall v trace,
     (length (navigationHistory (run trace (initial_state v)))
      <= HISTORY_SIZE CONFIG)%nat).
Proof.
  assert (forall env ev s,
            (length (navigationHistory s) <= HISTORY_SIZE CONFIG)%nat ->
            (length (navigationHistory (step env ev s))
             <= HISTORY_SIZE CONFIG)%nat) as Hstep.
  { intros env ev s Hs.
    assert (length (navigationHistory (handleSkipForward env (muteForSkip s)))
            <= HISTORY_SIZE CONFIG)%nat as Hnext.
    { apply handleSkipForward_nav_length.
      by destruct (muteForSkip_nav s) as [-> _]. }
    destruct ev; cbn [step].
    - unfold Player_next. by destruct (isInTrueShuffleMode env s).
    - unfold Player_back. destruct (isInTrueShuffleMode env s); [|done].
      by rewrite handleSkipBack_navigationHistory.
    - unfold PlayerAPI_skipToNext. destruct (isHandlingAction s); [done|].
      by destruct (isInTrueShuffleMode env s).
    - unfold PlayerAPI_skipToPrevious. destruct (isHandlingAction s); [done|].
      destruct (isInTrueShuffleMode env s); [|done].
      by rewrite handleSkipBack_navigationHistory.
    - by apply songchange_nav_length.
    - done.
    - done.
    - done.
    - by destruct (loadPlaylistTracks env contextUri).
    - done. }
  split; [exact Hstep|].
  intros v trace.
  assert (forall s,
            (length (navigationHistory s) <= HISTORY_SIZE CONFIG)%nat ->
            (length (navigationHistory (run trace s))
             <= HISTORY_SIZE CONFIG)%nat) as Hrun.
  { induction trace as [|[env ev] trace IH]; intros s Hs; [done|].
    cbn. apply IH. by apply Hstep. }
  apply Hrun. cbn. lia.
Qed.

(** X4. Pushing an identity while the cursor is at the tail discards
    nothing but what the HISTORY_SIZE bound evicts from the front: while
    there is room the identity is appended to the whole history, and a full
    history loses exactly its oldest entry; the cursor ends on the pushed
    identity. *)
Theorem pushToNavigation_at_tail_appends (u : string) (s : State) :
  truthy (Some u) = true ->
  ~ navigationIndex s < Z.of_nat (length (navigationHistory s)) - 1 ->
  let s' := pushToNavigation (Some u) s in
  navigationHistory s'
  = drop (S (length (navigationHistory s)) - HISTORY_SIZE CONFIG)
      (navigationHistory s ++ [u]) /\
  navigationIndex s' = Z.of_nat (length (navigationHistory s')) - 1 /\
  ((length (navigationHistory s) < HISTORY_SIZE CONFIG)%nat ->
   navigationHistory s' = navigationHistory s ++ [u] /\
   navigationIndex s' = Z.of_nat (length (navigationHistory s))) /\
  (length (navigationHistory s) = HISTORY_SIZE CONFIG ->
   (0 < HISTORY_SIZE CONFIG)%nat ->
   navigationHistory s' = drop 1 (navigationHistory s) ++ [u] /\
   navigationIndex s' = Z.of_nat (HISTORY_SIZE CONFIG) - 1).
Proof.
  intros Hu Htail s'. subst s'.
  destruct (pushToNavigation_nav u s Hu) as [Hh Hi].
  apply Z.ltb_nlt in Htail. rewrite Htail in Hh.
  rewrite length_app in Hh. cbn [length] in Hh.
  replace (length (navigationHistory s) + 1)%nat
    with (S (length (navigationHistory s))) in Hh by lia.
  split; [exact Hh|]. split; [exact Hi|]. split.
  - intros Hroom. rewrite Hi, Hh.
    replace (S (length (navigationHistory s)) - HISTORY_SIZE CONFIG)%nat
      with 0%nat by lia.
    rewrite drop_0, length_app. cbn. split; [done|lia].
  - intros Hfull Hpos. rewrite Hi, Hh, <- Hfull.
    replace (S (length (navigationHistory s))
             - length (navigationHistory s))%nat with 1%nat by lia.
    rewrite drop_app_le by lia.
    rewrite length_app, length_drop. cbn. split; [done|lia].
Qed.

Lemma playTrackInContext_session (env : Env) (u : option string) (ok : bool)
    (s : State) :
  same_session s (playTrackInContext env u ok s).2.
Proof.
  destruct (getContextUri env) as [ctx|] eqn:Hctx.
  - by destruct (playTrackInContext_spec env ctx u ok s Hctx)
      as (s1 & vols & -> & ? & _).
  - unfold playTrackInContext. rewrite Hctx. by repeat split.
Qed.

(** A back skip that gets past the guard: where the cursor goes and what
    stays. *)
Lemma handleSkipBack_spec (env : Env) (s : State) :
  isHandlingAction s = false ->
  let s' := handleSkipBack env s in
  navigationIndex s'
  = (if 0 <? navigationIndex s then navigationIndex s - 1
     else navigationIndex s) /\
  navigationHistory s' = navigationHistory s /\
  playHistory s' = playHistory s /\
  isHandlingAction s' = true /\
  isActive s' = isActive s /\
  currentPlaylistUri s' = currentPlaylistUri s /\
  currentPlaylistTracks s' = currentPlaylistTracks s /\
  skipCounter s' = skipCounter s /\
  isNativePassSkip s' = isNativePassSkip s.
Proof.
  intros Hguard s'. subst s'. unfold handleSkipBack. rewrite Hguard.
  unfold release_guard_later, emit. cbn.
  destruct (0 <? navigationIndex s); [|done].
  destruct (playTrackInContext_session env
              (at_index (navigationHistory s) (navigationIndex s - 1))
              (playOutcome env 0)
              (set_navigationIndex (navigationIndex s - 1)
                 (set_isHandlingAction true s)))
    as (Hph & [Hh Hi] & Hrest).
  destruct Hrest as (R1 & R2 & R3 & R4 & R5 & R6 & _).
  by rewrite Hh, Hi, Hph, R1, R2, R3, R4, R5, R6.
Qed.

(** X5. Pressing back [n] times, the guard released in between, walks the
    cursor back [n] entries and stops at the first one; an empty history
    keeps its cursor of -1.  The navigation history itself is not touched. *)
Theorem back_skips_stop_at_first_entry (envs : list Env) (s : State) :
  isHandlingAction s = false ->
  isActive s = true ->
  Forall (fun env => getShuffle env && isPlaylistUri (getContextUri env) = true)
    envs ->
  let s' :=
    run (envs ≫= fun env => [(env, BackPressed); (env, GuardReleaseFired)]) s
  in
  navigationIndex s'
  = Z.max (Z.min (navigationIndex s) 0)
      (navigationIndex s - Z.of_nat (length envs)) /\
  navigationHistory s' = navigationHistory s /\
  isHandlingAction s' = false.
Proof.
  intros Hguard Hactive Henvs. revert s Hguard Hactive.
  induction Henvs as [|env envs Henv _ IH]; intros s Hguard Hactive.
  { cbn. split_and!; [lia|done..]. }
  cbn zeta. cbn [mbind list_bind app run foldl] in *.
  change (foldl _ ?x ?l) with (run l x).
  cbn [step]. unfold Player_back, isInTrueShuffleMode.
  rewrite Hactive. cbn [andb]. rewrite Henv.
  destruct (handleSkipBack_spec env s Hguard)
    as (Hi & Hh & _ & _ & Ha & _).
  destruct (IH (set_isHandlingAction false (handleSkipBack env s)))
    as (Hi' & Hh' & Hg'); [done|by cbn; rewrite Ha|].
  cbn in Hi', Hh'. rewrite Hi in Hi'. rewrite Hh in Hh'.
  split_and!; [|done..].
  rewrite Hi'. cbn [length].
  destruct (0 <? navigationIndex s) eqn:Hpos;
    [apply Z.ltb_lt in Hpos|apply Z.ltb_ge in Hpos]; lia.
Qed.

Lemma recordCurrentTrack_playHistory_congr (env : Env) (s1 s2 : State) :
  playHistory s1 = playHistory s2 ->
  playHistory (recordCurrentTrack env s1)
  = playHistory (recordCurrentTrack env s2).
Proof.
  intros H. unfold recordCurrentTrack.
  destruct (data_item env) as [item|]; [|done].
  destruct (item_uri item) as [u|]; [|done].
  destruct (negb _); [done|].
  cbn. rewrite H. by destruct (_ <=? _)%nat.
Qed.

Lemma ensurePlaylistLoaded_cache (env : Env) (s1 s2 : State) :
  currentPlaylistUri s1 = currentPlaylistUri s2 ->
  currentPlaylistTracks s1 = currentPlaylistTracks s2 ->
  (ensurePlaylistLoaded env s1).1 = (ensurePlaylistLoaded env s2).1.
Proof.
  intros Hu Ht. unfold ensurePlaylistLoaded.
  destruct (negb (truthy (getContextUri env))); [done|].
  rewrite Hu, Ht.
  destruct (_ || _); cbn; [done|]. by rewrite Ht.
Qed.

(** The forward skip that finds entries after the cursor and whose play
    command starts the next one. *)
Lemma handleSkipForward_replay (env : Env) (s : State) :
  isHandlingAction s = false ->
  (ensurePlaylistLoaded env s).1 = true ->
  navigationIndex s < Z.of_nat (length (navigationHistory s)) - 1 ->
  playOutcome env 0 = true ->
  let s' := handleSkipForward env s in
  let next := at_index (navigationHistory s) (navigationIndex s + 1) in
  navigationIndex s' = navigationIndex s + 1 /\
  navigationHistory s' = navigationHistory s /\
  skipCounter s' = skipCounter s /\
  isHandlingAction s' = true /\
  isNativePassSkip s' = isNativePassSkip s /\
  playHistory s' = playHistory (recordCurrentTrack env s) /\
  lastPlayedByUsUri s' = next /\
  exists ctx vols,
    getContextUri env = Some ctx /\
    log s'
    = log s ++ Play ctx next true :: vols ++ [SetTimeout GuardRelease 1500] /\
    plays vols = [] /\ timers vols = [].
Proof.
  intros Hguard Hloaded Hmid Hok s' next. subst s'.
  destruct (ensurePlaylistLoaded_spec env s)
    as (Elog & Eph & [Eh Ei] & _ & _ & Esc & Enp & _ & Etracks).
  destruct (Etracks Hloaded) as (ctx & ts & Hctx & _).
  set (s0 := set_isHandlingAction true (ensurePlaylistLoaded env s).2).
  destruct (recordCurrentTrack_frame env s0) as (Rlog & _ & _ & Rrest).
  destruct (recordCurrentTrack_nav env s0) as [Rh Ri].
  pose proof (recordCurrentTrack_playHistory_congr env s0 s Eph) as Rph.
  set (r := recordCurrentTrack env s0) in *.
  cbn in Rh, Ri, Rlog. rewrite Eh in Rh. rewrite Ei in Ri.
  rewrite Elog in Rlog.
  destruct (playTrackInContext_spec env ctx next true
              (set_navigationIndex (navigationIndex s + 1) r) Hctx)
    as (s1 & vols & Hplay & (Hph & [Hh Hi] & Hrest) & Hlog & Hpv & Htv
        & Hlast & _).
  assert (handleSkipForward env s = release_guard_later s1) as ->.
  { unfold handleSkipForward. rewrite Hguard.
    unfold skipForward_body. rewrite ensurePlaylistLoaded_guard, Hloaded.
    cbn [negb]. fold s0. fold r. unfold replayForward.
    rewrite Rh, Ri. apply Z.ltb_lt in Hmid as ->.
    rewrite Hok. cbn [navigationHistory navigationIndex set_navigationIndex].
    rewrite Rh. fold next. by rewrite Hplay. }
  destruct Hrest as (_ & _ & _ & Hsc & Hnp & Hha & _).
  destruct Rrest as (_ & _ & _ & Rsc & Rnp & Rha & _).
  unfold release_guard_later, emit. cbn.
  cbn in Hi, Hh, Hsc, Hnp, Hha, Hph, Hlog, Rsc, Rnp.
  rewrite Hi, Hh, Rh, Hsc, Rsc, Esc, Hha, Rha, Hnp, Rnp, Enp, Hph, Rph, Hlast.
  split_and!; try done.
  exists ctx, vols. split_and!; try done.
  by rewrite Hlog, Rlog, <- app_assoc.
Qed.

(** X6. A forward skip that finds entries after the cursor and whose play
    command succeeds replays the next entry of the navigation history: the
    one play command it issues is for that entry, the cursor moves one
    forward, and neither the skip counter nor the navigation history
    changes - no native pass-through, no selection. *)
Theorem handleSkipForward_replays_next_entry (env : Env) (s : State) :
  isHandlingAction s = false ->
  (ensurePlaylistLoaded env s).1 = true ->
  -1 <= navigationIndex s ->
  navigationIndex s < Z.of_nat (length (navigationHistory s)) - 1 ->
  playOutcome env 0 = true ->
  let s' := handleSkipForward env s in
  exists track,
    navigationHistory s !! Z.to_nat (navigationIndex s + 1) = Some track /\
    plays (drop (length (log s)) (log s')) = [(Some track, true)] /\
    timers (drop (length (log s)) (log s')) = [GuardRelease] /\
    lastPlayedByUsUri s' = Some track /\
    navigationIndex s' = navigationIndex s + 1 /\
    navigationHistory s' = navigationHistory s /\
    skipCounter s' = skipCounter s /\
    isNativePassSkip s' = isNativePassSkip s.
Proof.
  intros Hguard Hloaded Hlo Hmid Hok s'.
  destruct (handleSkipForward_replay env s Hguard Hloaded Hmid Hok)
    as (Hi & Hh & Hsc & _ & Hnp & _ & Hlast & ctx & vols & _ & Hlog & Hpv & Htv).
  fold s' in Hi, Hh, Hsc, Hnp, Hlast, Hlog.
  destruct (lookup_lt_is_Some_2 (navigationHistory s)
              (Z.to_nat (navigationIndex s + 1))) as [track Htrack]; [lia|].
  assert (at_index (navigationHistory s) (navigationIndex s + 1) = Some track)
    as Hat.
  { unfold at_index. destruct (_ <? 0) eqn:Hneg; [|done].
    apply Z.ltb_lt in Hneg. lia. }
  rewrite Hat in Hlast, Hlog.
  exists track. rewrite Hlog, drop_app_length.
  rewrite plays_Play, timers_Play, plays_app, timers_app, Hpv, Htv.
  by split_and!.
Qed.

(** X7. Back, then forward: a back skip from a cursor above the floor
    followed, once the guard is released, by a forward skip whose play
    command succeeds returns the cursor to where it was and replays the
    track that was under it, with the navigation history unchanged. *)
Theorem back_then_forward_returns (env1 env2 : Env) (s : State) :
  isHandlingAction s = false ->
  0 < navigationIndex s < Z.of_nat (length (navigationHistory s)) ->
  (ensurePlaylistLoaded env2 s).1 = true ->
  playOutcome env2 0 = true ->
  let s1 := step env1 GuardReleaseFired (handleSkipBack env1 s) in
  let s2 := handleSkipForward env2 s1 in
  navigationIndex s1 = navigationIndex s - 1 /\
  navigationIndex s2 = navigationIndex s /\
  navigationHistory s2 = navigationHistory s /\
  lastPlayedByUsUri s2
  = navigationHistory s !! Z.to_nat (navigationIndex s) /\
  skipCounter s2 = skipCounter s.
Proof.
  intros Hguard [Hpos Hlt] Hloaded Hok s1 s2.
  destruct (handleSkipBack_spec env1 s Hguard)
    as (Bi & Bh & _ & _ & _ & Bu & Bt & Bsc & _).
  apply Z.ltb_lt in Hpos as Hpos'. rewrite Hpos' in Bi.
  assert (navigationIndex s1 = navigationIndex s - 1) as Hi1 by exact Bi.
  assert (navigationHistory s1 = navigationHistory s) as Hh1 by exact Bh.
  assert ((ensurePlaylistLoaded env2 s1).1 = true) as Hloaded1.
  { rewrite <- Hloaded. apply ensurePlaylistLoaded_cache; [exact Bu|exact Bt]. }
  destruct (handleSkipForward_replay env2 s1 eq_refl Hloaded1)
    as (Hi & Hh & Hsc & _ & _ & _ & Hlast & _); [rewrite Hi1, Hh1; lia|done|].
  fold s2 in Hi, Hh, Hsc, Hlast.
  rewrite Hi1 in Hi, Hlast. rewrite Hh1 in Hh, Hlast.
  replace (navigationIndex s - 1 + 1) with (navigationIndex s) in Hi, Hlast
    by lia.
  split_and!; [done|done|done| |by rewrite Hsc].
  rewrite Hlast. unfold at_index.
  destruct (_ <? 0) eqn:Hneg; [apply Z.ltb_lt in Hneg; lia|done].
Qed.

(** *** Muting and restoring *)

Lemma muteForSkip_again (n : nat) (s : State) :
  smoothSkipMuted s = false ->
  smoothSkipMuted (Nat.iter (S n) muteForSkip s) = true /\
  savedVolume (Nat.iter (S n) muteForSkip s) = Some (volume s) /\
  volume (Nat.iter (S n) muteForSkip s) = 0%float /\
  log (Nat.iter (S n) muteForSkip s) = log s ++ replicate (S n) (SetVolume 0) /\
  same_session s (Nat.iter (S n) muteForSkip s).
Proof.
  intros Hs. induction n as [|n IH].
  - cbn [Nat.iter nat_rect]. destruct (muteForSkip_spec s)
      as (Hm & Hv & Hl & Hsv & Hsess).
    rewrite Hs in Hsv. by split_and!.
  - destruct IH as (Im & Isv & Iv & Il & Iph & Inav & Irest).
    change (Nat.iter (S (S n)) muteForSkip s)
      with (muteForSkip (Nat.iter (S n) muteForSkip s)).
    destruct (muteForSkip_spec (Nat.iter (S n) muteForSkip s))
      as (Hm & Hv & Hl & Hsv & Hph & Hnav & Hrest).
    rewrite Im in Hsv. split_and!; [done|congruence|done| | ].
    + rewrite Hl, Il, <- app_assoc. f_equal.
      change [SetVolume 0] with (replicate 1 (SetVolume 0)).
      rewrite <- replicate_add. f_equal. lia.
    + split_and!; [congruence|by eapply same_nav_trans|
                   by eapply same_rest_trans].
Qed.

(** X8. However many times an unmuted player is muted before it is restored,
    the restore sets the volume it had before the first mute, clears the
    mute bookkeeping and touches nothing else; a second restore does
    nothing. *)
Theorem mute_restore_round_trip (n : nat) (s : State) :
  smoothSkipMuted s = false ->
  let muted := Nat.iter (S n) muteForSkip s in
  let s' := restoreVolume muted in
  volume muted = 0%float /\
  volume s' = volume s /\
  smoothSkipMuted s' = false /\
  savedVolume s' = None /\
  log s' = log s ++ replicate (S n) (SetVolume 0) ++ [SetVolume (volume s)] /\
  same_session s s' /\
  restoreVolume s' = s'.
Proof.
  intros Hs muted s'.
  destruct (muteForSkip_again n s Hs) as (Hm & Hsv & Hv & Hl & Hsess).
  fold muted in Hm, Hsv, Hv, Hl, Hsess.
  assert (s' = set_savedVolume None
                 (set_smoothSkipMuted false (setVolume (volume s) muted)))
    as Hs'.
  { subst s'. unfold restoreVolume. by rewrite Hsv, Hm. }
  clearbody s' muted.
  split; [exact Hv|]. rewrite Hs'. cbn. rewrite Hl.
  split_and!; try done; try (by rewrite <- app_assoc).
  all: destruct Hsess as (Hph & Hnav & Hrest); by split_and!.
Qed.

(** X9. In every state a run reaches from start-up, a player marked as
    muted has a saved volume, so that [restoreVolume] always leaves it
    unmuted. *)
Theorem restoreVolume_always_unmutes (v : float)
    (trace : list (Env * Event)) :
  let s := run trace (initial_state v) in
  (smoothSkipMuted s = true -> is_Some (savedVolume s)) /\
  smoothSkipMuted (restoreVolume s) = false.
Proof.
  intros s.
  assert (mute_inv s) as Hinv by (apply run_mute_inv; intros [=]).
  split; [exact Hinv|].
  by destruct (restoreVolume_spec s Hinv) as (? & _).
Qed.

(** X10. A forward skip through [Player.next] that is dropped - the guard
    is held, or no playlist can be loaded - has already muted the player and
    leaves it muted: no play command and no native skip follows, and the
    histories and the skip counter are as they were. *)
Theorem Player_next_dropped_stays_muted (env : Env) (s : State) :
  isInTrueShuffleMode env s = true ->
  isHandlingAction s = true \/ (ensurePlaylistLoaded env s).1 = false ->
  let s' := Player_next env s in
  smoothSkipMuted s' = true /\
  volume s' = 0%float /\
  plays (drop (length (log s)) (log s')) = [] /\
  (NativeSkip ∉ timers (drop (length (log s)) (log s'))) /\
  playHistory s' = playHistory s /\
  same_nav s s' /\
  skipCounter s' = skipCounter s.
Proof.
  intros Hmode Hdrop s'. subst s'. unfold Player_next. rewrite Hmode.
  destruct (muteForSkip_spec s)
    as (Hm & Hv & Hl & _ & Hph & Hnav & Hrest).
  destruct Hrest as (Hu & Ht & _ & Hsc & _ & Hha & _).
  unfold handleSkipForward. rewrite Hha.
  destruct (isHandlingAction s) eqn:Hguard.
  { rewrite Hl, drop_app_length. cbn.
    split_and!; try done. apply not_elem_of_nil. }
  destruct Hdrop as [[=]|Hload].
  unfold skipForward_body. rewrite ensurePlaylistLoaded_guard.
  rewrite (ensurePlaylistLoaded_cache env (muteForSkip s) s Hu Ht), Hload.
  cbn [negb].
  destruct (ensurePlaylistLoaded_spec env (muteForSkip s))
    as (Elog & Eph & Enav & [Em _] & Evol & Esc & _).
  unfold release_guard_later, emit. cbn.
  rewrite Em, Hm, Evol, Hv, Elog, Hl, Eph, Hph, Esc, Hsc.
  rewrite <- app_assoc, drop_app_length. cbn.
  split_and!; try done.
  - intros [[=]|?%not_elem_of_nil]%elem_of_cons. done.
  - destruct Enav as [Eh Ei], Hnav as [Hh Hi]. split; cbn; congruence.
Qed.

(** *** The re-entrancy guard *)

Lemma held_same_intro (new : list Command) (s s' : State) :
  isHandlingAction s' = true ->
  playHistory s' = playHistory s ->
  navigationHistory s' = navigationHistory s ->
  navigationIndex s' = navigationIndex s ->
  skipCounter s' = skipCounter s ->
  isNativePassSkip s' = isNativePassSkip s ->
  log s' = log s ++ new ->
  plays new = [] ->
  held_same s s'.
Proof. intros. split_and!; try done. by exists new. Qed.

Lemma step_held (env : Env) (ev : Event) (s : State) :
  ev <> GuardReleaseFired ->
  isHandlingAction s = true ->
  held_same s (step env ev s).
Proof.
  intros Hev Hguard.
  assert (held_same s s) as Hrefl.
  { apply (held_same_intro []); try done. by rewrite app_nil_r. }
  assert (forall c, plays [c] = [] -> held_same s (emit c s)) as Hemit.
  { intros c Hc. by apply (held_same_intro [c]). }
  destruct ev; cbn [step]; try done.
  - unfold Player_next. destruct (isInTrueShuffleMode env s); [|by apply Hemit].
    destruct (muteForSkip_spec s) as (_ & _ & Hl & _ & Hph & [Hh Hi] & Hrest).
    destruct Hrest as (_ & _ & _ & Hsc & Hnp & Hha & _).
    unfold handleSkipForward. rewrite Hha, Hguard.
    apply (held_same_intro [SetVolume 0]); try done. congruence.
  - unfold Player_back. destruct (isInTrueShuffleMode env s); [|by apply Hemit].
    unfold handleSkipBack. by rewrite Hguard.
  - unfold PlayerAPI_skipToNext. by rewrite Hguard.
  - unfold PlayerAPI_skipToPrevious. by rewrite Hguard.
  - unfold songchange. by rewrite Hguard.
  - by apply Hemit.
  - destruct (loadPlaylistTracks env contextUri); [|done].
    apply (held_same_intro []); cbn; rewrite ?app_nil_r; done.
  - by eapply (held_same_intro [_]).
Qed.

Lemma held_same_trans (s1 s2 s3 : State) :
  held_same s1 s2 -> held_same s2 s3 -> held_same s1 s3.
Proof.
  intros (_ & Hph & Hnav & Hsc & Hnp & new1 & Hl1 & Hp1)
         (Hg & Hph' & Hnav' & Hsc' & Hnp' & new2 & Hl2 & Hp2).
  split_and!; [done|congruence|by eapply same_nav_trans|congruence..|].
  exists (new1 ++ new2). rewrite Hl2, Hl1, <- app_assoc. split; [done|].
  by rewrite omap_app, Hp1, Hp2.
Qed.

(** X11. While the re-entrancy guard is held, nothing but the timer that
    releases it gets through: whatever skip requests, track-changed events,
    samples, pre-loads and toggles arrive, the guard stays held, no play
    command is issued, and the play history, the navigation history and its
    cursor, the skip counter and the pending-native flag stay as they
    are. *)
Theorem held_guard_blocks_events (trace : list (Env * Event)) (s : State) :
  isHandlingAction s = true ->
  Forall (fun x => x.2 <> GuardReleaseFired) trace ->
  let s' := run trace s in
  isHandlingAction s' = true /\
  playHistory s' = playHistory s /\
  navigationHistory s' = navigationHistory s /\
  navigationIndex s' = navigationIndex s /\
  skipCounter s' = skipCounter s /\
  isNativePassSkip s' = isNativePassSkip s /\
  plays (drop (length (log s)) (log s')) = [].
Proof.
  intros Hguard Htrace s'.
  assert (held_same s s') as (Hg & Hph & [Hh Hi] & Hsc & Hnp & new & Hl & Hp).
  { subst s'. revert s Hguard.
    induction Htrace as [|[env ev] trace Hev _ IH]; intros s Hguard.
    - split_and!; try done. exists []. by rewrite app_nil_r.
    - cbn [run foldl].
      change (foldl _ ?x ?l) with (run l x).
      pose proof (step_held env ev s Hev Hguard) as Hstep.
      eapply held_same_trans; [exact Hstep|].
      apply IH. by destruct Hstep as (? & _). }
  split_and!; try done. by rewrite Hl, drop_app_length.
Qed.

(** *** Native picks *)

(** A track-changed event for a pending native pick whose track is in the
    window. *)
Lemma songchange_rejects (env : Env) (s : State) :
  isHandlingAction s = false ->
  isNativePassSkip s = true ->
  repeats_recent (NO_REPEAT_WINDOW CONFIG) (playHistory s) env ->
  let s' := songchange env s in
  isHandlingAction s' = false /\
  isNativePassSkip s' = true /\
  smoothSkipMuted s' = true /\
  volume s' = 0%float /\
  playHistory s' = playHistory s /\
  same_nav s s' /\
  skipCounter s' = skipCounter s /\
  log s' = log s ++ [SetVolume 0; SetTimeout NativeSkip 50].
Proof.
  intros Hguard Hflag (item & u & Hitem & Huri & Hu & Hin) s'. subst s'.
  rewrite (songchange_native env s Hguard Hflag), Hitem. cbn. rewrite Huri.
  unfold validateNativePick. rewrite Hu. cbn [negb].
  rewrite bool_decide_eq_true_2 by (cbn; by rewrite recentUris_window).
  destruct (muteForSkip_spec
              (set_isNativePassSkip true (set_isNativePassSkip false s)))
    as (Hm & Hv & Hl & _ & Hph & Hnav & Hrest).
  destruct Hrest as (_ & _ & _ & Hsc & Hnp & Hha & _).
  unfold emit. cbn. rewrite Hm, Hv, Hl, Hph, Hsc, Hnp, Hha. cbn.
  split_and!; try done. by rewrite <- app_assoc.
Qed.

(** X12. Native picks are re-issued without bound: as long as each track
    the native player lands on is in the no-repeat window, every
    track-changed event arms one more native skip, keeps the flag set and
    the player muted, issues no play command and records nothing. *)
Theorem native_pick_rejections_repeat (envs : list Env) (s : State) :
  isHandlingAction s = false ->
  isNativePassSkip s = true ->
  Forall (repeats_recent (NO_REPEAT_WINDOW CONFIG) (playHistory s)) envs ->
  let s' := run ((fun env => (env, SongChange)) <$> envs) s in
  isNativePassSkip s' = true /\
  (envs <> [] -> smoothSkipMuted s' = true /\ volume s' = 0%float) /\
  playHistory s' = playHistory s /\
  navigationHistory s' = navigationHistory s /\
  navigationIndex s' = navigationIndex s /\
  timers (drop (length (log s)) (log s'))
  = replicate (length envs) NativeSkip /\
  plays (drop (length (log s)) (log s')) = [].
Proof.
  intros Hguard Hflag Henvs.
  assert (exists new,
            let s' := run ((fun env => (env, SongChange)) <$> envs) s in
            isHandlingAction s' = false /\
            isNativePassSkip s' = true /\
            (envs <> [] -> smoothSkipMuted s' = true /\ volume s' = 0%float) /\
            playHistory s' = playHistory s /\
            same_nav s s' /\
            log s' = log s ++ new /\
            timers new = replicate (length envs) NativeSkip /\
            plays new = []) as (new & H).
  { revert s Hguard Hflag Henvs.
    induction envs as [|env envs IH]; intros s Hguard Hflag Henvs.
    - exists []. cbn. rewrite app_nil_r. by split_and!.
    - apply Forall_cons in Henvs as [Henv Henvs].
      destruct (songchange_rejects env s Hguard Hflag Henv)
        as (Sg & Sf & Sm & Sv & Sph & Snav & _ & Sl).
      rewrite <- Sph in Henvs.
      destruct (IH (songchange env s) Sg Sf Henvs)
        as (new & Ig & If & Im & Iph & Inav & Il & It & Ip).
      exists ([SetVolume 0; SetTimeout NativeSkip 50] ++ new).
      cbn zeta in *. cbn [fmap list_fmap run foldl step] in *.
      change (foldl _ ?x ?l) with (run l x).
      split_and!; [done|done| |congruence|by eapply same_nav_trans| | |].
      + intros _. destruct envs as [|env' envs]; [by cbn|by apply Im].
      + by rewrite Il, Sl, <- app_assoc.
      + rewrite timers_app, It. done.
      + rewrite plays_app, Ip. done. }
  cbn zeta in H.
  destruct H as (_ & Hf & Hm & Hph & [Hh Hi] & Hl & Ht & Hp).
  intros s'. subst s'. rewrite Hl, drop_app_length. by split_and!.
Qed.

(** *** The track-changed listener *)

(** X13. A track-changed event in a new context (guard free, no native pick
    pending, not the echo of a play command of the extension's own) starts
    the session afresh: the play history and the playlist cache are emptied,
    the skip counter is 0, the context is remembered, and the navigation
    history holds just the playing track with the cursor on it - or nothing,
    with the cursor at -1, when that track has no identity.  The mute
    bookkeeping and the toggle are left alone. *)
Theorem songchange_context_change_resets (env : Env) (s : State) :
  isHandlingAction s = false ->
  isNativePassSkip s = false ->
  truthy (data_item env ≫= item_uri)
  && bool_decide (data_item env ≫= item_uri = lastPlayedByUsUri s) = false ->
  getContextUri env <> lastContextUri s ->
  let s' := songchange env s in
  playHistory s' = [] /\
  skipCounter s' = 0%nat /\
  currentPlaylistUri s' = None /\
  currentPlaylistTracks s' = None /\
  lastContextUri s' = getContextUri env /\
  same_mute s s' /\
  isActive s' = isActive s /\
  (forall u,
     data_item env ≫= item_uri = Some u ->
     truthy (Some u) = true ->
     (0 < HISTORY_SIZE CONFIG)%nat ->
     navigationHistory s' = [u] /\ navigationIndex s' = 0) /\
  (truthy (data_item env ≫= item_uri) = false ->
   navigationHistory s' = [] /\ navigationIndex s' = -1).
Proof.
  intros Hguard Hflag Hown Hctx s'. subst s'.
  unfold songchange. rewrite Hguard, Hflag, Hown.
  rewrite bool_decide_eq_false_2 by done. cbn [negb].
  unfold contextChanged.
  set (s0 := set_navigationIndex (-1) _).
  destruct (truthy (data_item env ≫= item_uri)) eqn:Hcur.
  - destruct (pushToNavigation_frame (data_item env ≫= item_uri) s0)
      as (Pph & _ & Pmute & _ & Prest).
    destruct Prest as (Pu & Pt & Pa & Psc & _ & _ & _ & _ & Pl).
    rewrite Pph, Psc, Pu, Pt, Pl, Pa.
    split_and!; try done.
    intros u Hu Htruthy Hsize. rewrite Hu.
    destruct (pushToNavigation_nav u s0 Htruthy) as [Hh Hi].
    cbn in Hh. rewrite Hi, Hh.
    destruct (HISTORY_SIZE CONFIG); [lia|]. done.
  - split_and!; try done. intros u Hu Htruthy. rewrite Hu in Hcur. congruence.
Qed.

(** X14. The track-changed event that echoes a play command of the
    extension's own is consumed: after a forward skip has replayed the next
    navigation entry and the guard is released, the event for that track
    only forgets [lastPlayedByUsUri] - no history is written, no context
    change is detected, no skip is started. *)
Theorem own_play_event_is_consumed (env env' : Env) (s : State) :
  isHandlingAction s = false ->
  isNativePassSkip s = false ->
  (ensurePlaylistLoaded env s).1 = true ->
  -1 <= navigationIndex s ->
  navigationIndex s < Z.of_nat (length (navigationHistory s)) - 1 ->
  playOutcome env 0 = true ->
  data_item env' ≫= item_uri
  = navigationHistory s !! Z.to_nat (navigationIndex s + 1) ->
  truthy (data_item env' ≫= item_uri) = true ->
  let s1 := step env' GuardReleaseFired (handleSkipForward env s) in
  lastPlayedByUsUri s1 = data_item env' ≫= item_uri /\
  songchange env' s1 = set_lastPlayedByUsUri None s1.
Proof.
  intros Hguard Hflag Hloaded Hlo Hmid Hok Hcur Htruthy s1.
  destruct (handleSkipForward_replay env s Hguard Hloaded Hmid Hok)
    as (_ & _ & _ & _ & Hnp & _ & Hlast & _).
  assert (lastPlayedByUsUri s1 = data_item env' ≫= item_uri) as Hl1.
  { subst s1. cbn. rewrite Hlast, Hcur. unfold at_index.
    destruct (_ <? 0) eqn:Hneg; [apply Z.ltb_lt in Hneg; lia|done]. }
  assert (isNativePassSkip s1 = false) as Hf1.
  { subst s1. cbn. by rewrite Hnp. }
  assert (isHandlingAction s1 = false) as Hg1 by done.
  split; [exact Hl1|]. clearbody s1.
  unfold songchange. rewrite Hg1, Hf1, Htruthy, Hl1.
  by rewrite bool_decide_eq_true_2.
Qed.

(** *** Weights *)

Lemma SFcompare_antisym (x y : SpecFloat.spec_float) :
  SpecFloat.SFcompare y x = CompOpp <$> SpecFloat.SFcompare x y.
Proof.
  destruct x as [[]|[]| |[] mx ex], y as [[]|[]| |[] my ey]; cbn; try done.
  all: rewrite (Z.compare_antisym ex ey);
    destruct (ex ?= ey)%Z; cbn; try done.
  all: rewrite (eq_sym (Pos.compare_cont_antisym mx my Eq)
                : Pos.compare_cont Eq my mx
                  = CompOpp (Pos.compare_cont Eq mx my)); cbn;
    by destruct (Pos.compare_cont Eq mx my).
Qed.

Lemma float_ltb_asym (a b : float) :
  PrimFloat.ltb a b = true -> PrimFloat.ltb b a = false.
Proof.
  rewrite !FloatAxioms.ltb_spec. unfold SpecFloat.SFltb.
  rewrite (SFcompare_antisym (Prim2SF a) (Prim2SF b)).
  by destruct (SpecFloat.SFcompare (Prim2SF a) (Prim2SF b)) as [[]|].
Qed.

Lemma float_ltb_irrefl (a : float) : PrimFloat.ltb a a = false.
Proof.
  destruct (PrimFloat.ltb a a) eqn:H; [|done].
  by rewrite (float_ltb_asym a a H) in H.
Qed.

Lemma float_ltb_nan (a : float) : PrimFloat.ltb PrimFloat.nan a = false.
Proof. by rewrite FloatAxioms.ltb_spec. Qed.

(** [Math.max(a, b)] is never below [a]. *)
Lemma Math_max_not_below (a b : float) :
  PrimFloat.ltb (Math_max a b) a = false.
Proof.
  unfold Math_max. destruct (_ || _)%bool; [apply float_ltb_nan|].
  destruct (PrimFloat.ltb a b) eqn:Hab; [by apply float_ltb_asym|].
  destruct (PrimFloat.ltb b a) eqn:Hba; [apply float_ltb_irrefl|].
  destruct (PrimFloat.get_sign a); [done|apply float_ltb_irrefl].
Qed.

(** [Math.max(a, b)] that is not NaN is at least [a]. *)
Lemma Math_max_at_least (a b : float) :
  PrimFloat.is_nan (Math_max a b) = false ->
  PrimFloat.leb a (Math_max a b) = true.
Proof.
  unfold Math_max.
  destruct (PrimFloat.is_nan a) eqn:Ha; [by intros [=]|].
  destruct (PrimFloat.is_nan b) eqn:Hb; [by intros [=]|].
  intros _. cbn [orb].
  unfold PrimFloat.is_nan in Ha, Hb. apply negb_false_iff in Ha, Hb.
  revert Ha Hb.
  rewrite !FloatAxioms.ltb_spec, !FloatAxioms.leb_spec, !FloatAxioms.eqb_spec.
  unfold SpecFloat.SFeqb, SpecFloat.SFltb, SpecFloat.SFleb.
  intros Ha Hb.
  rewrite (SFcompare_antisym (Prim2SF a) (Prim2SF b)).
  destruct (SpecFloat.SFcompare (Prim2SF a) (Prim2SF b)) as [[]|] eqn:Hab;
    cbn.
  - match goal with
    | |- context [ Prim2SF (if ?c then b else a) ] => destruct c
    end; [by rewrite Hab|].
    by destruct (SpecFloat.SFcompare (Prim2SF a) (Prim2SF a)) as [[]|].
  - by rewrite Hab.
  - by destruct (SpecFloat.SFcompare (Prim2SF a) (Prim2SF a)) as [[]|].
  - exfalso. destruct (Prim2SF a) as [| | |[] ? ?], (Prim2SF b) as [| | |[] ? ?];
      cbn in *; congruence.
Qed.

(** X15. The weight of a track is clamped from below: whatever the history
    and whatever [Math.exp] returns, [calculateWeight] is never less than
    MIN_WEIGHT, and unless it is NaN it is at least MIN_WEIGHT. *)
Theorem calculateWeight_at_least_MIN_WEIGHT (track : Track)
    (history : list HistoryEntry) :
  PrimFloat.ltb (calculateWeight track history) (MIN_WEIGHT CONFIG) = false /\
  (PrimFloat.is_nan (calculateWeight track history) = false ->
   PrimFloat.leb (MIN_WEIGHT CONFIG) (calculateWeight track history) = true).
Proof.
  unfold calculateWeight. split.
  - apply Math_max_not_below.
  - apply Math_max_at_least.
Qed.

Lemma findIndex_from_absent {A} (p : A -> bool) (l : list A) (i : Z) :
  (forall x, x ∈ l -> p x = false) -> findIndex_from p l i = -1.
Proof.
  revert i. induction l as [|x l IH]; intros i Hl; [done|].
  cbn. rewrite (Hl x) by left. apply IH. intros y Hy. apply Hl. by right.
Qed.

(** The weight of a track that is not in the history: no recency factor. *)
Lemma calculateWeight_absent (track : Track) (history : list HistoryEntry) :
  uri track ∉ h_uri <$> history ->
  calculateWeight track history
  = Math_max (MIN_WEIGHT CONFIG)
      (if truthy (artistUri track)
          && bool_decide
               (artistUri track
                ∈ h_artistUri <$> take (ARTIST_SPACING CONFIG) history)
       then (1 * ARTIST_PENALTY CONFIG)%float
       else 1%float).
Proof.
  intros Habsent. unfold calculateWeight, findIndex.
  rewrite findIndex_from_absent.
  - cbn [Z.eqb negb]. by rewrite slice_prefix_nat.
  - intros h Hh. apply String.eqb_neq. intros Heq. apply Habsent.
    rewrite <- Heq. by apply list_elem_of_fmap_2.
Qed.

(** The weight of the track at the front of the history: recency index 0. *)
Lemma calculateWeight_latest (track : Track) (e : HistoryEntry)
    (older : list HistoryEntry) :
  h_uri e = uri track ->
  calculateWeight track (e :: older)
  = Math_max (MIN_WEIGHT CONFIG)
      (let weight :=
         (1 * Math_max (MIN_WEIGHT CONFIG)
                (1 - Math_exp (- RECENCY_DECAY_RATE CONFIG * 0)))%float in
       if truthy (artistUri track)
          && bool_decide
               (artistUri track
                ∈ h_artistUri <$> take (ARTIST_SPACING CONFIG) (e :: older))
       then (weight * ARTIST_PENALTY CONFIG)%float
       else weight).
Proof.
  intros He. unfold calculateWeight, findIndex. cbn [findIndex_from].
  rewrite He, String.eqb_refl. cbn [Z.eqb negb].
  by rewrite slice_prefix_nat.
Qed.

(** *** The playlist cache *)

Lemma length_omap_le {A B} (f : A -> option B) (l : list A) :
  (length (omap f l) <= length l)%nat.
Proof.
  induction l as [|x l IH]; [done|]. cbn. destruct (f x); cbn; lia.
Qed.

(** X18. A playlist load that succeeds returns, for a playlist context whose
    contents the host delivered, one track per item that has an identity, is
    of type "track" and is not marked unplayable - and nothing else: every
    loaded track has a non-empty identity and comes from such an item, and
    every such item is represented. *)
Theorem loadPlaylistTracks_keeps_playable_tracks (env : Env)
    (contextUri : option string) (tracks : list Track) :
  loadPlaylistTracks env contextUri = Some tracks ->
  exists c items,
    contextUri = Some c /\
    String.prefix "spotify:playlist:" c = true /\
    getContents env c = Some items /\
    (length tracks <= length items)%nat /\
    (forall t,
       t ∈ tracks ->
       uri t <> "" /\
       exists item,
         item ∈ items /\ p_uri item = Some (uri t) /\
         p_type item = "track" /\ p_isPlayable item <> Some false /\
         artistUri t = or_null (p_artist0_uri item)) /\
    (forall item u,
       item ∈ items -> p_uri item = Some u -> u <> "" ->
       p_type item = "track" -> p_isPlayable item <> Some false ->
       exists t, t ∈ tracks /\ uri t = u).
Proof.
  unfold loadPlaylistTracks. destruct contextUri as [c|]; [|done].
  unfold isPlaylistUri.
  destruct (bool_decide (String.prefix "spotify:playlist:" c = true)) eqn:Hp;
    cbn [negb]; [|done].
  apply bool_decide_eq_true_1 in Hp.
  destruct (getContents env c) as [items|] eqn:Hitems; [|done].
  intros [= <-]. exists c, items. split_and!; try done.
  - apply length_omap_le.
  - intros t (item & Hin & Hf)%list_elem_of_omap.
    destruct (p_uri item) as [u|] eqn:Hu; [|done].
    cbn in Hf. destruct (String.eqb u "") eqn:Hempty; [done|].
    destruct (String.eqb (p_type item) "track") eqn:Htype; [|done].
    cbn in Hf. destruct (bool_decide (p_isPlayable item = Some false)) eqn:Hpl;
      [done|].
    injection Hf as <-. cbn.
    apply String.eqb_neq in Hempty. apply String.eqb_eq in Htype.
    apply bool_decide_eq_false_1 in Hpl.
    split; [done|]. by exists item.
  - intros item u Hin Hu Hne Htype Hpl.
    eexists. split.
    + apply list_elem_of_omap. exists item. split; [done|].
      rewrite Hu. cbn. apply String.eqb_neq in Hne. rewrite Hne, Htype. cbn.
      by rewrite bool_decide_eq_false_2.
    + done.
Qed.

Lemma getContextUri_truthy (env : Env) (ctx : string) :
  getContextUri env = Some ctx -> truthy (Some ctx) = true.
Proof.
  unfold getContextUri, or_null.
  destruct (truthy (data_context_uri env)) eqn:Ht; [|done]. congruence.
Qed.

Lemma ensurePlaylistLoaded_hit (env : Env) (ctx : string) (ts : list Track)
    (s : State) :
  getContextUri env = Some ctx ->
  currentPlaylistUri s = Some ctx ->
  currentPlaylistTracks s = Some ts ->
  ensurePlaylistLoaded env s = ((0 <? length ts)%nat, s).
Proof.
  intros Hctx Hu Ht. unfold ensurePlaylistLoaded.
  rewrite Hctx, (getContextUri_truthy env ctx Hctx), Hu, Ht.
  rewrite !bool_decide_eq_true_2 by done. cbn. by rewrite Ht.
Qed.

Lemma ensurePlaylistLoaded_miss (env : Env) (ctx : string) (s : State) :
  getContextUri env = Some ctx ->
  currentPlaylistUri s <> Some ctx \/ currentPlaylistTracks s = None ->
  ensurePlaylistLoaded env s
  = (match loadPlaylistTracks env (Some ctx) with
     | Some ts => (0 <? length ts)%nat
     | None => false
     end,
     set_currentPlaylistTracks (loadPlaylistTracks env (Some ctx))
       (set_currentPlaylistUri (Some ctx) s)).
Proof.
  intros Hctx Hmiss. unfold ensurePlaylistLoaded.
  rewrite Hctx, (getContextUri_truthy env ctx Hctx). cbn [negb].
  assert (negb (bool_decide (Some ctx = currentPlaylistUri s))
          || negb (bool_decide (is_Some (currentPlaylistTracks s))) = true)
    as ->; [|done].
  destruct Hmiss as [Hu|Ht].
  - rewrite bool_decide_eq_false_2 by done. done.
  - rewrite Ht, (bool_decide_eq_false_2 (is_Some None)) by (by intros [? [=]]).
    apply orb_true_r.
Qed.

(** X19. [ensurePlaylistLoaded] answers true exactly when it leaves a
    non-empty track list cached for the current context; calling it again
    under the same host answers gives the same answer and the same state; a
    cache that already holds a list for the current context is returned
    without being touched; and without a context the answer is false and the
    state is untouched. *)
Theorem ensurePlaylistLoaded_idempotent (env : Env) (s : State) :
  let r := ensurePlaylistLoaded env s in
  ensurePlaylistLoaded env r.2 = r /\
  (r.1 = true <->
   is_Some (getContextUri env) /\
   currentPlaylistUri r.2 = getContextUri env /\
   exists ts, currentPlaylistTracks r.2 = Some ts /\ ts <> []) /\
  (is_Some (getContextUri env) ->
   currentPlaylistUri s = getContextUri env ->
   is_Some (currentPlaylistTracks s) ->
   r.2 = s) /\
  (getContextUri env = None -> r = (false, s)).
Proof.
  intros r.
  assert (forall ts : list Track,
            (0 <? length ts)%nat = true <-> ts <> []) as Hlen.
  { intros [|t ts]; cbn; split; done. }
  destruct (getContextUri env) as [ctx|] eqn:Hctx.
  2:{ assert (r = (false, s)) as ->.
      { subst r. unfold ensurePlaylistLoaded. by rewrite Hctx. }
      cbn [fst snd]. split_and!; try done.
      - unfold ensurePlaylistLoaded. by rewrite Hctx.
      - split; [done|]. by intros [[? [=]] _]. }
  destruct (decide (currentPlaylistUri s = Some ctx)) as [Hu|Hu];
    [destruct (currentPlaylistTracks s) as [ts|] eqn:Ht|].
  - assert (r = ((0 <? length ts)%nat, s)) as ->
      by (by apply (ensurePlaylistLoaded_hit env ctx)).
    cbn [fst snd]. split_and!; try done.
    + by apply (ensurePlaylistLoaded_hit env ctx).
    + rewrite Hlen, Ht. split.
      * intros Hne. split_and!; [done|done|]. by exists ts.
      * by intros (_ & _ & ts' & [= <-] & Hne).
  - assert (r = _) as -> by (apply (ensurePlaylistLoaded_miss env ctx);
                             [done|by right]).
    cbn [fst snd]. split_and!; try done.
    + destruct (loadPlaylistTracks env (Some ctx)) as [ts|] eqn:Hl.
      * by rewrite (ensurePlaylistLoaded_hit env ctx ts).
      * rewrite (ensurePlaylistLoaded_miss env ctx) by (done || by right).
        by rewrite Hl.
    + destruct (loadPlaylistTracks env (Some ctx)) as [ts|].
      * rewrite Hlen. split.
        -- intros Hne. split_and!; [done|done|]. by exists ts.
        -- by intros (_ & _ & ts' & [= <-] & Hne).
      * split; [done|]. by intros (_ & _ & ts' & [=] & _).
  - assert (r = _) as -> by (apply (ensurePlaylistLoaded_miss env ctx);
                             [done|by left]).
    cbn [fst snd]. split_and!; try done.
    + destruct (loadPlaylistTracks env (Some ctx)) as [ts|] eqn:Hl.
      * by rewrite (ensurePlaylistLoaded_hit env ctx ts).
      * rewrite (ensurePlaylistLoaded_miss env ctx) by (done || by right).
        by rewrite Hl.
    + destruct (loadPlaylistTracks env (Some ctx)) as [ts|].
      * rewrite Hlen. split.
        -- intros Hne. split_and!; [done|done|]. by exists ts.
        -- by intros (_ & _ & ts' & [= <-] & Hne).
      * split; [done|]. by intros (_ & _ & ts' & [=] & _).
Qed.

(** *** Outside shuffle-driven mode *)

(** X20. Outside shuffle-driven mode (toggle off, shuffle off or no playlist
    context) with the guard free, skip requests go to the native player and
    nowhere else: after any sequence of them the state is what it was but for
    the log, which has gained one call of an original function per request.
    While the guard is held, however, [PlayerAPI.skipToNext] and
    [PlayerAPI.skipToPrevious] are dropped in every mode, the original
    function not being called. *)
Theorem skips_pass_to_native_out_of_mode (trace : list (Env * Event))
    (s : State) :
  (isHandlingAction s = false ->
   Forall (fun x =>
             isInTrueShuffleMode x.1 s = false /\
             x.2 ∈ [NextPressed; BackPressed; SkipToNextCalled;
                    SkipToPreviousCalled]) trace ->
   exists new,
     run trace s = set_log (log s ++ new) s /\
     length new = length trace /\
     Forall (fun c => c ∈ [OrigPlayerNext; OrigPlayerBack; OrigSkipToNext;
                           OrigSkipToPrevious]) new) /\
  (isHandlingAction s = true ->
   forall env,
     step env SkipToNextCalled s = s /\
     step env SkipToPreviousCalled s = s).
Proof.
  split.
  - intros Hguard Htrace.
    assert (forall L, exists new,
              run trace (set_log L s) = set_log (L ++ new) s /\
              length new = length trace /\
              Forall (fun c => c ∈ [OrigPlayerNext; OrigPlayerBack;
                                    OrigSkipToNext; OrigSkipToPrevious]) new)
      as H.
    { induction Htrace as [|[env ev] trace [Hmode Hev] _ IH]; intros L.
      - exists []. by rewrite app_nil_r.
      - cbn [fst snd] in Hmode, Hev.
        assert (exists c,
                  step env ev (set_log L s) = set_log (L ++ [c]) s /\
                  c ∈ [OrigPlayerNext; OrigPlayerBack; OrigSkipToNext;
                       OrigSkipToPrevious]) as (c & Hstep & Hc).
        { assert (isInTrueShuffleMode env (set_log L s) = false) as Hmode'
            by exact Hmode.
          assert (isHandlingAction (set_log L s) = false) as Hguard'
            by exact Hguard.
          rewrite !elem_of_cons in Hev.
          destruct Hev as [->|[->|[->|[->|Hev]]]];
            [| | | |by apply not_elem_of_nil in Hev]; cbn [step].
          - exists OrigPlayerNext. unfold Player_next. rewrite Hmode'.
            split; [done|]. rewrite !elem_of_cons. auto.
          - exists OrigPlayerBack. unfold Player_back. rewrite Hmode'.
            split; [done|]. rewrite !elem_of_cons. auto.
          - exists OrigSkipToNext. unfold PlayerAPI_skipToNext.
            rewrite Hguard', Hmode'.
            split; [done|]. rewrite !elem_of_cons. auto.
          - exists OrigSkipToPrevious. unfold PlayerAPI_skipToPrevious.
            rewrite Hguard', Hmode'.
            split; [done|]. rewrite !elem_of_cons. auto. }
        destruct (IH (L ++ [c])) as (new & Hrun & Hlen & Hall).
        exists (c :: new). cbn [run foldl]. 
        change (foldl _ ?x ?l) with (run l x).
        rewrite Hstep, Hrun, <- app_assoc. cbn. split_and!; [done|lia|].
        by apply Forall_cons. }
    destruct (H (log s)) as (new & Hrun & Hlen & Hall).
    exists new. split_and!; [|done..].
    rewrite <- Hrun. by destruct s.
  - intros Hguard env. cbn [step].
    unfold PlayerAPI_skipToNext, PlayerAPI_skipToPrevious.
    by rewrite Hguard.
Qed.

(** *** The handlers, cut at their awaits *)

Lemma playTrackInContext_cut (env : Env) (u : option string) (ok : bool)
    (s : State) :
  playTrackInContext env u ok s
  = match play_issue env u ok s with
    | Some s1 => (ok, play_settled ok s1)
    | None => (false, s)
    end.
Proof.
  unfold playTrackInContext, play_issue, play_settled.
  destruct (getContextUri env); [|done]. by destruct ok.
Qed.

Lemma settle_at_once_done (fuel : nat) (env : Env) (s : State) :
  settle_at_once fuel env (s, None) = s.
Proof. by destruct fuel. Qed.

Lemma pick_from_at_once (n fuel call attempt : nat) (env : Env) (s : State) :
  (n <= fuel)%nat ->
  settle_at_once fuel env (pick_from n call attempt env s)
  = release_guard_later (trueShufflePick n call attempt env s).
Proof.
  revert fuel call attempt s.
  induction n as [|n IH]; intros fuel call attempt s Hfuel;
    cbn [pick_from trueShufflePick].
  { apply settle_at_once_done. }
  destruct (pickNextTrack _ _ _) as [t|]; [|apply settle_at_once_done].
  rewrite playTrackInContext_cut.
  destruct (play_issue _ _ _ _) as [s1|].
  - destruct fuel as [|fuel]; [lia|]. cbn [settle_at_once snd fst resume].
    destruct (playOutcome env call).
    + apply settle_at_once_done.
    + apply IH. lia.
  - apply IH. lia.
Qed.

Lemma cadence_from_at_once (fuel calls : nat) (env : Env) (s : State) :
  (3 <= fuel)%nat ->
  settle_at_once fuel env (cadence_from calls env s)
  = release_guard_later
      (let s := set_skipCounter (S (skipCounter s)) s in
       if negb (skipCounter s mod TRUE_SHUFFLE_EVERY CONFIG =? 0)%nat
       then nativePassThrough s
       else trueShufflePick 3 calls 0 env s).
Proof.
  intros Hfuel. unfold cadence_from. cbv zeta.
  destruct (negb _).
  - apply settle_at_once_done.
  - by apply pick_from_at_once.
Qed.

Lemma after_load_at_once (fuel : nat) (env : Env) (s : State) :
  (4 <= fuel)%nat ->
  settle_at_once fuel env (after_load env s)
  = release_guard_later
      (if match currentPlaylistTracks s with
          | Some tracks => (0 <? length tracks)%nat
          | None => false
          end
       then
         let s := recordCurrentTrack env s in
         let '(done, calls, s) := replayForward env s in
         if done then s
         else
           let s := set_skipCounter (S (skipCounter s)) s in
           if negb (skipCounter s mod TRUE_SHUFFLE_EVERY CONFIG =? 0)%nat
           then nativePassThrough s
           else trueShufflePick 3 calls 0 env s
       else s).
Proof.
  intros Hfuel. unfold after_load. cbv zeta.
  destruct (match currentPlaylistTracks s with
            | Some tracks => (0 <? length tracks)%nat
            | None => false
            end); cbn [negb]; [|apply settle_at_once_done].
  unfold replayForward.
  destruct (navigationIndex _ <? _).
  - rewrite playTrackInContext_cut.
    destruct (play_issue _ _ _ _) as [s1|].
    + destruct fuel as [|fuel]; [lia|]. cbn [settle_at_once snd fst resume].
      destruct (playOutcome env 0); cbn [negb].
      * apply settle_at_once_done.
      * apply cadence_from_at_once. lia.
    + cbn [negb]. apply cadence_from_at_once. lia.
  - apply cadence_from_at_once. lia.
Qed.

(** A forward skip all of whose promises are settled at once, under one
    host, is [handleSkipForward]. *)
Lemma handleSkipForward_at_once (fuel : nat) (env : Env) (s : State) :
  (5 <= fuel)%nat ->
  settle_at_once fuel env (handleSkipForward_start env s)
  = handleSkipForward env s.
Proof.
  intros Hfuel. unfold handleSkipForward_start, handleSkipForward.
  destruct (isHandlingAction s); [apply settle_at_once_done|].
  cbv zeta. unfold skipForward_body, ensurePlaylistLoaded. cbv zeta.
  destruct (getContextUri env) as [c|] eqn:Hctx;
    [|apply settle_at_once_done].
  destruct (truthy (Some c)); cbn [negb]; [|apply settle_at_once_done].
  destruct (negb (bool_decide _) || negb (bool_decide _)).
  - destruct (isPlaylistUri (Some c)) eqn:Hp.
    + destruct fuel as [|fuel]; [lia|]. cbn [settle_at_once snd fst resume].
      rewrite after_load_at_once by lia. cbn.
      by destruct (loadPlaylistTracks env (Some c)) as [[|? ?]|].
    + rewrite after_load_at_once by lia.
      unfold loadPlaylistTracks. rewrite Hp. done.
  - rewrite after_load_at_once by lia.
    by destruct (currentPlaylistTracks _) as [[|? ?]|].
Qed.

(** Likewise for a back skip. *)
Lemma handleSkipBack_at_once (fuel : nat) (env : Env) (s : State) :
  (1 <= fuel)%nat ->
  settle_at_once fuel env (handleSkipBack_start env s) = handleSkipBack env s.
Proof.
  intros Hfuel. unfold handleSkipBack_start, handleSkipBack.
  destruct (isHandlingAction s); [apply settle_at_once_done|].
  cbv zeta. destruct (0 <? _); [|apply settle_at_once_done].
  rewrite playTrackInContext_cut.
  destruct (play_issue _ _ _ _) as [s1|]; [|apply settle_at_once_done].
  destruct fuel as [|fuel]; [lia|]. cbn [settle_at_once snd fst resume].
  apply settle_at_once_done.
Qed.

(** Every event: what it does up to the awaits of a handler it starts is
    what [step] does when these are settled at once; the pre-load of a
    context change, which the listener does not await, is the later event
    [PreloadResolved] of [step]. *)
Lemma begin_at_once (env : Env) (ev : Event) (s : State) :
  match (begin env ev s).2 with
  | Some (Preloading c) =>
      (begin env ev s).1 = step env ev s /\
      resume env (Preloading c) (begin env ev s).1
      = (step env (PreloadResolved (Some c)) (step env ev s), None)
  | _ => settle_at_once 5 env (begin env ev s) = step env ev s
  end.
Proof.
  assert (forall r : State * option Suspended,
            (forall c, r.2 <> Some (Preloading c)) ->
            forall s', settle_at_once 5 env r = s' ->
            match r.2 with
            | Some (Preloading c) =>
                r.1 = s' /\
                resume env (Preloading c) r.1
                = (step env (PreloadResolved (Some c)) s', None)
            | _ => settle_at_once 5 env r = s'
            end) as Hhandler.
  { intros [s1 [k|]] Hk s' Hs'; cbn [snd] in *; [|done].
    destruct k; try done. by destruct (Hk contextUri). }
  assert (forall s0 c,
            (handleSkipForward_start env s0).2 <> Some (Preloading c))
    as Hforward.
  { intros s0 c. unfold handleSkipForward_start, after_load, cadence_from.
    assert (forall n a b s1,
              (pick_from n a b env s1).2 <> Some (Preloading c)) as Hpick.
    { induction n as [|n IH]; intros a b s1; cbn [pick_from]; [done|].
      destruct (pickNextTrack _ _ _); [|done].
      destruct (play_issue _ _ _ _); [done|apply IH]. }
    repeat case_match; try done; apply Hpick. }
  assert (forall s0 c,
            (handleSkipBack_start env s0).2 <> Some (Preloading c))
    as Hback.
  { intros s0 c. unfold handleSkipBack_start. by repeat case_match. }
  destruct ev; cbn [begin step snd fst]; try done.
  - unfold Player_next. destruct (isInTrueShuffleMode env s); [|done].
    apply Hhandler; [apply Hforward|]. by apply handleSkipForward_at_once.
  - unfold Player_back. destruct (isInTrueShuffleMode env s); [|done].
    apply Hhandler; [apply Hback|]. apply handleSkipBack_at_once. lia.
  - unfold PlayerAPI_skipToNext. destruct (isHandlingAction s); [done|].
    destruct (isInTrueShuffleMode env s); [|done].
    apply Hhandler; [apply Hforward|]. by apply handleSkipForward_at_once.
  - unfold PlayerAPI_skipToPrevious. destruct (isHandlingAction s); [done|].
    destruct (isInTrueShuffleMode env s); [|done].
    apply Hhandler; [apply Hback|]. apply handleSkipBack_at_once. lia.
  - unfold songchange_start, songchange.
    destruct (isHandlingAction s); [done|].
    destruct (isNativePassSkip s); [done|].
    destruct (_ && _); [done|].
    destruct (negb (bool_decide _)).
    { cbn [snd fst]. destruct (getContextUri env) as [c|]; [|done].
      by destruct (isPlaylistUri (Some c)). }
    destruct (negb _); [done|].
    destruct (_ && _); [|done].
    apply Hhandler; [apply Hforward|]. by apply handleSkipForward_at_once.
Qed.

(** *** Sequential runs are executions of the event loop *)

Lemma exec_app (l1 l2 : list (Env * Turn)) (m m1 m2 : Machine) :
  exec l1 m = Some m1 -> exec l2 m1 = Some m2 -> exec (l1 ++ l2) m = Some m2.
Proof.
  revert m. induction l1 as [|[env t] l1 IH]; intros m H1 H2; cbn in *.
  - by injection H1 as ->.
  - destruct (exec_step env t m) as [m'|]; [|done]. by apply IH.
Qed.

(** Settling at once is a schedule of the event loop: the handler suspended
    last is resumed again and again, under the same host. *)
Lemma settle_at_once_exec (fuel : nat) (env : Env) (m : Machine)
    (waiting : list Suspended) (k : option Suspended) :
  awaiting m = waiting ++ option_list k ->
  exists schedule m',
    exec schedule m = Some m' /\
    vars m' = settle_at_once fuel env (vars m, k).
Proof.
  revert m k. induction fuel as [|fuel IH]; intros m k Hm.
  { exists [], m. by destruct k. }
  destruct k as [k|]; [|by exists [], m].
  set (m1 := absorb m (armed m) (delete (length waiting) (awaiting m))
               (resume env k (vars m))).
  change (option_list (Some k)) with [k] in Hm.
  assert (awaiting m !! length waiting = Some k) as Hlook
    by (rewrite Hm; by apply list_lookup_middle).
  assert (exec_step env (Settle (length waiting)) m = Some m1) as Hstep
    by (cbn [exec_step]; by rewrite Hlook).
  destruct (IH m1 (resume env k (vars m)).2) as (schedule & m' & Hexec & Hv).
  { subst m1. cbn [absorb awaiting]. rewrite Hm.
    by rewrite delete_middle, app_nil_r. }
  exists ((env, Settle (length waiting)) :: schedule), m'.
  split; [cbn [exec]; by rewrite Hstep|].
  rewrite Hv. cbn [settle_at_once snd fst]. subst m1. cbn [absorb vars].
  by destruct (resume env k (vars m)).
Qed.

(** Every sequential run of host events is an execution of the event loop:
    the one in which each promise is settled as soon as it is awaited (the
    pre-load of a context change, which no handler awaits, is left
    pending). *)
Lemma sequential_run_in_event_loop (trace : list (Env * Event))
    (m : Machine) :
  Forall (fun x => external x.2 = true) trace ->
  exists schedule m',
    exec schedule m = Some m' /\ vars m' = run trace (vars m).
Proof.
  intros Htrace. revert m.
  induction Htrace as [|[env ev] trace Hev _ IH]; intros m.
  { by exists [], m. }
  cbn [snd] in Hev.
  set (m1 := absorb m (armed m) (awaiting m) (begin env ev (vars m))).
  assert (exec_step env (Dispatch ev) m = Some m1) as Hstep
    by (by destruct ev).
  assert (exists schedule m2,
            exec schedule m1 = Some m2 /\
            vars m2 = step env ev (vars m)) as (schedule1 & m2 & Hexec1 & Hv1).
  { pose proof (begin_at_once env ev (vars m)) as Hb.
    destruct (begin env ev (vars m)) as [s1 k] eqn:Hbegin.
    cbn [fst snd] in Hb.
    assert (forall s', settle_at_once 5 env (s1, k) = s' ->
              exists schedule m2,
                exec schedule m1 = Some m2 /\ vars m2 = s') as Hsettle.
    { intros s' <-.
      apply (settle_at_once_exec 5 env m1 (awaiting m) k). by subst m1. }
    destruct k as [[]|]; try (by apply Hsettle).
    exists [], m1. split; [done|]. by destruct Hb as [-> _]. }
  destruct (IH m2) as (schedule2 & m' & Hexec2 & Hv2).
  exists ((env, Dispatch ev) :: schedule1 ++ schedule2), m'. split.
  - cbn [exec]. rewrite Hstep. by apply (exec_app _ _ _ m2).
  - rewrite Hv2, Hv1. done.
Qed.

(** *** What the event loop keeps *)

Lemma steady_same (s s' : State) :
  navigationHistory s' = navigationHistory s ->
  same_mute s s' ->
  steady s -> steady s'.
Proof.
  intros Hh Hm [Hn Hi]. split; [by rewrite Hh|by apply (mute_inv_same s)].
Qed.

Lemma recordCurrentTrack_steady (env : Env) (s : State) :
  steady s -> steady (recordCurrentTrack env s).
Proof.
  apply steady_same.
  - by destruct (recordCurrentTrack_nav env s).
  - by destruct (recordCurrentTrack_frame env s) as (_ & _ & ? & _).
Qed.

Lemma pushToNavigation_steady (u : option string) (s : State) :
  steady s -> steady (pushToNavigation u s).
Proof.
  intros [Hn Hi]. split; [by apply pushToNavigation_length|].
  destruct (pushToNavigation_frame u s) as (_ & _ & Hm & _).
  by apply (mute_inv_same s).
Qed.

Lemma restoreVolume_steady (s : State) : steady s -> steady (restoreVolume s).
Proof.
  intros [Hn Hi]. split; [|by apply restoreVolume_mute_inv].
  by destruct (restoreVolume_nav s) as [-> _].
Qed.

Lemma muteForSkip_steady (s : State) : steady s -> steady (muteForSkip s).
Proof.
  intros [Hn Hi]. split; [|by apply muteForSkip_mute_inv].
  by destruct (muteForSkip_nav s) as [-> _].
Qed.

Lemma play_issue_steady (env : Env) (u : option string) (ok : bool)
    (s s1 : State) :
  play_issue env u ok s = Some s1 -> steady s -> steady s1.
Proof.
  unfold play_issue. destruct (getContextUri env); [|done].
  intros [= <-]. by apply steady_same.
Qed.

Lemma play_settled_steady (ok : bool) (s : State) :
  steady s -> steady (play_settled ok s).
Proof.
  intros Hs. unfold play_settled.
  destruct ok; apply restoreVolume_steady; [done|].
  by apply (steady_same s).
Qed.

Lemma finish_steady (s : State) : steady s -> steady (finish s).1.
Proof. by apply steady_same. Qed.

Lemma nativePassThrough_steady (s : State) :
  steady s -> steady (nativePassThrough s).
Proof.
  intros Hs. unfold nativePassThrough.
  apply (steady_same
           (muteForSkip
              (set_isHandlingAction false (set_isNativePassSkip true s))));
    [done|done|].
  apply muteForSkip_steady. by apply (steady_same s).
Qed.

Lemma pick_from_steady (n call attempt : nat) (env : Env) (s : State) :
  steady s -> steady (pick_from n call attempt env s).1.
Proof.
  revert call attempt s. induction n as [|n IH]; intros call attempt s Hs;
    cbn [pick_from]; [by apply finish_steady|].
  destruct (pickNextTrack _ _ _) as [t|]; [|by apply finish_steady].
  destruct (play_issue _ _ _ _) as [s1|] eqn:Hp.
  - cbn [fst]. by apply (play_issue_steady _ _ _ _ _ Hp).
  - apply IH. by apply (steady_same s).
Qed.

Lemma cadence_from_steady (calls : nat) (env : Env) (s : State) :
  steady s -> steady (cadence_from calls env s).1.
Proof.
  intros Hs. unfold cadence_from. cbv zeta.
  assert (steady (set_skipCounter (S (skipCounter s)) s)) as Hs'
    by (by apply (steady_same s)).
  destruct (negb _).
  - by apply finish_steady, nativePassThrough_steady.
  - by apply pick_from_steady.
Qed.

Lemma after_load_steady (env : Env) (s : State) :
  steady s -> steady (after_load env s).1.
Proof.
  intros Hs. unfold after_load. cbv zeta.
  destruct (negb _); [by apply finish_steady|].
  apply (recordCurrentTrack_steady env) in Hs.
  destruct (navigationIndex _ <? _); [|by apply cadence_from_steady].
  destruct (play_issue _ _ _ _) as [s1|] eqn:Hp.
  - cbn [fst]. apply (play_issue_steady _ _ _ _ _ Hp).
    by apply (steady_same (recordCurrentTrack env s)).
  - apply cadence_from_steady.
    by apply (steady_same (recordCurrentTrack env s)).
Qed.

Lemma handleSkipForward_start_steady (env : Env) (s : State) :
  steady s -> steady (handleSkipForward_start env s).1.
Proof.
  intros Hs. unfold handleSkipForward_start.
  destruct (isHandlingAction s); [done|]. cbv zeta.
  assert (forall x y z,
            steady (set_currentPlaylistTracks x
                      (set_currentPlaylistUri y (set_isHandlingAction z s))))
    as Hset by (intros; by apply (steady_same s)).
  destruct (negb (truthy _)); [by apply finish_steady, (steady_same s)|].
  destruct (_ || _);
    [|by apply after_load_steady, (steady_same s)].
  destruct (getContextUri env) as [c|]; [|by apply after_load_steady].
  destruct (isPlaylistUri _); [|by apply after_load_steady].
  by apply (steady_same s).
Qed.

Lemma handleSkipBack_start_steady (env : Env) (s : State) :
  steady s -> steady (handleSkipBack_start env s).1.
Proof.
  intros Hs. unfold handleSkipBack_start.
  destruct (isHandlingAction s); [done|]. cbv zeta.
  destruct (0 <? _); [|by apply finish_steady, (steady_same s)].
  destruct (play_issue _ _ _ _) as [s1|] eqn:Hp.
  - cbn [fst]. apply (play_issue_steady _ _ _ _ _ Hp).
    by apply (steady_same s).
  - by apply finish_steady, (steady_same s).
Qed.

Lemma songchange_start_steady (env : Env) (s : State) :
  steady s -> steady (songchange_start env s).1.
Proof.
  intros Hs. unfold songchange_start.
  destruct (isHandlingAction s); [done|].
  destruct (isNativePassSkip s).
  { cbn [fst]. unfold validateNativePick.
    destruct (data_item env ≫= item_uri) as [u|];
      [|by apply (steady_same s)].
    destruct (truthy (Some u)); cbn [negb]; [|by apply (steady_same s)].
    destruct (bool_decide _).
    - apply (steady_same
               (muteForSkip
                  (set_isNativePassSkip true (set_isNativePassSkip false s))));
        [done|done|].
      apply muteForSkip_steady. by apply (steady_same s).
    - apply restoreVolume_steady, recordCurrentTrack_steady,
        pushToNavigation_steady.
      by apply (steady_same s). }
  destruct (_ && _); [by apply (steady_same s)|].
  destruct (negb (bool_decide _)).
  { cbn [fst]. destruct Hs as [_ Hi]. split.
    - unfold contextChanged. destruct (truthy _); [|cbn; lia].
      apply pushToNavigation_length. cbn. lia.
    - by apply (mute_inv_same s); [apply contextChanged_mute|]. }
  destruct (negb _); [done|].
  destruct (_ && _); [|done].
  by apply handleSkipForward_start_steady.
Qed.

Lemma begin_steady (env : Env) (ev : Event) (s : State) :
  steady s -> steady (begin env ev s).1.
Proof.
  intros Hs.
  pose proof (handleSkipForward_start_steady env (muteForSkip s)
                (muteForSkip_steady s Hs)) as Hforward.
  pose proof (handleSkipBack_start_steady env s Hs) as Hback.
  destruct ev; cbn [begin step fst].
  - destruct (isInTrueShuffleMode env s); [done|by apply (steady_same s)].
  - destruct (isInTrueShuffleMode env s); [done|by apply (steady_same s)].
  - destruct (isHandlingAction s); [done|].
    destruct (isInTrueShuffleMode env s); [done|by apply (steady_same s)].
  - destruct (isHandlingAction s); [done|].
    destruct (isInTrueShuffleMode env s); [done|by apply (steady_same s)].
  - by apply songchange_start_steady.
  - by apply (steady_same s).
  - by apply (steady_same s).
  - by apply (steady_same s).
  - destruct (loadPlaylistTracks env contextUri); [|done].
    by apply (steady_same s).
  - by apply (steady_same s).
Qed.

Lemma resume_steady (env : Env) (k : Suspended) (s : State) :
  steady s -> steady (resume env k s).1.
Proof.
  intros Hs. destruct k; cbn [resume].
  - apply after_load_steady. by apply (steady_same s).
  - pose proof (play_settled_steady ok s Hs) as Hp.
    destruct ok; cbn [negb]; [by apply finish_steady|].
    apply cadence_from_steady. by apply (steady_same (play_settled false s)).
  - pose proof (play_settled_steady ok s Hs) as Hp.
    destruct ok.
    + by apply finish_steady, pushToNavigation_steady.
    + apply pick_from_steady. by apply (steady_same (play_settled false s)).
  - by apply finish_steady, play_settled_steady.
  - cbn [step fst]. destruct (loadPlaylistTracks _ _); [|done].
    by apply (steady_same s).
Qed.

Lemma exec_step_steady (env : Env) (t : Turn) (m m' : Machine) :
  exec_step env t m = Some m' -> steady (vars m) -> steady (vars m').
Proof.
  intros Hstep Hs. destruct t as [ev|i|i]; cbn [exec_step] in Hstep.
  - pose proof (begin_steady env ev (vars m) Hs) as Hb.
    by destruct ev; try done; injection Hstep as <-.
  - destruct (armed m !! i) as [[]|]; [| |done]; injection Hstep as <-;
      by apply (steady_same (vars m)).
  - destruct (awaiting m !! i) as [k|]; [|done]. injection Hstep as <-.
    by apply resume_steady.
Qed.

Lemma exec_steady (schedule : list (Env * Turn)) (m m' : Machine) :
  exec schedule m = Some m' -> steady (vars m) -> steady (vars m').
Proof.
  revert m. induction schedule as [|[env t] schedule IH]; intros m Hexec Hs;
    cbn [exec] in Hexec.
  - by injection Hexec as <-.
  - destruct (exec_step env t m) as [m1|] eqn:Hstep; [|done].
    apply (IH m1 Hexec). by apply (exec_step_steady env t m).
Qed.

(** X21. In the event loop, whatever the interleaving of events, timers and
    resumed handlers: after every execution from start-up the navigation
    history holds at most HISTORY_SIZE entries, a muted player has a saved
    volume, and [restoreVolume] would leave it unmuted. *)
Theorem event_loop_keeps_history_bound_and_saved_volume (v : float)
    (schedule : list (Env * Turn)) (m : Machine) :
  exec schedule (boot v) = Some m ->
  (length (navigationHistory (vars m)) <= HISTORY_SIZE CONFIG)%nat /\
  (smoothSkipMuted (vars m) = true -> is_Some (savedVolume (vars m))) /\
  smoothSkipMuted (restoreVolume (vars m)) = false.
Proof.
  intros Hexec.
  destruct (exec_steady schedule (boot v) m Hexec) as [Hn Hi].
  { split; [cbn; lia|intros [=]]. }
  split; [exact Hn|]. split; [exact Hi|].
  by destruct (restoreVolume_spec (vars m) Hi) as (? & _).
Qed.

End TrueShuffle.

(** ** The weights of the shipped configuration *)

(** X16. With the [CONFIG] of the source, a track that is not in the play
    history weighs 1, or 0.15 when its artist is the artist of one of the two
    most recent entries - whatever [Math.exp] computes. *)
Theorem calculateWeight_of_unplayed_track (Math_exp : float -> float)
    (track : Track) (history : list HistoryEntry) :
  uri track ∉ h_uri <$> history ->
  calculateWeight default_CONFIG Math_exp track history
  = if truthy (artistUri track)
       && bool_decide (artistUri track ∈ h_artistUri <$> take 2 history)
    then ARTIST_PENALTY default_CONFIG
    else 1%float.
Proof.
  intros Habsent. rewrite calculateWeight_absent by done.
  change (ARTIST_SPACING default_CONFIG) with 2%nat.
  by destruct (_ && _).
Qed.

(** X17. With the [CONFIG] of the source and a [Math.exp] that maps -0 to 1,
    the track at the front of the play history weighs exactly MIN_WEIGHT,
    whether or not the artist penalty applies. *)
Theorem calculateWeight_of_latest_track (Math_exp : float -> float)
    (track : Track) (e : HistoryEntry) (older : list HistoryEntry) :
  h_uri e = uri track ->
  Math_exp (-0)%float = 1%float ->
  calculateWeight default_CONFIG Math_exp track (e :: older)
  = MIN_WEIGHT default_CONFIG.
Proof.
  intros He Hexp. rewrite calculateWeight_latest by done.
  change (- RECENCY_DECAY_RATE default_CONFIG * 0)%float with (-0)%float.
  rewrite Hexp. cbv zeta.
  by destruct (_ && _).
Qed.

(** ** The handlers at concrete inputs *)

(** C1. With the [CONFIG] of the source, a play history that holds
    HISTORY_SIZE = 500 entries and a True Shuffle pick whose first play
    command fails: the failed track is prepended without truncation and the
    play history is left with 501 entries. *)
Theorem failed_attempt_exceeds_HISTORY_SIZE :
  let s := listening 600 500 in
  let env := playing 0 (fun n => bool_decide (n = 1%nat)) in
  let s' := step default_CONFIG Math_exp_approx env NextPressed s in
  length (playHistory s) = HISTORY_SIZE default_CONFIG /\
  plays (log s')
  = [(Some "spotify:track:100", false); (Some "spotify:track:99", true)] /\
  length (playHistory s') = S (HISTORY_SIZE default_CONFIG).
Proof. vm_compute. by split_and!. Qed.

(** C8. The cursor does not stay valid in the event loop.  Along
    [stale_guard_release] the guard is free while the forward skip awaits
    its play command, the track-changed event of a new context resets the
    navigation history to the one playing track with the cursor on it, and
    the forward step, resumed by the rejection of its play command, takes
    the cursor back by one: the history holds one entry and the cursor
    is -1. *)
Theorem stale_guard_release_invalidates_cursor :
  exists suspended resumed,
    exec default_CONFIG Math_exp_approx (take 11 stale_guard_release)
      (boot 0.5) = Some suspended /\
    isHandlingAction (vars suspended) = false /\
    awaiting suspended !! 0%nat = Some (ReplayingForward false) /\
    navigationHistory (vars suspended) = ["spotify:track:5"] /\
    navigationIndex (vars suspended) = 0 /\
    nav_ok (vars suspended) /\
    exec default_CONFIG Math_exp_approx stale_guard_release (boot 0.5)
    = Some resumed /\
    navigationHistory (vars resumed) = ["spotify:track:5"] /\
    navigationIndex (vars resumed) = -1 /\
    ~ nav_ok (vars resumed).
Proof.
  eexists _, _.
  split; [vm_compute; reflexivity|].
  split; [reflexivity|]. split; [reflexivity|]. split; [reflexivity|].
  split; [reflexivity|]. split; [right; cbn; lia|].
  split; [vm_compute; reflexivity|].
  split; [reflexivity|]. split; [reflexivity|].
  intros [[Hnil _]|Hidx]; [discriminate Hnil|cbn in Hidx; lia].
Qed.

(** C2, as stated, fails: a forward skip all of whose play commands fail
    restores the volume right after the first failure, with no pick
    confirmed, and issues its second and third play commands unmuted; and a
    forward skip that the track-changed listener starts at the end of a
    track plays its pick with no mute before it. *)
Lemma volume_restored_after_failed_play :
  let s := listening 6 3 in
  let s' :=
    step default_CONFIG Math_exp_approx (playing 0 (fun _ => false))
      NextPressed s in
  let ending := near_end 6 3 in
  let ended :=
    step default_CONFIG Math_exp_approx (playing 0 (fun _ => true))
      SongChange ending in
  (volume s = 0.5%float /\
   log s'
   = log s
     ++ [SetVolume 0;
         Play "spotify:playlist:P" (Some "spotify:track:3") false;
         SetVolume 0.5;
         Play "spotify:playlist:P" (Some "spotify:track:4") false;
         Play "spotify:playlist:P" (Some "spotify:track:5") false;
         SetTimeout GuardRelease 1500] /\
   smoothSkipMuted s' = false /\
   volume s' = 0.5%float) /\
  (log ended
   = log ending
     ++ [Play "spotify:playlist:P" (Some "spotify:track:3") true;
         SetTimeout GuardRelease 1500] /\
   volume ended = 0.5%float).
Proof. vm_compute. by split_and!. Qed.

(** ** The hypotheses of the theorems are met *)

Lemma pickNextTrack_null_iff_empty_else_member_witness :
  [track_of 0; track_of 1] <> [] /\
  exists t,
    pickNextTrack default_CONFIG Math_exp_approx
      (Some [track_of 0; track_of 1]) [] 0.5%float = Some t /\
    t ∈ [track_of 0; track_of 1].
Proof.
  split; [done|].
  apply (proj2 (proj2 (pickNextTrack_null_iff_empty_else_member
                         default_CONFIG Math_exp_approx
                         [track_of 0; track_of 1] [] 0.5%float))).
  done.
Defined.

Lemma pickNextTrack_respects_window_witness :
  let tracks := [track_of 0; track_of 1; track_of 2; track_of 3] in
  let history := [entry_of 0; entry_of 1; entry_of 2; entry_of 7] in
  (2 <= length tracks)%nat /\
  (pickNextTrack window_2_CONFIG Math_exp_approx (Some tracks) history
     0.5%float = Some (track_of 2) \/
   pickNextTrack window_2_CONFIG Math_exp_approx (Some tracks) history
     0.5%float = Some (track_of 3)).
Proof.
  cbv zeta. split; [cbn; lia|].
  refine (proj2 (pickNextTrack_respects_window window_2_CONFIG Math_exp_approx
                   _ _ 0.5%float _)
            (track_of 0) (track_of 1) (track_of 2) (track_of 3)
            (entry_of 0) (entry_of 1) (entry_of 2) [entry_of 7]
            _ _ _ _ _ _ _ _ _ _);
    try reflexivity; try (cbn; lia);
    intros H; vm_compute in H; discriminate H.
Defined.

Lemma handleSkipForward_cadence_witness :
  let s := listening 6 3 in
  let env := playing 0 (fun _ => true) in
  let s' := handleSkipForward default_CONFIG Math_exp_approx env s in
  isHandlingAction s = false /\
  (ensurePlaylistLoaded env s).1 = true /\
  ~ navigationIndex s < Z.of_nat (length (navigationHistory s)) - 1 /\
  TRUE_SHUFFLE_EVERY default_CONFIG = 3%nat /\
  skipCounter s = 2%nat /\
  skipCounter s' = 3%nat /\
  (NativeSkip ∉ timers (drop (length (log s)) (log s'))) /\
  exists ctx t more,
    drop (length (log s)) (log s')
    = Play ctx (Some (uri t)) (playOutcome env 0) :: more.
Proof.
  cbv zeta.
  assert (isHandlingAction (listening 6 3) = false) as H1 by reflexivity.
  assert ((ensurePlaylistLoaded (playing 0 (fun _ => true))
             (listening 6 3)).1 = true) as H2 by (vm_compute; reflexivity).
  assert (~ navigationIndex (listening 6 3)
            < Z.of_nat (length (navigationHistory (listening 6 3))) - 1)
    as H3 by (cbn; lia).
  assert (TRUE_SHUFFLE_EVERY default_CONFIG = 3%nat) as H4 by reflexivity.
  assert (skipCounter (listening 6 3) = 2%nat) as H5 by reflexivity.
  destruct (handleSkipForward_cadence default_CONFIG Math_exp_approx
              (playing 0 (fun _ => true)) (listening 6 3) H1 H2 H3)
    as (Hc & _ & _ & Hpick & _ & Hscenario).
  destruct (Hscenario H4) as (_ & _ & Hthird).
  destruct (Hpick (Hthird H5))
    as (_ & _ & ctx & t & more & _ & _ & Hfirst & _).
  split_and!; [exact H1|exact H2|exact H3|exact H4|exact H5|exact Hc
              |exact (Hthird H5)|].
  exists ctx, t, more. exact Hfirst.
Defined.

Lemma songchange_validates_native_pick_witness :
  let s := awaiting_native_pick in
  let env := playing 0 (fun _ => true) in
  let env' := playing 5 (fun _ => true) in
  "spotify:track:0" ∈ recentWindow 100 (playHistory s) /\
  isNativePassSkip (songchange default_CONFIG Math_exp_approx env s) = true /\
  ("spotify:track:5" ∉ recentWindow 100 (playHistory s)) /\
  (0 < HISTORY_SIZE default_CONFIG)%nat /\
  last (navigationHistory (songchange default_CONFIG Math_exp_approx env' s))
  = Some "spotify:track:5".
Proof.
  cbv zeta.
  assert ("spotify:track:0"
          ∈ recentWindow 100 (playHistory awaiting_native_pick))
    as Hin by (vm_compute; left).
  assert ("spotify:track:5"
          ∉ recentWindow 100 (playHistory awaiting_native_pick)) as Hout.
  { apply (bool_decide_unpack _). vm_compute. exact I. }
  assert (0 < HISTORY_SIZE default_CONFIG)%nat as Hsize by (cbn; lia).
  split; [exact Hin|]. split.
  { refine (proj1 (proj2 (proj1
              (songchange_validates_native_pick default_CONFIG
                 Math_exp_approx (playing 0 (fun _ => true))
                 {| item_uri := Some (uri (track_of 0));
                    item_artist_uri := artistUri (track_of 0) |}
                 "spotify:track:0" awaiting_native_pick _ _ _ _ _) Hin)));
      reflexivity. }
  split; [exact Hout|]. split; [exact Hsize|].
  refine (proj2 (proj2 (proj1 (proj2 (proj2 (proj2 (proj2
            (songchange_validates_native_pick default_CONFIG
               Math_exp_approx (playing 5 (fun _ => true))
               {| item_uri := Some (uri (track_of 5));
                  item_artist_uri := artistUri (track_of 5) |}
               "spotify:track:5" awaiting_native_pick _ _ _ _ _) Hout))))))
            Hsize); reflexivity.
Defined.


Lemma trueShufflePick_at_most_three_attempts_witness :
  let env := playing 0 (fun _ => false) in
  let env' := playing 0 (fun _ => true) in
  let s := listening 6 3 in
  getContextUri env = Some "spotify:playlist:P" /\
  currentPlaylistTracks s = Some (track_of <$> seq 0 6) /\
  track_of <$> seq 0 6 <> [] /\
  (exists new,
     log (trueShufflePick default_CONFIG Math_exp_approx 3 0 0 env s)
     = log s ++ new /\
     (length (plays new) <= 3)%nat) /\
  (0 < HISTORY_SIZE default_CONFIG)%nat /\
  exists t,
    truthy (Some (uri t)) = true /\
    last (navigationHistory
            (trueShufflePick default_CONFIG Math_exp_approx 3 0 0 env' s))
    = Some (uri t).
Proof.
  cbv zeta.
  assert (getContextUri (playing 0 (fun _ => false))
          = Some "spotify:playlist:P") as H1 by reflexivity.
  assert (currentPlaylistTracks (listening 6 3) = Some (track_of <$> seq 0 6))
    as H2 by reflexivity.
  assert (track_of <$> seq 0 6 <> []) as H3 by done.
  assert (0 < HISTORY_SIZE default_CONFIG)%nat as H4 by (cbn; lia).
  split_and!; [exact H1|exact H2|exact H3| |exact H4|].
  - destruct (trueShufflePick_at_most_three_attempts default_CONFIG
                Math_exp_approx (playing 0 (fun _ => false))
                "spotify:playlist:P" (track_of <$> seq 0 6) 0 (listening 6 3)
                H1 H2 H3)
      as (failed & succ & new & Hl & _ & Hp & _).
    exists new. split; [exact Hl|exact Hp].
  - destruct (trueShufflePick_at_most_three_attempts default_CONFIG
                Math_exp_approx (playing 0 (fun _ => true))
                "spotify:playlist:P" (track_of <$> seq 0 6) 0 (listening 6 3)
                H1 H2 H3)
      as (failed & succ & new & Hl & Hp & _ & _ & _ & _ & Hcase).
    vm_compute in Hl. rewrite <- Hl in Hp.
    destruct Hcase as [(t & -> & _ & _ & Hpush)|(-> & _ & _)].
    + destruct failed as [|f failed]; [|discriminate Hp].
      injection Hp as Hu.
      assert (truthy (Some (uri t)) = true) as Ht
        by (rewrite <- Hu; reflexivity).
      exists t. split; [exact Ht|].
      exact (proj2 (proj2 (Hpush Ht)) H4).
    + destruct failed as [|f failed]; discriminate Hp.
Defined.

Lemma back_skip_keeps_cursor_on_failure_witness :
  let env := playing 2 (fun _ => false) in
  getContextUri env = Some "spotify:playlist:P" /\
  playOutcome env 0 = false /\
  isHandlingAction stepped_back = false /\
  0 < navigationIndex stepped_back /\
  navigationIndex stepped_back
  < Z.of_nat (length (navigationHistory stepped_back)) - 1 /\
  navigationIndex (handleSkipBack env stepped_back) = 1 /\
  navigationIndex (replayForward env stepped_back).2 = 2.
Proof.
  cbv zeta.
  assert (getContextUri (playing 2 (fun _ => false))
          = Some "spotify:playlist:P") as H1 by reflexivity.
  assert (playOutcome (playing 2 (fun _ => false)) 0 = false)
    as H2 by reflexivity.
  assert (isHandlingAction stepped_back = false) as H3 by reflexivity.
  assert (0 < navigationIndex stepped_back) as H4 by (cbn; lia).
  assert (navigationIndex stepped_back
          < Z.of_nat (length (navigationHistory stepped_back)) - 1)
    as H5 by (cbn; lia).
  destruct (back_skip_keeps_cursor_on_failure
              (playing 2 (fun _ => false)) "spotify:playlist:P"
              stepped_back H1 H2) as [Hback Hforward].
  split_and!; [exact H1|exact H2|exact H3|exact H4|exact H5| |].
  - exact (proj1 (Hback H3 H4)).
  - exact (proj1 (proj2 (proj2 (Hforward H5)))).
Defined.

Lemma volume_restored_when_play_completes_witness :
  let env := playing 5 (fun _ => true) in
  let s := awaiting_native_pick in
  let m := {| vars := s; armed := []; awaiting := [SteppingBack true] |} in
  mute_inv s /\
  isInTrueShuffleMode env s = true /\
  isHandlingAction s = false /\
  getContextUri env = Some "spotify:playlist:P" /\
  ("spotify:track:5" ∉ recentWindow 100 (playHistory s)) /\
  (exists rest,
     log (PlayerAPI_skipToNext default_CONFIG Math_exp_approx env s)
     = log s ++ SetVolume 0 :: rest /\ quiet rest) /\
  smoothSkipMuted
    (playTrackInContext env (Some "spotify:track:4") false s).2 = false /\
  smoothSkipMuted (songchange default_CONFIG Math_exp_approx env s) = false /\
  (exists m',
     exec_step default_CONFIG Math_exp_approx env (Settle 0) m = Some m' /\
     smoothSkipMuted s = true /\
     smoothSkipMuted (vars m') = false /\
     ((exists i k,
         Settle 0 = Settle i /\ awaiting m !! i = Some k /\
         awaits_play k = true) \/
      (Settle 0 = Dispatch SongChange /\
       isHandlingAction s = false /\
       isNativePassSkip s = true /\
       exists u,
         data_item env ≫= item_uri = Some u /\
         truthy (Some u) = true /\
         u ∉ recentWindow (NO_REPEAT_WINDOW default_CONFIG)
               (playHistory s)))) /\
  (let s := near_end 6 3 in
   let new :=
     drop (length (log s))
       (log (songchange default_CONFIG Math_exp_approx env s)) in
   mute_inv s /\
   getContextUri env = lastContextUri s /\
   0 < lastDuration s /\
   lastDuration s - lastProgress s < 5000 /\
   (plays new = [] \/ exists ctx u ok post, new = Play ctx u ok :: post)).
Proof.
  cbv zeta.
  assert (mute_inv awaiting_native_pick) as H1 by (intros _; by eexists).
  assert (isInTrueShuffleMode (playing 5 (fun _ => true))
            awaiting_native_pick = true) as H2 by (vm_compute; reflexivity).
  assert (isHandlingAction awaiting_native_pick = false)
    as H2' by reflexivity.
  assert (getContextUri (playing 5 (fun _ => true))
          = Some "spotify:playlist:P") as H3 by reflexivity.
  assert ("spotify:track:5"
          ∉ recentWindow 100 (playHistory awaiting_native_pick)) as H4.
  { apply (bool_decide_unpack _). vm_compute. exact I. }
  destruct (volume_restored_when_play_completes default_CONFIG
              Math_exp_approx (playing 5 (fun _ => true))
              awaiting_native_pick H1)
    as (Hnext & _ & Hplay & Hnative & Honly).
  assert (mute_inv (near_end 6 3)) as H5 by (intros H; discriminate H).
  assert (getContextUri (playing 5 (fun _ => true))
          = lastContextUri (near_end 6 3)) as H6 by reflexivity.
  assert (0 < lastDuration (near_end 6 3)) as H7 by (cbn; lia).
  assert (lastDuration (near_end 6 3) - lastProgress (near_end 6 3) < 5000)
    as H8 by (cbn; lia).
  destruct (volume_restored_when_play_completes default_CONFIG
              Math_exp_approx (playing 5 (fun _ => true))
              (near_end 6 3) H5)
    as (_ & Hauto & _).
  do 5 (split; [assumption|]).
  split.
  { destruct (proj2 (Hnext H2) H2') as (rest & Hl & Hq & _).
    exists rest. split; [exact Hl|exact Hq]. }
  split.
  { exact (proj1 (Hplay "spotify:playlist:P" (Some "spotify:track:4") false
                    H3)). }
  split.
  { refine (proj1 (proj1 (Hnative
              {| item_uri := Some (uri (track_of 5));
                 item_artist_uri := artistUri (track_of 5) |}
              "spotify:track:5" _ _ _ _ _) H4)); reflexivity. }
  split.
  { eexists. split; [reflexivity|]. split; [reflexivity|].
    split; [reflexivity|].
    exact (Honly (Settle 0)
             {| vars := awaiting_native_pick; armed := [];
                awaiting := [SteppingBack true] |} _
             eq_refl eq_refl eq_refl eq_refl). }
  do 4 (split; [assumption|]).
  refine (proj1 (proj2 (Hauto _ _ _ H6 _ H7 H8)));
    vm_compute; reflexivity.
Defined.

Lemma recordCurrentTrack_moves_to_front_witness :
  let env := playing 1 (fun _ => true) in
  let item :=
    {| item_uri := Some "spotify:track:1";
       item_artist_uri := Some "spotify:artist:0" |} in
  let s := listening 6 3 in
  data_item env = Some item /\
  item_uri item = Some "spotify:track:1" /\
  truthy (Some "spotify:track:1") = true /\
  (0 < HISTORY_SIZE default_CONFIG)%nat /\
  "spotify:track:1" ∈ h_uri <$> playHistory s /\
  head (playHistory (recordCurrentTrack default_CONFIG env s))
  = Some {| h_uri := "spotify:track:1";
            h_artistUri := or_null (item_artist_uri item) |} /\
  (length (playHistory (recordCurrentTrack default_CONFIG env s))
   <= length (playHistory s))%nat.
Proof.
  cbv zeta.
  assert (data_item (playing 1 (fun _ => true))
          = Some {| item_uri := Some "spotify:track:1";
                    item_artist_uri := Some "spotify:artist:0" |})
    as H1 by reflexivity.
  assert (item_uri {| item_uri := Some "spotify:track:1";
                      item_artist_uri := Some "spotify:artist:0" |}
          = Some "spotify:track:1") as H2 by reflexivity.
  assert (truthy (Some "spotify:track:1") = true) as H3 by reflexivity.
  assert (0 < HISTORY_SIZE default_CONFIG)%nat as H4 by (cbn; lia).
  assert ("spotify:track:1" ∈ h_uri <$> playHistory (listening 6 3)) as H5.
  { apply (bool_decide_unpack _). vm_compute. exact I. }
  destruct (recordCurrentTrack_moves_to_front default_CONFIG
              (playing 1 (fun _ => true)) _ "spotify:track:1"
              (listening 6 3) H1 H2 H3 H4)
    as (Hhead & _ & _ & _ & _ & Hlen).
  split_and!; [exact H1|exact H2|exact H3|exact H4|exact H5|exact Hhead|].
  exact (Hlen H5).
Defined.

Lemma navigation_history_bounded_witness :
  let env := playing 0 (fun _ => true) in
  (length (navigationHistory stepped_back) <= HISTORY_SIZE default_CONFIG)%nat /\
  (length
     (navigationHistory
        (step default_CONFIG Math_exp_approx env NextPressed stepped_back))
   <= HISTORY_SIZE default_CONFIG)%nat.
Proof.
  cbv zeta.
  assert (length (navigationHistory stepped_back)
          <= HISTORY_SIZE default_CONFIG)%nat as H by (cbn; lia).
  split; [exact H|].
  exact (proj1 (navigation_history_bounded default_CONFIG Math_exp_approx)
           (playing 0 (fun _ => true)) NextPressed stepped_back H).
Defined.

Lemma pushToNavigation_at_tail_appends_witness :
  let s := listening 6 3 in
  let s' := pushToNavigation default_CONFIG (Some "spotify:track:9") s in
  truthy (Some "spotify:track:9") = true /\
  ~ navigationIndex s < Z.of_nat (length (navigationHistory s)) - 1 /\
  (length (navigationHistory s) < HISTORY_SIZE default_CONFIG)%nat /\
  navigationHistory s' = navigationHistory s ++ ["spotify:track:9"] /\
  navigationIndex s' = Z.of_nat (length (navigationHistory s)).
Proof.
  cbv zeta.
  assert (truthy (Some "spotify:track:9") = true) as H1 by reflexivity.
  assert (~ navigationIndex (listening 6 3)
            < Z.of_nat (length (navigationHistory (listening 6 3))) - 1)
    as H2 by (cbn; lia).
  assert (length (navigationHistory (listening 6 3))
          < HISTORY_SIZE default_CONFIG)%nat as H3 by (cbn; lia).
  destruct (pushToNavigation_at_tail_appends default_CONFIG
              "spotify:track:9" (listening 6 3) H1 H2)
    as (_ & _ & Hroom & _).
  destruct (Hroom H3) as [Hnav Hidx].
  split_and!; [exact H1|exact H2|exact H3|exact Hnav|exact Hidx].
Defined.

Lemma back_skips_stop_at_first_entry_witness :
  let envs :=
    [playing 2 (fun _ => true); playing 1 (fun _ => true);
     playing 0 (fun _ => true)] in
  isHandlingAction stepped_back = false /\
  isActive stepped_back = true /\
  Forall (fun env => getShuffle env && isPlaylistUri (getContextUri env) = true)
    envs /\
  navigationIndex
    (run default_CONFIG Math_exp_approx
       (envs ≫= fun env => [(env, BackPressed); (env, GuardReleaseFired)])
       stepped_back)
  = Z.max (Z.min (navigationIndex stepped_back) 0)
      (navigationIndex stepped_back - Z.of_nat (length envs)).
Proof.
  cbv zeta.
  assert (isHandlingAction stepped_back = false) as H1 by reflexivity.
  assert (isActive stepped_back = true) as H2 by reflexivity.
  assert (Forall
            (fun env =>
               getShuffle env && isPlaylistUri (getContextUri env) = true)
            [playing 2 (fun _ => true); playing 1 (fun _ => true);
             playing 0 (fun _ => true)]) as H3.
  { repeat (apply Forall_cons_2; [vm_compute; reflexivity|]). apply Forall_nil_2. }
  split_and!; [exact H1|exact H2|exact H3|].
  exact (proj1 (back_skips_stop_at_first_entry default_CONFIG Math_exp_approx
                  _ stepped_back H1 H2 H3)).
Defined.

Lemma handleSkipForward_replays_next_entry_witness :
  let env := playing 2 (fun _ => true) in
  let s := stepped_back in
  let s' := handleSkipForward default_CONFIG Math_exp_approx env s in
  isHandlingAction s = false /\
  (ensurePlaylistLoaded env s).1 = true /\
  -1 <= navigationIndex s /\
  navigationIndex s < Z.of_nat (length (navigationHistory s)) - 1 /\
  playOutcome env 0 = true /\
  exists track,
    navigationHistory s !! Z.to_nat (navigationIndex s + 1) = Some track /\
    plays (drop (length (log s)) (log s')) = [(Some track, true)] /\
    navigationIndex s' = navigationIndex s + 1 /\
    skipCounter s' = skipCounter s.
Proof.
  cbv zeta.
  assert (isHandlingAction stepped_back = false) as H1 by reflexivity.
  assert ((ensurePlaylistLoaded (playing 2 (fun _ => true)) stepped_back).1
          = true) as H2 by (vm_compute; reflexivity).
  assert (-1 <= navigationIndex stepped_back) as H3 by (cbn; lia).
  assert (navigationIndex stepped_back
          < Z.of_nat (length (navigationHistory stepped_back)) - 1)
    as H4 by (cbn; lia).
  assert (playOutcome (playing 2 (fun _ => true)) 0 = true)
    as H5 by reflexivity.
  destruct (handleSkipForward_replays_next_entry default_CONFIG
              Math_exp_approx (playing 2 (fun _ => true)) stepped_back
              H1 H2 H3 H4 H5)
    as (track & Hat & Hplays & _ & _ & Hidx & _ & Hcount & _).
  split_and!; [exact H1|exact H2|exact H3|exact H4|exact H5|].
  exists track. split_and!; [exact Hat|exact Hplays|exact Hidx|exact Hcount].
Defined.

Lemma back_then_forward_returns_witness :
  let env1 := playing 2 (fun _ => true) in
  let env2 := playing 1 (fun _ => true) in
  let s := stepped_back in
  let s1 :=
    step default_CONFIG Math_exp_approx env1 GuardReleaseFired
      (handleSkipBack env1 s) in
  let s2 := handleSkipForward default_CONFIG Math_exp_approx env2 s1 in
  isHandlingAction s = false /\
  0 < navigationIndex s < Z.of_nat (length (navigationHistory s)) /\
  (ensurePlaylistLoaded env2 s).1 = true /\
  playOutcome env2 0 = true /\
  navigationIndex s2 = navigationIndex s /\
  lastPlayedByUsUri s2 = navigationHistory s !! Z.to_nat (navigationIndex s).
Proof.
  cbv zeta.
  assert (isHandlingAction stepped_back = false) as H1 by reflexivity.
  assert (0 < navigationIndex stepped_back
          < Z.of_nat (length (navigationHistory stepped_back)))
    as H2 by (cbn; lia).
  assert ((ensurePlaylistLoaded (playing 1 (fun _ => true)) stepped_back).1
          = true) as H3 by (vm_compute; reflexivity).
  assert (playOutcome (playing 1 (fun _ => true)) 0 = true)
    as H4 by reflexivity.
  destruct (back_then_forward_returns default_CONFIG Math_exp_approx
              (playing 2 (fun _ => true)) (playing 1 (fun _ => true))
              stepped_back H1 H2 H3 H4)
    as (_ & Hidx & _ & Hlast & _).
  split_and!; [exact H1|exact (proj1 H2)|exact (proj2 H2)|exact H3|exact H4
              |exact Hidx|exact Hlast].
Defined.

Lemma mute_restore_round_trip_witness :
  let s := listening 6 3 in
  let s' := restoreVolume (Nat.iter 2 muteForSkip s) in
  smoothSkipMuted s = false /\
  volume (Nat.iter 2 muteForSkip s) = 0%float /\
  volume s' = volume s /\
  restoreVolume s' = s'.
Proof.
  cbv zeta.
  assert (smoothSkipMuted (listening 6 3) = false) as H by reflexivity.
  destruct (mute_restore_round_trip 1 (listening 6 3) H)
    as (Hmuted & Hvolume & _ & _ & _ & _ & Hagain).
  split_and!; [exact H|exact Hmuted|exact Hvolume|exact Hagain].
Defined.

Lemma restoreVolume_always_unmutes_witness :
  let s :=
    run default_CONFIG Math_exp_approx
      [(playing 0 (fun _ => true), NextPressed)] (initial_state 0.5) in
  smoothSkipMuted s = true /\
  is_Some (savedVolume s) /\
  smoothSkipMuted (restoreVolume s) = false.
Proof.
  cbv zeta.
  assert (smoothSkipMuted
            (run default_CONFIG Math_exp_approx
               [(playing 0 (fun _ => true), NextPressed)]
               (initial_state 0.5)) = true) as H by (vm_compute; reflexivity).
  destruct (restoreVolume_always_unmutes default_CONFIG Math_exp_approx 0.5
              [(playing 0 (fun _ => true), NextPressed)])
    as [Hsaved Hrestored].
  split_and!; [exact H|exact (Hsaved H)|exact Hrestored].
Defined.

Lemma Player_next_dropped_stays_muted_witness :
  let env := playing 0 (fun _ => true) in
  let s := initial_state 0.5 in
  let s' := Player_next default_CONFIG Math_exp_approx env s in
  isInTrueShuffleMode env s = true /\
  (ensurePlaylistLoaded env s).1 = false /\
  smoothSkipMuted s' = true /\
  volume s' = 0%float /\
  plays (drop (length (log s)) (log s')) = [].
Proof.
  cbv zeta.
  assert (isInTrueShuffleMode (playing 0 (fun _ => true)) (initial_state 0.5)
          = true) as H1 by (vm_compute; reflexivity).
  assert ((ensurePlaylistLoaded (playing 0 (fun _ => true))
             (initial_state 0.5)).1 = false) as H2 by (vm_compute; reflexivity).
  destruct (Player_next_dropped_stays_muted default_CONFIG Math_exp_approx
              (playing 0 (fun _ => true)) (initial_state 0.5) H1
              (or_intror H2))
    as (Hmuted & Hvolume & Hplays & _).
  split_and!; [exact H1|exact H2|exact Hmuted|exact Hvolume|exact Hplays].
Defined.

Lemma held_guard_blocks_events_witness :
  let env := playing 3 (fun _ => true) in
  let trace :=
    [(env, NextPressed); (env, SongChange); (env, BackPressed);
     (env, TopbarClicked)] in
  let s := set_isHandlingAction true stepped_back in
  let s' := run default_CONFIG Math_exp_approx trace s in
  isHandlingAction s = true /\
  Forall (fun x => x.2 <> GuardReleaseFired) trace /\
  isHandlingAction s' = true /\
  navigationIndex s' = navigationIndex s /\
  plays (drop (length (log s)) (log s')) = [].
Proof.
  cbv zeta.
  assert (isHandlingAction (set_isHandlingAction true stepped_back) = true)
    as H1 by reflexivity.
  assert (Forall (fun x : Env * Event => x.2 <> GuardReleaseFired)
            [(playing 3 (fun _ => true), NextPressed);
             (playing 3 (fun _ => true), SongChange);
             (playing 3 (fun _ => true), BackPressed);
             (playing 3 (fun _ => true), TopbarClicked)]) as H2.
  { repeat (apply Forall_cons_2; [discriminate|]). apply Forall_nil_2. }
  destruct (held_guard_blocks_events default_CONFIG Math_exp_approx _
              (set_isHandlingAction true stepped_back) H1 H2)
    as (Hguard & _ & _ & Hidx & _ & _ & Hplays).
  split_and!; [exact H1|exact H2|exact Hguard|exact Hidx|exact Hplays].
Defined.

Lemma native_pick_rejections_repeat_witness :
  let envs := [playing 0 (fun _ => true); playing 1 (fun _ => true)] in
  let s := awaiting_native_pick in
  let s' :=
    run default_CONFIG Math_exp_approx
      ((fun env => (env, SongChange)) <$> envs) s in
  isHandlingAction s = false /\
  isNativePassSkip s = true /\
  Forall (repeats_recent (NO_REPEAT_WINDOW default_CONFIG) (playHistory s))
    envs /\
  isNativePassSkip s' = true /\
  timers (drop (length (log s)) (log s')) = [NativeSkip; NativeSkip] /\
  plays (drop (length (log s)) (log s')) = [].
Proof.
  cbv zeta.
  assert (isHandlingAction awaiting_native_pick = false) as H1 by reflexivity.
  assert (isNativePassSkip awaiting_native_pick = true) as H2 by reflexivity.
  assert (Forall
            (repeats_recent (NO_REPEAT_WINDOW default_CONFIG)
               (playHistory awaiting_native_pick))
            [playing 0 (fun _ => true); playing 1 (fun _ => true)]) as H3.
  { repeat (apply Forall_cons_2;
            [eexists _, _; split_and!; [reflexivity..|];
             apply (bool_decide_unpack _); vm_compute; exact I|]).
    apply Forall_nil_2. }
  destruct (native_pick_rejections_repeat default_CONFIG Math_exp_approx _
              awaiting_native_pick H1 H2 H3)
    as (Hflag & _ & _ & _ & _ & Htimers & Hplays).
  split_and!; [exact H1|exact H2|exact H3|exact Hflag|exact Htimers
              |exact Hplays].
Defined.

Lemma songchange_context_change_resets_witness :
  let env := playing_in_Q 4 in
  let s := listening 6 3 in
  let s' := songchange default_CONFIG Math_exp_approx env s in
  isHandlingAction s = false /\
  isNativePassSkip s = false /\
  truthy (data_item env ≫= item_uri)
  && bool_decide (data_item env ≫= item_uri = lastPlayedByUsUri s) = false /\
  getContextUri env <> lastContextUri s /\
  playHistory s' = [] /\
  navigationHistory s' = ["spotify:track:4"] /\
  navigationIndex s' = 0.
Proof.
  cbv zeta.
  assert (isHandlingAction (listening 6 3) = false) as H1 by reflexivity.
  assert (isNativePassSkip (listening 6 3) = false) as H2 by reflexivity.
  assert (truthy (data_item (playing_in_Q 4) ≫= item_uri)
          && bool_decide (data_item (playing_in_Q 4) ≫= item_uri
                          = lastPlayedByUsUri (listening 6 3)) = false)
    as H3 by (vm_compute; reflexivity).
  assert (getContextUri (playing_in_Q 4) <> lastContextUri (listening 6 3))
    as H4 by (intros H; vm_compute in H; discriminate H).
  destruct (songchange_context_change_resets default_CONFIG Math_exp_approx
              (playing_in_Q 4) (listening 6 3) H1 H2 H3 H4)
    as (Hhistory & _ & _ & _ & _ & _ & _ & Hnav & _).
  destruct (Hnav "spotify:track:4") as [Hentries Hidx];
    [reflexivity|reflexivity|cbn; lia|].
  split_and!; [exact H1|exact H2|exact H3|exact H4|exact Hhistory
              |exact Hentries|exact Hidx].
Defined.

Lemma own_play_event_is_consumed_witness :
  let env := playing 2 (fun _ => true) in
  let env' := playing 3 (fun _ => true) in
  let s := stepped_back in
  let s1 :=
    step default_CONFIG Math_exp_approx env' GuardReleaseFired
      (handleSkipForward default_CONFIG Math_exp_approx env s) in
  isHandlingAction s = false /\
  isNativePassSkip s = false /\
  (ensurePlaylistLoaded env s).1 = true /\
  -1 <= navigationIndex s /\
  navigationIndex s < Z.of_nat (length (navigationHistory s)) - 1 /\
  playOutcome env 0 = true /\
  data_item env' ≫= item_uri
  = navigationHistory s !! Z.to_nat (navigationIndex s + 1) /\
  truthy (data_item env' ≫= item_uri) = true /\
  songchange default_CONFIG Math_exp_approx env' s1
  = set_lastPlayedByUsUri None s1.
Proof.
  cbv zeta.
  assert (isHandlingAction stepped_back = false) as H1 by reflexivity.
  assert (isNativePassSkip stepped_back = false) as H2 by reflexivity.
  assert ((ensurePlaylistLoaded (playing 2 (fun _ => true)) stepped_back).1
          = true) as H3 by (vm_compute; reflexivity).
  assert (-1 <= navigationIndex stepped_back) as H4 by (cbn; lia).
  assert (navigationIndex stepped_back
          < Z.of_nat (length (navigationHistory stepped_back)) - 1)
    as H5 by (cbn; lia).
  assert (playOutcome (playing 2 (fun _ => true)) 0 = true)
    as H6 by reflexivity.
  assert (data_item (playing 3 (fun _ => true)) ≫= item_uri
          = navigationHistory stepped_back
              !! Z.to_nat (navigationIndex stepped_back + 1))
    as H7 by reflexivity.
  assert (truthy (data_item (playing 3 (fun _ => true)) ≫= item_uri) = true)
    as H8 by reflexivity.
  split_and!; [exact H1|exact H2|exact H3|exact H4|exact H5|exact H6|exact H7
              |exact H8|].
  exact (proj2 (own_play_event_is_consumed default_CONFIG Math_exp_approx
                  (playing 2 (fun _ => true)) (playing 3 (fun _ => true))
                  stepped_back H1 H2 H3 H4 H5 H6 H7 H8)).
Defined.

Lemma calculateWeight_at_least_MIN_WEIGHT_witness :
  let w :=
    calculateWeight default_CONFIG Math_exp_approx (track_of 0)
      [entry_of 1; entry_of 0] in
  PrimFloat.is_nan w = false /\
  PrimFloat.leb (MIN_WEIGHT default_CONFIG) w = true.
Proof.
  cbv zeta.
  assert (PrimFloat.is_nan
            (calculateWeight default_CONFIG Math_exp_approx (track_of 0)
               [entry_of 1; entry_of 0]) = false)
    as H by (vm_compute; reflexivity).
  split; [exact H|].
  exact (proj2 (calculateWeight_at_least_MIN_WEIGHT default_CONFIG
                  Math_exp_approx (track_of 0) [entry_of 1; entry_of 0]) H).
Defined.

Lemma calculateWeight_of_unplayed_track_witness :
  let history := [entry_of 0; entry_of 3; entry_of 4] in
  (uri (track_of 5) ∉ h_uri <$> history) /\
  calculateWeight default_CONFIG Math_exp_approx (track_of 5) history
  = if truthy (artistUri (track_of 5))
       && bool_decide
            (artistUri (track_of 5) ∈ h_artistUri <$> take 2 history)
    then ARTIST_PENALTY default_CONFIG
    else 1%float.
Proof.
  cbv zeta.
  assert (uri (track_of 5)
          ∉ h_uri <$> [entry_of 0; entry_of 3; entry_of 4]) as H.
  { apply (bool_decide_unpack _). vm_compute. exact I. }
  split; [exact H|].
  exact (calculateWeight_of_unplayed_track Math_exp_approx (track_of 5)
           [entry_of 0; entry_of 3; entry_of 4] H).
Defined.

Lemma calculateWeight_of_latest_track_witness :
  h_uri (entry_of 0) = uri (track_of 0) /\
  Math_exp_approx (-0)%float = 1%float /\
  calculateWeight default_CONFIG Math_exp_approx (track_of 0)
    [entry_of 0; entry_of 1]
  = MIN_WEIGHT default_CONFIG.
Proof.
  assert (h_uri (entry_of 0) = uri (track_of 0)) as H1 by reflexivity.
  assert (Math_exp_approx (-0)%float = 1%float)
    as H2 by (vm_compute; reflexivity).
  split_and!; [exact H1|exact H2|].
  exact (calculateWeight_of_latest_track Math_exp_approx (track_of 0)
           (entry_of 0) [entry_of 1] H1 H2).
Defined.

Lemma loadPlaylistTracks_keeps_playable_tracks_witness :
  let env := delivering mixed_items in
  let tracks :=
    [ {| uri := "spotify:track:0";
         artistUri := Some "spotify:artist:0";
         name := "0"; artistName := "0" |} ] in
  loadPlaylistTracks env (Some "spotify:playlist:P") = Some tracks /\
  exists c items,
    getContents env c = Some items /\
    (length tracks <= length items)%nat /\
    (forall t, t ∈ tracks -> uri t <> "").
Proof.
  cbv zeta.
  assert (loadPlaylistTracks (delivering mixed_items)
            (Some "spotify:playlist:P")
          = Some [ {| uri := "spotify:track:0";
                      artistUri := Some "spotify:artist:0";
                      name := "0"; artistName := "0" |} ])
    as H by (vm_compute; reflexivity).
  split; [exact H|].
  destruct (loadPlaylistTracks_keeps_playable_tracks (delivering mixed_items)
              (Some "spotify:playlist:P") _ H)
    as (c & items & _ & _ & Hget & Hlen & Htracks & _).
  exists c, items. split_and!; [exact Hget|exact Hlen|].
  intros t Ht. exact (proj1 (Htracks t Ht)).
Defined.

Lemma ensurePlaylistLoaded_idempotent_witness :
  let env := playing 0 (fun _ => true) in
  let s := listening 6 3 in
  is_Some (getContextUri env) /\
  currentPlaylistUri s = getContextUri env /\
  is_Some (currentPlaylistTracks s) /\
  (ensurePlaylistLoaded env s).2 = s /\
  ensurePlaylistLoaded env (ensurePlaylistLoaded env s).2
  = ensurePlaylistLoaded env s.
Proof.
  cbv zeta.
  assert (is_Some (getContextUri (playing 0 (fun _ => true))))
    as H1 by (eexists; reflexivity).
  assert (currentPlaylistUri (listening 6 3)
          = getContextUri (playing 0 (fun _ => true))) as H2 by reflexivity.
  assert (is_Some (currentPlaylistTracks (listening 6 3)))
    as H3 by (eexists; reflexivity).
  destruct (ensurePlaylistLoaded_idempotent (playing 0 (fun _ => true))
              (listening 6 3)) as (Hagain & _ & Hhit & _).
  split_and!; [exact H1|exact H2|exact H3|exact (Hhit H1 H2 H3)|exact Hagain].
Defined.

Lemma skips_pass_to_native_out_of_mode_witness :
  let trace :=
    [(shuffle_off 0, NextPressed); (shuffle_off 0, SkipToPreviousCalled)] in
  let s := stepped_back in
  isHandlingAction s = false /\
  Forall (fun x =>
            isInTrueShuffleMode x.1 s = false /\
            x.2 ∈ [NextPressed; BackPressed; SkipToNextCalled;
                   SkipToPreviousCalled]) trace /\
  exists new,
    run default_CONFIG Math_exp_approx trace s = set_log (log s ++ new) s /\
    length new = length trace.
Proof.
  cbv zeta.
  assert (isHandlingAction stepped_back = false) as H1 by reflexivity.
  assert (Forall
            (fun x : Env * Event =>
               isInTrueShuffleMode x.1 stepped_back = false /\
               x.2 ∈ [NextPressed; BackPressed; SkipToNextCalled;
                      SkipToPreviousCalled])
            [(shuffle_off 0, NextPressed);
             (shuffle_off 0, SkipToPreviousCalled)]) as H2.
  { repeat (apply Forall_cons_2;
            [split; [vm_compute; reflexivity|rewrite !elem_of_cons; auto]|]).
    apply Forall_nil_2. }
  destruct (proj1 (skips_pass_to_native_out_of_mode default_CONFIG
                     Math_exp_approx _ stepped_back) H1 H2)
    as (new & Hrun & Hlen & _).
  split_and!; [exact H1|exact H2|].
  exists new. split; [exact Hrun|exact Hlen].
Defined.

Lemma forward_skip_overflow_at_most_three_witness :
  let env := playing 0 (fun _ => true) in
  let s := listening 6 3 in
  let s' := handleSkipForward default_CONFIG Math_exp_approx env s in
  isHandlingAction s = false /\
  (ensurePlaylistLoaded env s).1 = true /\
  truthy (data_item env ≫= item_uri) = true /\
  (forall u, (u, false) ∉ plays (drop (length (log s)) (log s'))) /\
  (length (playHistory s') <= HISTORY_SIZE default_CONFIG + 3)%nat /\
  (length (playHistory s') <= HISTORY_SIZE default_CONFIG)%nat.
Proof.
  cbv zeta.
  assert (isHandlingAction (listening 6 3) = false) as H1 by reflexivity.
  assert ((ensurePlaylistLoaded (playing 0 (fun _ => true))
             (listening 6 3)).1 = true) as H2 by (vm_compute; reflexivity).
  assert (truthy (data_item (playing 0 (fun _ => true)) ≫= item_uri) = true)
    as H3 by reflexivity.
  assert (forall u,
            (u, false)
            ∉ plays
                (drop (length (log (listening 6 3)))
                   (log (handleSkipForward default_CONFIG Math_exp_approx
                           (playing 0 (fun _ => true)) (listening 6 3)))))
    as H4.
  { intros u Hin. vm_compute in Hin.
    apply list_elem_of_singleton in Hin. discriminate Hin. }
  destruct (forward_skip_overflow_at_most_three default_CONFIG
              Math_exp_approx (playing 0 (fun _ => true)) (listening 6 3)
              H1 H2 H3) as [Hthree Hnone].
  split_and!; [exact H1|exact H2|exact H3|exact H4|exact Hthree|].
  exact (Hnone H4).
Defined.

Lemma event_loop_keeps_history_bound_and_saved_volume_witness :
  exists m,
    exec default_CONFIG Math_exp_approx stale_guard_release (boot 0.5)
    = Some m /\
    (length (navigationHistory (vars m)) <= HISTORY_SIZE default_CONFIG)%nat /\
    smoothSkipMuted (vars m) = true /\
    is_Some (savedVolume (vars m)) /\
    smoothSkipMuted (restoreVolume (vars m)) = false.
Proof.
  destruct (exec default_CONFIG Math_exp_approx stale_guard_release
              (boot 0.5)) as [m|] eqn:Hexec;
    [|vm_compute in Hexec; discriminate Hexec].
  assert (smoothSkipMuted (vars m) = true) as Hmuted.
  { vm_compute in Hexec. injection Hexec as <-. reflexivity. }
  destruct (event_loop_keeps_history_bound_and_saved_volume default_CONFIG
              Math_exp_approx 0.5 stale_guard_release m Hexec)
    as (Hbound & Hsaved & Hrestored).
  exists m. split_and!; [reflexivity|exact Hbound|exact Hmuted| |exact Hrestored].
  exact (Hsaved Hmuted).
Defined.
